(** * Key custody and trigger orders of the Solana/Base trading bot

    A shallow embedding of the custody and order engine of the bot:
    - [utils/encryption.ts] (password-keyed AES-256-GCM, session
      encryption, the legacy AES-256-CBC path),
    - [services/security-database.ts], [services/database.ts] (the SQLite
      tables the custody service reads and writes),
    - [services/session-manager.ts], [services/security.ts],
    - [services/trigger-orders-db.ts], [services/trigger-orders.ts].

    Conventions.
    - A JavaScript string is a [string]: the sequence of the bytes of its
      UTF-8 encoding, so that encoding to and decoding from ['utf8'] are
      [list_byte_of_string] and [string_of_list_byte].  Strings are taken
      to be well-formed text (no unpaired surrogate), which is what a
      password typed in a chat and a key in base58 or hexadecimal are; the
      [length] of a string, in UTF-16 code units, is [js_length].
    - A [Buffer] is a [list Byte.byte].
    - A JavaScript number holding a time stamp or a count is a [Z]; a price,
      a market cap or a trigger value is an IEEE-754 double, a [float].
    - Node's [crypto] module is outside the repository: its primitives are
      the operations of the class [NodeCrypto], and what is assumed of them
      is stated in separate classes of laws.
    - [Date.now()] reads the field [clock] of the world, and
      [crypto.randomBytes] reads the world's entropy tape.
    - Every hexadecimal field of a blob is decoded as [Buffer.from(.., 'hex')]
      decodes it, up to the first character that is no digit, and decrypted
      bytes are returned as they are.  On a blob that was tampered with
      Node is stricter: [decipher.update(.., 'hex', 'utf8')] throws on a
      field of odd length, and invalid UTF-8 comes out as U+FFFD.  The
      statements are about the blobs that the encrypt functions make, on
      which the two agree, and about failure, where the code fails on
      more. *)

From Stdlib Require Import ZArith String Ascii Floats.
From stdpp Require Import gmap strings list fin_maps pretty sorting.

Local Open Scope Z_scope.

(** ** Buffers and their hexadecimal form *)

Abbreviation Buffer := (list Byte.byte).

#[global] Instance byte_eq_decision : EqDecision Byte.byte.
Proof.
  intros x y. destruct (Byte.eqb x y) eqn:E.
  - left. by apply Byte.byte_dec_bl.
  - right. by apply Byte.eqb_false.
Defined.

(** [buf.toString('hex')]: two lower-case digits per byte. *)
Definition hex_digit (n : N) : ascii :=
  if (n <? 10)%N then ascii_of_N (48 + n) else ascii_of_N (87 + n).

Fixpoint to_hex (b : Buffer) : string :=
  match b with
  | [] => EmptyString
  | x :: r =>
      String (hex_digit (Byte.to_N x / 16))
        (String (hex_digit (Byte.to_N x mod 16)) (to_hex r))
  end.

(** The value of a hexadecimal digit, from its character code; both cases
    of the letters are accepted on input. *)
Definition hex_value (c : ascii) : option N :=
  let n := N_of_ascii c in
  if (48 <=? n)%N && (n <=? 57)%N then Some (n - 48)%N
  else if (97 <=? n)%N && (n <=? 102)%N then Some (n - 87)%N
  else if (65 <=? n)%N && (n <=? 70)%N then Some (n - 55)%N
  else None.

(** [Buffer.from(s, 'hex')]: decodes pairs of digits and stops, without an
    exception, at the first pair that is not hexadecimal; a trailing single
    digit is dropped. *)
Fixpoint from_hex (s : string) : Buffer :=
  match s with
  | String c1 (String c2 r) =>
      match hex_value c1, hex_value c2 with
      | Some h, Some l =>
          match Byte.of_N (16 * h + l) with
          | Some x => x :: from_hex r
          | None => []
          end
      | _, _ => []
      end
  | _ => []
  end.

(** ** [String.prototype.split] and [Array.prototype.join] on one character *)

Fixpoint split (sep : ascii) (s : string) : list string :=
  match s with
  | EmptyString => [EmptyString]
  | String c r =>
      if Ascii.eqb c sep then EmptyString :: split sep r
      else match split sep r with
           | h :: t => String c h :: t
           | [] => [String c EmptyString]
           end
  end.

Fixpoint join (sep : ascii) (l : list string) : string :=
  match l with
  | [] => EmptyString
  | [x] => x
  | x :: r => x +:+ String sep (join sep r)
  end.

Fixpoint has_char (c : ascii) (s : string) : bool :=
  match s with
  | EmptyString => false
  | String d r => Ascii.eqb d c || has_char c r
  end.

Definition colon : ascii := ":"%char.

(** [s.length]: the number of UTF-16 code units of the text.  Every byte
    that is not a continuation byte ([0x80] to [0xBF]) starts a character,
    and a character of four bytes ([0xF0] and above) takes two units. *)
Fixpoint js_length (s : string) : nat :=
  match s with
  | EmptyString => 0
  | String c r =>
      let n := N_of_ascii c in
      ((if (128 <=? n)%N && (n <=? 191)%N then 0
        else if (240 <=? n)%N then 2 else 1) + js_length r)%nat
  end.

(** JavaScript truthiness of a [string | null]: [null] and [''] are falsy. *)
Definition truthy (v : option string) : bool :=
  match v with
  | Some s => negb (String.eqb s EmptyString)
  | None => false
  end.

(** ** Exceptions *)

(** The outcome of a call: a returned value or a thrown [Error] with its
    message. *)
Inductive result (A : Type) : Type :=
| Returns (v : A)
| Throws (msg : string).
Arguments Returns {A} v.
Arguments Throws {A} msg.

(** [try { body } catch { handler }]. *)
Definition try_catch {A} (body : result A) (handler : string → result A) : result A :=
  match body with
  | Returns v => Returns v
  | Throws msg => handler msg
  end.

(** ** Node's [crypto] module *)

(** The primitives the repository calls.  A primitive that may throw
    returns an [option]: [None] stands for the exception. *)
Class NodeCrypto := {
  (** [crypto.pbkdf2Sync(password, salt, iterations, keylen, 'sha256')] *)
  pbkdf2Sync : Buffer → Buffer → N → N → Buffer;
  (** ['aes-256-gcm']: [createCipheriv(key, iv)], [update], [final] and
      [getAuthTag]; the result is the ciphertext and the tag. *)
  gcm_encrypt : Buffer → Buffer → Buffer → option (Buffer * Buffer);
  (** ['aes-256-gcm']: [createDecipheriv(key, iv)], [setAuthTag(tag)],
      [update(ciphertext)] and [final]; [final] throws when the tag does
      not verify. *)
  gcm_decrypt : Buffer → Buffer → Buffer → Buffer → option Buffer;
  (** ['aes-256-cbc']: [createCipheriv(key, iv)], [update], [final]. *)
  cbc_encrypt : Buffer → Buffer → Buffer → option Buffer;
  (** ['aes-256-cbc']: [createDecipheriv(key, iv)], [update], [final]. *)
  cbc_decrypt : Buffer → Buffer → Buffer → option Buffer;
}.

(** What the primitives do on well-formed arguments. *)
Class CryptoCorrect `{NodeCrypto} : Prop := {
  pbkdf2Sync_length : ∀ pw salt iter len,
    length (pbkdf2Sync pw salt iter len) = N.to_nat len;
  gcm_encrypt_total : ∀ key iv pt,
    length key = 32%nat → length iv = 16%nat → is_Some (gcm_encrypt key iv pt);
  gcm_decrypt_encrypt : ∀ key iv pt ct tag,
    gcm_encrypt key iv pt = Some (ct, tag) → gcm_decrypt key iv tag ct = Some pt;
  cbc_decrypt_encrypt : ∀ key iv pt ct,
    cbc_encrypt key iv pt = Some ct → cbc_decrypt key iv ct = Some pt;
}.

(** The idealisation of authenticated encryption: a ciphertext and tag made
    under one key are rejected under every other key. *)
Class GcmRejectsOtherKeys `{NodeCrypto} : Prop :=
  gcm_decrypt_other_key : ∀ key key' iv pt ct tag,
    gcm_encrypt key iv pt = Some (ct, tag) → key' ≠ key →
    gcm_decrypt key' iv tag ct = None.

(** [crypto.timingSafeEqual(a, b)] throws a [RangeError] on buffers of
    different lengths. *)
Definition timingSafeEqual (a b : Buffer) : result bool :=
  if bool_decide (length a = length b)
  then Returns (bool_decide (a = b))
  else Throws "Input buffers must have the same byte length".

(** ** [utils/encryption.ts]: password-keyed encryption *)

Section Cipher.
Context `{NodeCrypto}.

Definition IV_LENGTH : N := 16.
Definition SALT_LENGTH : N := 32.
Definition TAG_LENGTH : N := 16.
Definition KEY_LENGTH : N := 32.
Definition PBKDF2_ITERATIONS : N := 310000.

(** The template [`${password}:${telegramUserId}`]. *)
Definition password_material (password : string) (telegramUserId : N) : Buffer :=
  list_byte_of_string (password +:+ ":" +:+ pretty telegramUserId).

Definition deriveKeyFromPassword
    (password : string) (telegramUserId : N) (salt : Buffer) : Buffer :=
  pbkdf2Sync (password_material password telegramUserId) salt
    PBKDF2_ITERATIONS KEY_LENGTH.

(** [hashPassword] once [crypto.randomBytes(SALT_LENGTH)] has given [salt]. *)
Definition hashPassword_with (salt : Buffer)
    (password : string) (telegramUserId : N) : string :=
  let hash := pbkdf2Sync (password_material password telegramUserId) salt
                PBKDF2_ITERATIONS KEY_LENGTH in
  to_hex salt +:+ ":" +:+ to_hex hash.

Definition verifyPassword
    (password : string) (telegramUserId : N) (storedHash : string) : result bool :=
  match split colon storedHash with
  | [p0; p1] =>
      let salt := from_hex p0 in
      let hash := from_hex p1 in
      let testHash := pbkdf2Sync (password_material password telegramUserId) salt
                        PBKDF2_ITERATIONS KEY_LENGTH in
      timingSafeEqual hash testHash
  | _ => Returns false
  end.

(** [encryptWithPassword] once the two calls of [crypto.randomBytes] have
    given [salt] and [iv].  Nothing catches an exception of the cipher. *)
Definition encryptWithPassword_with (salt iv : Buffer)
    (plaintext password : string) (telegramUserId : N) : result string :=
  let key := deriveKeyFromPassword password telegramUserId salt in
  match gcm_encrypt key iv (list_byte_of_string plaintext) with
  | Some (encrypted, authTag) =>
      Returns (join colon [to_hex salt; to_hex iv; to_hex authTag; to_hex encrypted])
  | None => Throws "createCipheriv"
  end.

Definition decryptWithPassword
    (encryptedText password : string) (telegramUserId : N) : result (option string) :=
  try_catch
    (match split colon encryptedText with
     | [p0; p1; p2; p3] =>
         let salt := from_hex p0 in
         let iv := from_hex p1 in
         let authTag := from_hex p2 in
         let encrypted := p3 in
         let key := deriveKeyFromPassword password telegramUserId salt in
         match gcm_decrypt key iv authTag (from_hex encrypted) with
         | Some decrypted => Returns (Some (string_of_list_byte decrypted))
         | None => Throws "Unsupported state or unable to authenticate data"
         end
     | _ => Returns None
     end)
    (λ _, Returns None).

(** The two closures of [createSessionEncryption], over the [sessionKey]
    they share. *)
Definition session_encrypt_with (sessionKey iv : Buffer) (data : string) : result string :=
  match gcm_encrypt sessionKey iv (list_byte_of_string data) with
  | Some (encrypted, authTag) =>
      Returns (to_hex iv +:+ ":" +:+ to_hex authTag +:+ ":" +:+ to_hex encrypted)
  | None => Throws "createCipheriv"
  end.

Definition session_decrypt (sessionKey : Buffer) (encryptedText : string)
    : result (option string) :=
  try_catch
    (match split colon encryptedText with
     | [p0; p1; p2] =>
         let iv := from_hex p0 in
         let authTag := from_hex p1 in
         let encrypted := p2 in
         match gcm_decrypt sessionKey iv authTag (from_hex encrypted) with
         | Some decrypted => Returns (Some (string_of_list_byte decrypted))
         | None => Throws "Unsupported state or unable to authenticate data"
         end
     | _ => Returns None
     end)
    (λ _, Returns None).

(** *** Legacy support for migration *)

Definition decryptLegacy (encryptedText serverKey : string) : result (option string) :=
  try_catch
    (let key := from_hex serverKey in
     match split colon encryptedText with
     | [p0; p1] =>
         let iv := from_hex p0 in
         let encrypted := p1 in
         match cbc_decrypt key iv (from_hex encrypted) with
         | Some decrypted => Returns (Some (string_of_list_byte decrypted))
         | None => Throws "bad decrypt"
         end
     | _ => Returns None
     end)
    (λ _, Returns None).

Definition isLegacyFormat (encryptedText : string) : bool :=
  bool_decide (length (split colon encryptedText) = 2%nat).

(** *** The server-key module that [services/solana.ts] and
    [services/base.ts] import in their earlier revision: [encrypt] and
    [decrypt] under [config.walletEncryptionKey] *)

Definition encrypt_with (iv : Buffer) (walletEncryptionKey text : string) : result string :=
  let key := from_hex walletEncryptionKey in
  match cbc_encrypt key iv (list_byte_of_string text) with
  | Some encrypted => Returns (to_hex iv +:+ ":" +:+ to_hex encrypted)
  | None => Throws "createCipheriv"
  end.

Definition decrypt (walletEncryptionKey encryptedText : string) : result string :=
  let key := from_hex walletEncryptionKey in
  match split colon encryptedText with
  | [p0; p1] =>
      let iv := from_hex p0 in
      let encrypted := p1 in
      match cbc_decrypt key iv (from_hex encrypted) with
      | Some decrypted => Returns (string_of_list_byte decrypted)
      | None => Throws "bad decrypt"
      end
  | _ => Throws "Invalid encrypted text format"
  end.

End Cipher.

(** ** The state of the process: the SQLite tables and the session store *)

Inductive Network := solana | base.

#[global] Instance Network_eq_dec : EqDecision Network.
Proof. solve_decision. Defined.

#[global] Instance Network_countable : Countable Network.
Proof.
  refine (inj_countable' (λ n, match n with solana => false | base => true end)
            (λ b : bool, if b then base else solana) _).
  by intros [].
Defined.

(** A row of [user_security], keyed by [telegram_user_id]; of its columns
    the custody service reads [password_hash] only. *)
Record UserSecurityRow := {
  password_hash : string;
  last_password_change : option Z;
}.

(** A row of [wallets], keyed by the [UNIQUE(telegram_user_id, network)]
    constraint of the table. *)
Record WalletRow := {
  wallet_id : N;
  wallet_address : string;
  encrypted_private_key : string;
  encryption_version : N;
}.

(** A row of [login_attempts]. *)
Record LoginAttempt := {
  attempt_user : N;
  attempt_time : Z;
  attempt_success : bool;
}.

(** A row of [security_log]. *)
Record SecurityLogRow := {
  log_user : N;
  log_action : string;
  log_details : option string;
}.

(** [interface Session] of the session manager; the closure
    [sessionCrypto] is its [sessionKey]. *)
Record Session := {
  session_user : N;
  unlockedAt : Z;
  expiresAt : Z;
  encryptedKeys : gmap Network string;
  sessionKey : Buffer;
}.

Inductive TriggerType := price | marketcap.
Inductive TriggerCondition := above | below.
Inductive OrderSide := buy | sell.
Inductive OrderStatus := active | triggered | executed | failed | cancelled.
Inductive AmountType := fixed | percentage.

#[global] Instance OrderStatus_eq_dec : EqDecision OrderStatus.
Proof. solve_decision. Defined.

(** [interface TriggerOrder], a row of [trigger_orders]. *)
Record TriggerOrder := {
  id : N;
  telegramUserId : N;
  chatId : Z;
  network : Network;
  tokenAddress : string;
  tokenSymbol : string;
  side : OrderSide;
  triggerType : TriggerType;
  triggerCondition : TriggerCondition;
  triggerValue : float;
  amount : string;
  amountType : AmountType;
  slippageBps : Z;
  status : OrderStatus;
  priceAtCreation : float;
  createdAt : Z;
  triggeredAt : option Z;
  executedAt : option Z;
  txHash : option string;
  executionPrice : option float;
  error : option string;
}.

(** A message handed to [bot.telegram.sendMessage]: the chat, the order and
    whether it reports an execution or a failure. *)
Inductive Notification :=
| NotifyExecuted (chat : Z) (order : N) (tx : string)
| NotifyFailed (chat : Z) (order : N) (msg : string).

Record World := {
  clock : Z;
  entropy : nat → Byte.byte;
  entropy_pos : nat;
  walletEncryptionKey : string;
  user_security : gmap N UserSecurityRow;
  wallets : gmap (N * Network) WalletRow;
  next_wallet_id : N;
  login_attempts : list LoginAttempt;
  security_log : list SecurityLogRow;
  sessions : list (N * Session);
  trigger_orders : list TriggerOrder;
  notifications : list Notification;
}.

Definition set_entropy_pos (f : nat → nat) (w : World) : World :=
  {| clock := clock w; entropy := entropy w; entropy_pos := f (entropy_pos w);
     walletEncryptionKey := walletEncryptionKey w;
     user_security := user_security w; wallets := wallets w;
     next_wallet_id := next_wallet_id w; login_attempts := login_attempts w;
     security_log := security_log w; sessions := sessions w;
     trigger_orders := trigger_orders w; notifications := notifications w |}.

Definition set_user_security
    (f : gmap N UserSecurityRow → gmap N UserSecurityRow) (w : World) : World :=
  {| clock := clock w; entropy := entropy w; entropy_pos := entropy_pos w;
     walletEncryptionKey := walletEncryptionKey w;
     user_security := f (user_security w); wallets := wallets w;
     next_wallet_id := next_wallet_id w; login_attempts := login_attempts w;
     security_log := security_log w; sessions := sessions w;
     trigger_orders := trigger_orders w; notifications := notifications w |}.

Definition set_wallets
    (f : gmap (N * Network) WalletRow → gmap (N * Network) WalletRow)
    (g : N → N) (w : World) : World :=
  {| clock := clock w; entropy := entropy w; entropy_pos := entropy_pos w;
     walletEncryptionKey := walletEncryptionKey w;
     user_security := user_security w; wallets := f (wallets w);
     next_wallet_id := g (next_wallet_id w); login_attempts := login_attempts w;
     security_log := security_log w; sessions := sessions w;
     trigger_orders := trigger_orders w; notifications := notifications w |}.

Definition set_login_attempts
    (f : list LoginAttempt → list LoginAttempt) (w : World) : World :=
  {| clock := clock w; entropy := entropy w; entropy_pos := entropy_pos w;
     walletEncryptionKey := walletEncryptionKey w;
     user_security := user_security w; wallets := wallets w;
     next_wallet_id := next_wallet_id w; login_attempts := f (login_attempts w);
     security_log := security_log w; sessions := sessions w;
     trigger_orders := trigger_orders w; notifications := notifications w |}.

Definition set_security_log
    (f : list SecurityLogRow → list SecurityLogRow) (w : World) : World :=
  {| clock := clock w; entropy := entropy w; entropy_pos := entropy_pos w;
     walletEncryptionKey := walletEncryptionKey w;
     user_security := user_security w; wallets := wallets w;
     next_wallet_id := next_wallet_id w; login_attempts := login_attempts w;
     security_log := f (security_log w); sessions := sessions w;
     trigger_orders := trigger_orders w; notifications := notifications w |}.

Definition set_sessions
    (f : list (N * Session) → list (N * Session)) (w : World) : World :=
  {| clock := clock w; entropy := entropy w; entropy_pos := entropy_pos w;
     walletEncryptionKey := walletEncryptionKey w;
     user_security := user_security w; wallets := wallets w;
     next_wallet_id := next_wallet_id w; login_attempts := login_attempts w;
     security_log := security_log w; sessions := f (sessions w);
     trigger_orders := trigger_orders w; notifications := notifications w |}.

Definition set_trigger_orders
    (f : list TriggerOrder → list TriggerOrder) (w : World) : World :=
  {| clock := clock w; entropy := entropy w; entropy_pos := entropy_pos w;
     walletEncryptionKey := walletEncryptionKey w;
     user_security := user_security w; wallets := wallets w;
     next_wallet_id := next_wallet_id w; login_attempts := login_attempts w;
     security_log := security_log w; sessions := sessions w;
     trigger_orders := f (trigger_orders w); notifications := notifications w |}.

Definition set_notifications
    (f : list Notification → list Notification) (w : World) : World :=
  {| clock := clock w; entropy := entropy w; entropy_pos := entropy_pos w;
     walletEncryptionKey := walletEncryptionKey w;
     user_security := user_security w; wallets := wallets w;
     next_wallet_id := next_wallet_id w; login_attempts := login_attempts w;
     security_log := security_log w; sessions := sessions w;
     trigger_orders := trigger_orders w; notifications := f (notifications w) |}.

(** The passing of time between two calls. *)
Definition set_clock (t : Z) (w : World) : World :=
  {| clock := t; entropy := entropy w; entropy_pos := entropy_pos w;
     walletEncryptionKey := walletEncryptionKey w;
     user_security := user_security w; wallets := wallets w;
     next_wallet_id := next_wallet_id w; login_attempts := login_attempts w;
     security_log := security_log w; sessions := sessions w;
     trigger_orders := trigger_orders w; notifications := notifications w |}.

(** ** Computations: state and exceptions *)

Definition M (A : Type) : Type := World → result A * World.

Definition ret {A} (v : A) : M A := λ w, (Returns v, w).
Definition throw {A} (msg : string) : M A := λ w, (Throws msg, w).
Definition bind {A B} (m : M A) (k : A → M B) : M B :=
  λ w, match m w with
       | (Returns v, w') => k v w'
       | (Throws msg, w') => (Throws msg, w')
       end.
Definition gets {A} (f : World → A) : M A := λ w, (Returns (f w), w).
Definition modify (f : World → World) : M unit := λ w, (Returns tt, f w).
Definition lift {A} (r : result A) : M A := λ w, (r, w).

Declare Scope js_scope.
Delimit Scope js_scope with js.
Notation "x <- m ;; k" := (bind m (λ x, k))
  (at level 100, m at next level, right associativity) : js_scope.
Notation "m ;; k" := (bind m (λ _, k))
  (at level 100, right associativity) : js_scope.
Local Open Scope js_scope.

(** [try { body } catch (error) { handler }] around a computation: what the
    body did to the state before it threw stays done. *)
Definition try_catch_in {A} (body : M A) (handler : string → M A) : M A :=
  λ w, match body w with
       | (Returns v, w') => (Returns v, w')
       | (Throws msg, w') => handler msg w'
       end.

(** [for (const x of l) body]. *)
Fixpoint for_of {A} (l : list A) (body : A → M unit) : M unit :=
  match l with
  | [] => ret tt
  | x :: r => body x ;; for_of r body
  end.

Definition dateNow : M Z := gets clock.

(** [crypto.randomBytes(n)]: the next [n] bytes of the entropy tape. *)
Definition randomBytes (n : nat) : M Buffer :=
  λ w, (Returns (map (entropy w) (seq (entropy_pos w) n)),
        set_entropy_pos (λ p, (p + n)%nat) w).

(** A JavaScript [Map] with number keys: the entries in insertion order. *)
Fixpoint map_get {V} (k : N) (m : list (N * V)) : option V :=
  match m with
  | [] => None
  | (k', v) :: r => if bool_decide (k' = k) then Some v else map_get k r
  end.

Fixpoint map_set {V} (k : N) (v : V) (m : list (N * V)) : list (N * V) :=
  match m with
  | [] => [(k, v)]
  | (k', v') :: r =>
      if bool_decide (k' = k) then (k, v) :: r else (k', v') :: map_set k v r
  end.

Definition map_delete {V} (k : N) (m : list (N * V)) : list (N * V) :=
  filter (λ e, e.1 ≠ k) m.

(** ** [services/database.ts]: the wallets table *)

Definition getWallet (telegramUserId : N) (net : Network) : M (option WalletRow) :=
  gets (λ w, wallets w !! (telegramUserId, net)).

(** [SELECT ... FROM wallets WHERE telegram_user_id = ?]: the user's rows,
    in the order of their row ids. *)
Definition getAllWallets (telegramUserId : N) : M (list (Network * WalletRow)) :=
  gets (λ w,
    match wallets w !! (telegramUserId, solana), wallets w !! (telegramUserId, base) with
    | Some s, Some b =>
        if (wallet_id s <=? wallet_id b)%N
        then [(solana, s); (base, b)] else [(base, b); (solana, s)]
    | Some s, None => [(solana, s)]
    | None, Some b => [(base, b)]
    | None, None => []
    end).

(** [INSERT ... ON CONFLICT(telegram_user_id, network) DO UPDATE SET address,
    encrypted_private_key]: a new row takes the column default
    [encryption_version = 1]; an existing row keeps its version. *)
Definition saveWallet (telegramUserId : N) (net : Network)
    (address encryptedPrivateKey : string) : M unit :=
  modify (λ w,
    match wallets w !! (telegramUserId, net) with
    | Some r =>
        set_wallets
          <[(telegramUserId, net) :=
              {| wallet_id := wallet_id r; wallet_address := address;
                 encrypted_private_key := encryptedPrivateKey;
                 encryption_version := encryption_version r |}]> (λ n, n) w
    | None =>
        set_wallets
          <[(telegramUserId, net) :=
              {| wallet_id := next_wallet_id w; wallet_address := address;
                 encrypted_private_key := encryptedPrivateKey;
                 encryption_version := 1 |}]> N.succ w
    end).

(** ** [services/security-database.ts] *)

Definition getUserSecurity (telegramUserId : N) : M (option UserSecurityRow) :=
  gets (λ w, user_security w !! telegramUserId).

(** [updateUserSecurity(telegramUserId, { passwordHash })]. *)
Definition updateUserSecurity_passwordHash
    (telegramUserId : N) (passwordHash : string) : M unit :=
  modify (λ w,
    set_user_security
      (alter (λ _, {| password_hash := passwordHash;
                      last_password_change := Some (clock w) |}) telegramUserId) w).

Definition recordLoginAttempt (telegramUserId : N) (success : bool) : M unit :=
  now <- dateNow ;;
  modify (set_login_attempts (λ l,
    l ++ [{| attempt_user := telegramUserId; attempt_time := now;
             attempt_success := success |}])) ;;
  now' <- dateNow ;;
  modify (set_login_attempts
    (filter (λ a, ¬ (attempt_user a = telegramUserId ∧
                     attempt_time a < now' - 24 * 60 * 60 * 1000)))).

Definition getFailedAttemptCount (telegramUserId : N) (minutes : Z) : M Z :=
  now <- dateNow ;;
  let since := now - minutes * 60 * 1000 in
  gets (λ w, Z.of_nat (length (filter
    (λ a, attempt_user a = telegramUserId ∧ since < attempt_time a ∧
          attempt_success a = false) (login_attempts w)))).

(** [SELECT MAX(attempt_time) ... WHERE telegram_user_id = ? AND success = 0]:
    [NULL] on no row. *)
Definition lastFailedAttempt (telegramUserId : N) (l : list LoginAttempt) : option Z :=
  foldr (λ a acc,
    if bool_decide (attempt_user a = telegramUserId ∧ attempt_success a = false)
    then match acc with
         | Some m => Some (Z.max (attempt_time a) m)
         | None => Some (attempt_time a)
         end
    else acc) None l.

Record Lockout := { locked : bool; unlockIn : Z }.

Definition isLockedOut (telegramUserId : N) : M Lockout :=
  failedCount <- getFailedAttemptCount telegramUserId 15 ;;
  if bool_decide (5 ≤ failedCount) then
    last_attempt <- gets (λ w, lastFailedAttempt telegramUserId (login_attempts w)) ;;
    let lockUntil := default 0 last_attempt + 15 * 60 * 1000 in
    now <- dateNow ;;
    if bool_decide (now < lockUntil)
    then ret {| locked := true; unlockIn := (lockUntil - now + 59999) / 60000 |}
    else ret {| locked := false; unlockIn := 0 |}
  else ret {| locked := false; unlockIn := 0 |}.

Definition logSecurityEvent (telegramUserId : N) (action : string)
    (details : option string) : M unit :=
  modify (set_security_log (λ l,
    l ++ [{| log_user := telegramUserId; log_action := action;
             log_details := details |}])).

Definition setWalletEncryptionVersion (telegramUserId : N) (net : Network)
    (version : N) : M unit :=
  modify (set_wallets
    (alter (λ r, {| wallet_id := wallet_id r; wallet_address := wallet_address r;
                    encrypted_private_key := encrypted_private_key r;
                    encryption_version := version |}) (telegramUserId, net))
    (λ n, n)).

(** [encryption_version || 1] of a row: zero counts as absent. *)
Definition effective_version (wl : WalletRow) : N :=
  if (encryption_version wl =? 0)%N then 1%N else encryption_version wl.

(** [row?.encryption_version || 1]. *)
Definition getWalletEncryptionVersion (telegramUserId : N) (net : Network) : M N :=
  gets (λ w,
    match wallets w !! (telegramUserId, net) with
    | Some r => effective_version r
    | None => 1%N
    end).

(** ** [services/session-manager.ts] *)

Definition SESSION_TIMEOUT_MS : Z := 30 * 60 * 1000.
Definition MAX_SESSIONS : Z := 10000.

(** The callback of [startSessionCleanup], run every minute. *)
Definition sessionCleanup : M unit :=
  now <- dateNow ;;
  modify (set_sessions (filter (λ e, ¬ (expiresAt e.2 < now)))).

(** [[...sessions.entries()].sort((a, b) => a[1].unlockedAt - b[1].unlockedAt)[0]]:
    the sort is stable, so among the oldest the first inserted comes first. *)
Fixpoint oldest (m : list (N * Session)) : option (N * Session) :=
  match m with
  | [] => None
  | e :: r =>
      match oldest r with
      | Some e' => if bool_decide (unlockedAt e'.2 < unlockedAt e.2) then Some e' else Some e
      | None => Some e
      end
  end.

Section Custody.
Context `{NodeCrypto}.

(** [createSessionEncryption().encrypt]. *)
Definition session_encrypt (sessionKey : Buffer) (data : string) : M string :=
  iv <- randomBytes (N.to_nat IV_LENGTH) ;;
  lift (session_encrypt_with sessionKey iv data).

Definition createSession (telegramUserId : N) (timeoutMs : Z) : M Session :=
  size <- gets (λ w, Z.of_nat (length (sessions w))) ;;
  (if bool_decide (MAX_SESSIONS ≤ size) then
     now <- dateNow ;;
     modify (set_sessions (filter (λ e, ¬ (expiresAt e.2 < now)))) ;;
     size' <- gets (λ w, Z.of_nat (length (sessions w))) ;;
     if bool_decide (MAX_SESSIONS ≤ size') then
       victim <- gets (λ w, oldest (sessions w)) ;;
       match victim with
       | Some e => modify (set_sessions (map_delete e.1))
       | None => ret tt
       end
     else ret tt
   else ret tt) ;;
  now <- dateNow ;;
  key <- randomBytes (N.to_nat KEY_LENGTH) ;;
  let session :=
    {| session_user := telegramUserId; unlockedAt := now;
       expiresAt := now + timeoutMs; encryptedKeys := ∅; sessionKey := key |} in
  modify (set_sessions (map_set telegramUserId session)) ;;
  ret session.

Definition getSession (telegramUserId : N) : M (option Session) :=
  session <- gets (λ w, map_get telegramUserId (sessions w)) ;;
  match session with
  | None => ret None
  | Some s =>
      now <- dateNow ;;
      if bool_decide (expiresAt s < now) then
        modify (set_sessions (map_delete telegramUserId)) ;;
        ret None
      else ret (Some s)
  end.

Definition refreshSession (telegramUserId : N) (timeoutMs : Z) : M bool :=
  session <- getSession telegramUserId ;;
  match session with
  | None => ret false
  | Some s =>
      now <- dateNow ;;
      modify (set_sessions (map_set telegramUserId
        {| session_user := session_user s; unlockedAt := unlockedAt s;
           expiresAt := now + timeoutMs; encryptedKeys := encryptedKeys s;
           sessionKey := sessionKey s |})) ;;
      ret true
  end.

Definition storeKeyInSession (telegramUserId : N) (net : Network)
    (privateKey : string) : M bool :=
  session <- getSession telegramUserId ;;
  match session with
  | None => ret false
  | Some s =>
      encrypted <- session_encrypt (sessionKey s) privateKey ;;
      modify (set_sessions (map_set telegramUserId
        {| session_user := session_user s; unlockedAt := unlockedAt s;
           expiresAt := expiresAt s;
           encryptedKeys := <[net := encrypted]> (encryptedKeys s);
           sessionKey := sessionKey s |})) ;;
      ret true
  end.

Definition getKeyFromSession (telegramUserId : N) (net : Network) : M (option string) :=
  session <- getSession telegramUserId ;;
  match session with
  | None => ret None
  | Some s =>
      match encryptedKeys s !! net with
      | Some encrypted =>
          if String.eqb encrypted EmptyString then ret None
          else lift (session_decrypt (sessionKey s) encrypted)
      | None => ret None
      end
  end.

Definition hasKeyInSession (telegramUserId : N) (net : Network) : M bool :=
  session <- getSession telegramUserId ;;
  match session with
  | None => ret false
  | Some s => ret (bool_decide (is_Some (encryptedKeys s !! net)))
  end.

Definition lockSession (telegramUserId : N) : M unit :=
  modify (set_sessions (map_delete telegramUserId)).

Definition lockAllSessions : M unit :=
  modify (set_sessions (λ _, [])).

(** ** [services/security.ts] *)

(** [{ success: boolean; error?: string; lockoutMinutes?: number }]. *)
Record Outcome := {
  success : bool;
  failure : option string;
  lockoutMinutes : option Z;
}.

Definition succeeded : Outcome :=
  {| success := true; failure := None; lockoutMinutes := None |}.
Definition failed_with (msg : string) : Outcome :=
  {| success := false; failure := Some msg; lockoutMinutes := None |}.

Definition hashPassword (password : string) (telegramUserId : N) : M string :=
  salt <- randomBytes (N.to_nat SALT_LENGTH) ;;
  ret (hashPassword_with salt password telegramUserId).

Definition encryptWithPassword (plaintext password : string) (telegramUserId : N)
    : M string :=
  salt <- randomBytes (N.to_nat SALT_LENGTH) ;;
  iv <- randomBytes (N.to_nat IV_LENGTH) ;;
  lift (encryptWithPassword_with salt iv plaintext password telegramUserId).

(** Decrypt a private key (handles both legacy and new format). *)
Definition decryptPrivateKey (telegramUserId : N) (net : Network) (password : string)
    : M (option string) :=
  wallet <- getWallet telegramUserId net ;;
  match wallet with
  | None => ret None
  | Some wl =>
      version <- getWalletEncryptionVersion telegramUserId net ;;
      if bool_decide (version = 1%N) && isLegacyFormat (encrypted_private_key wl) then
        key <- gets walletEncryptionKey ;;
        lift (decryptLegacy (encrypted_private_key wl) key)
      else
        lift (decryptWithPassword (encrypted_private_key wl) password telegramUserId)
  end.

Definition unlock (telegramUserId : N) (password : string) : M Outcome :=
  lockout <- isLockedOut telegramUserId ;;
  if locked lockout then
    ret {| success := false;
           failure := Some ("Too many failed attempts. Try again in "
                            +:+ pretty (unlockIn lockout) +:+ " minutes.");
           lockoutMinutes := Some (unlockIn lockout) |}
  else
    security <- getUserSecurity telegramUserId ;;
    match security with
    | None => ret (failed_with "Please set up a password first with /security")
    | Some sec =>
        valid <- lift (verifyPassword password telegramUserId (password_hash sec)) ;;
        if negb valid then
          recordLoginAttempt telegramUserId false ;;
          failedCount <- getFailedAttemptCount telegramUserId 15 ;;
          let remaining := 5 - failedCount in
          ret (failed_with
                 (if bool_decide (0 < remaining)
                  then "Incorrect password. " +:+ pretty remaining
                       +:+ " attempts remaining."
                  else "Account locked for 15 minutes due to too many failed attempts."))
        else
          recordLoginAttempt telegramUserId true ;;
          _ <- createSession telegramUserId SESSION_TIMEOUT_MS ;;
          userWallets <- getAllWallets telegramUserId ;;
          for_of userWallets (λ wallet,
            privateKey <- decryptPrivateKey telegramUserId wallet.1 password ;;
            if truthy privateKey then
              _ <- storeKeyInSession telegramUserId wallet.1 (default EmptyString privateKey) ;;
              ret tt
            else ret tt) ;;
          logSecurityEvent telegramUserId "unlock" None ;;
          ret succeeded
    end.

Definition lock (telegramUserId : N) : M unit :=
  lockSession telegramUserId ;;
  logSecurityEvent telegramUserId "lock" None.

Definition isUnlocked (telegramUserId : N) : M bool :=
  session <- getSession telegramUserId ;;
  ret (bool_decide (is_Some session)).

Definition getPrivateKey (telegramUserId : N) (net : Network) : M (option string) :=
  getKeyFromSession telegramUserId net.

Definition changePassword (telegramUserId : N) (currentPassword newPassword : string)
    : M Outcome :=
  security <- getUserSecurity telegramUserId ;;
  match security with
  | None => ret (failed_with "No security setup found")
  | Some sec =>
      valid <- lift (verifyPassword currentPassword telegramUserId (password_hash sec)) ;;
      if negb valid then
        recordLoginAttempt telegramUserId false ;;
        ret (failed_with "Current password is incorrect")
      else if bool_decide (js_length newPassword < 6)%nat then
        ret (failed_with "New password must be at least 6 characters")
      else
        userWallets <- getAllWallets telegramUserId ;;
        for_of userWallets (λ wallet,
          privateKey <- decryptPrivateKey telegramUserId wallet.1 currentPassword ;;
          if truthy privateKey then
            newEncrypted <- encryptWithPassword (default EmptyString privateKey)
                              newPassword telegramUserId ;;
            saveWallet telegramUserId wallet.1 (wallet_address wallet.2) newEncrypted ;;
            setWalletEncryptionVersion telegramUserId wallet.1 2
          else ret tt) ;;
        newHash <- hashPassword newPassword telegramUserId ;;
        updateUserSecurity_passwordHash telegramUserId newHash ;;
        logSecurityEvent telegramUserId "password_changed" None ;;
        lockSession telegramUserId ;;
        ret succeeded
  end.

Definition verifyPasswordForAction (telegramUserId : N) (password : string) : M bool :=
  security <- getUserSecurity telegramUserId ;;
  match security with
  | None => ret false
  | Some sec =>
      valid <- lift (verifyPassword password telegramUserId (password_hash sec)) ;;
      recordLoginAttempt telegramUserId valid ;;
      ret valid
  end.

Definition network_name (net : Network) : string :=
  match net with solana => "solana" | base => "base" end.

Definition migrateWallet (telegramUserId : N) (net : Network) (newPassword : string)
    : M Outcome :=
  wallet <- getWallet telegramUserId net ;;
  match wallet with
  | None => ret (failed_with "Wallet not found")
  | Some wl =>
      version <- getWalletEncryptionVersion telegramUserId net ;;
      if bool_decide (2 ≤ version)%N then
        ret (failed_with "Wallet already using new encryption")
      else
        key <- gets walletEncryptionKey ;;
        privateKey <- lift (decryptLegacy (encrypted_private_key wl) key) ;;
        if negb (truthy privateKey) then
          ret (failed_with "Failed to decrypt wallet")
        else
          newEncrypted <- encryptWithPassword (default EmptyString privateKey)
                            newPassword telegramUserId ;;
          saveWallet telegramUserId net (wallet_address wl) newEncrypted ;;
          setWalletEncryptionVersion telegramUserId net 2 ;;
          logSecurityEvent telegramUserId "wallet_migrated" (Some (network_name net)) ;;
          ret succeeded
  end.

End Custody.

(** ** [services/trigger-orders-db.ts] *)

(** The columns an [UPDATE] of [trigger_orders] may set. *)
Definition update_order (o : TriggerOrder) (st : OrderStatus)
    (trigAt execAt : option Z) (tx : option string) (px : option float)
    (err : option string) : TriggerOrder :=
  {| id := id o; telegramUserId := telegramUserId o; chatId := chatId o;
     network := network o; tokenAddress := tokenAddress o;
     tokenSymbol := tokenSymbol o; side := side o; triggerType := triggerType o;
     triggerCondition := triggerCondition o; triggerValue := triggerValue o;
     amount := amount o; amountType := amountType o; slippageBps := slippageBps o;
     status := st; priceAtCreation := priceAtCreation o; createdAt := createdAt o;
     triggeredAt := trigAt; executedAt := execAt; txHash := tx;
     executionPrice := px; error := err |}.

(** [UPDATE trigger_orders SET ... WHERE cond]: every row that satisfies
    [cond] is rewritten; the result is [changes], the number of such rows. *)
Definition update_where (cond : TriggerOrder → bool)
    (f : TriggerOrder → TriggerOrder) : M Z :=
  changes <- gets (λ w, Z.of_nat (length (filter (λ o, cond o = true) (trigger_orders w)))) ;;
  modify (set_trigger_orders (map (λ o, if cond o then f o else o))) ;;
  ret changes.


(** [SELECT * FROM trigger_orders WHERE status = 'active' ORDER BY created_at ASC];
    the rows of the table are kept in the order of their creation. *)
Definition getActiveTriggerOrders : M (list TriggerOrder) :=
  gets (λ w, filter (λ o, status o = active) (trigger_orders w)).

(** Mark order as triggered (condition met, about to execute):
    [UPDATE trigger_orders SET status = 'triggered', triggered_at = CURRENT_TIMESTAMP
     WHERE id = ?]. *)
Definition markOrderTriggered (orderId : N) : M unit :=
  now <- dateNow ;;
  _ <- update_where (λ o, bool_decide (id o = orderId))
         (λ o, update_order o triggered (Some now) (executedAt o) (txHash o)
                 (executionPrice o) (error o)) ;;
  ret tt.

(** [UPDATE trigger_orders SET status = 'executed', executed_at = CURRENT_TIMESTAMP,
     tx_hash = ?, execution_price = ? WHERE id = ?]. *)
Definition markOrderExecuted (orderId : N) (tx : string) (px : float) : M unit :=
  now <- dateNow ;;
  _ <- update_where (λ o, bool_decide (id o = orderId))
         (λ o, update_order o executed (triggeredAt o) (Some now) (Some tx)
                 (Some px) (error o)) ;;
  ret tt.

(** [UPDATE trigger_orders SET status = 'failed', error = ? WHERE id = ?]. *)
Definition markOrderFailed (orderId : N) (err : string) : M unit :=
  _ <- update_where (λ o, bool_decide (id o = orderId))
         (λ o, update_order o failed (triggeredAt o) (executedAt o) (txHash o)
                 (executionPrice o) (Some err)) ;;
  ret tt.

(** [UPDATE trigger_orders SET status = 'cancelled'
     WHERE id = ? AND telegram_user_id = ? AND status = 'active'];
    the result is [result.changes > 0]. *)
Definition cancelOrder (orderId userId : N) : M bool :=
  changes <- update_where
    (λ o, bool_decide (id o = orderId) && bool_decide (telegramUserId o = userId)
          && bool_decide (status o = active))
    (λ o, update_order o cancelled (triggeredAt o) (executedAt o) (txHash o)
            (executionPrice o) (error o)) ;;
  ret (bool_decide (0 < changes)).

(** [UPDATE trigger_orders SET status = 'cancelled'
     WHERE telegram_user_id = ? AND status = 'active']. *)
Definition cancelAllUserOrders (userId : N) : M Z :=
  update_where
    (λ o, bool_decide (telegramUserId o = userId) && bool_decide (status o = active))
    (λ o, update_order o cancelled (triggeredAt o) (executedAt o) (txHash o)
            (executionPrice o) (error o)).

(** ** [services/trigger-orders.ts]: the scheduler *)

Definition checkTriggerCondition (currentValue targetValue : float)
    (condition : TriggerCondition) : bool :=
  match condition with
  | above => (targetValue <=? currentValue)%float
  | below => (currentValue <=? targetValue)%float
  end.

(** An entry of [priceMap]. *)
Record PriceData := { priceUsd : float; marketCapUsd : float }.

Definition lower_char (c : ascii) : ascii :=
  let n := nat_of_ascii c in
  if bool_decide (65 ≤ n ≤ 90)%nat then ascii_of_nat (n + 32) else c.

Fixpoint toLowerCase (s : string) : string :=
  match s with
  | EmptyString => EmptyString
  | String c r => String (lower_char c) (toLowerCase r)
  end.

(** The key [`${network}:${tokenAddress.toLowerCase()}`]. *)
Definition price_key (net : Network) (tokenAddress : string) : string :=
  network_name net +:+ ":" +:+ toLowerCase tokenAddress.

(** One turn of the loop over [activeOrders] in [checkPricesAndExecute], up
    to the call of [executeOrder]: the price to execute at, when the order
    is matched. *)
Definition matched (priceMap : gmap string PriceData) (order : TriggerOrder)
    : option float :=
  match priceMap !! price_key (network order) (tokenAddress order) with
  | None => None
  | Some priceData =>
      let currentValue :=
        match triggerType order with
        | price => priceUsd priceData
        | marketcap => marketCapUsd priceData
        end in
      if (currentValue =? 0)%float then None
      else if checkTriggerCondition currentValue (triggerValue order)
                (triggerCondition order)
      then Some (priceUsd priceData)
      else None
  end.

(** What a call of the swap collaborator gives back:
    [{ success, signature?, hash?, error? }]. *)
Record SwapResult := {
  swap_success : bool;
  signature : option string;
  hash : option string;
  swap_error : option string;
}.

(** [a || b] on strings that may be [undefined]. *)
Definition or_else (a : option string) (b : string) : string :=
  if truthy a then default EmptyString a else b.

Section Scheduler.
Context `{NodeCrypto}.

(** The collaborators of the scheduler: whether a stored secret decodes to
    a key pair ([Keypair.fromSecretKey], [privateKeyToAccount]), and the
    swap, which returns its result or throws. *)
Variable decodesKey : Network → string → bool.
Variable swap : TriggerOrder → result SwapResult.

(** [getSolanaKeypair] and [getBaseAccount], as a test of their result
    against [null]. *)
Definition hasKeypair (telegramUserId : N) (net : Network) : M bool :=
  privateKey <- getPrivateKey telegramUserId net ;;
  if negb (truthy privateKey) then ret false
  else ret (decodesKey net (default EmptyString privateKey)).

Definition notifyOrderExecuted (order : TriggerOrder) (tx : string) : M unit :=
  modify (set_notifications (λ l, l ++ [NotifyExecuted (chatId order) (id order) tx])).

Definition notifyOrderFailed (order : TriggerOrder) (err : string) : M unit :=
  modify (set_notifications (λ l, l ++ [NotifyFailed (chatId order) (id order) err])).

(** [executeOrder(order, currentPrice)]; [order] is the copy of the row
    that [getActiveTriggerOrders] returned. *)
Definition executeOrder (order : TriggerOrder) (currentPrice : float) : M unit :=
  markOrderTriggered (id order) ;;
  try_catch_in
    (keypair <- hasKeypair (telegramUserId order) (network order) ;;
     if negb keypair then throw "Wallet locked - please unlock with /unlock"
     else
       result <- lift (swap order) ;;
       if swap_success result then
         let tx := or_else (signature result) (or_else (hash result) EmptyString) in
         markOrderExecuted (id order) tx currentPrice ;;
         notifyOrderExecuted order tx
       else throw (or_else (swap_error result) "Transaction failed"))
    (λ msg,
       let errorMsg := or_else (Some msg) "Unknown error" in
       markOrderFailed (id order) errorMsg ;;
       notifyOrderFailed order errorMsg).

(** The second half of [checkPricesAndExecute], once the prices of the
    cycle are in [priceMap]. *)
Definition checkPricesAndExecute (priceMap : gmap string PriceData) : M unit :=
  activeOrders <- getActiveTriggerOrders ;;
  for_of activeOrders (λ order,
    match matched priceMap order with
    | Some currentPrice => executeOrder order currentPrice
    | None => ret tt
    end).

End Scheduler.

(** * More of the code

    The functions of the same files that the definitions above leave out,
    and some of their callers. *)

(** ** The rest of [utils/encryption.ts] *)

(** The alphabet of [generateSecurePassword]. *)
Definition chars : string := "abcdefghjkmnpqrstuvwxyz23456789".

(** [word += s[k]]: the character of [s] at the index [k]; out of range
    the index gives [undefined], which is appended as its text. *)
Definition char_at (s : string) (k : nat) : string :=
  match String.get k s with
  | Some c => String c EmptyString
  | None => "undefined"
  end.

(** [generateSecurePassword] once the sixteen calls of
    [crypto.randomInt(chars.length)] have given [randomInt 0], ...,
    [randomInt 15], in the order of the calls. *)
Definition password_word (randomInt : nat → nat) (i : nat) : string :=
  fold_left (λ word j, word +:+ char_at chars (randomInt (4 * i + j)%nat))
    (seq 0 4) EmptyString.

Definition generateSecurePassword_with (randomInt : nat → nat) : string :=
  fold_left
    (λ password i,
       password +:+ ((if bool_decide (0 < i)%nat then "-" else EmptyString)
                     +:+ password_word randomInt i))
    (seq 0 4) EmptyString.

Section ServerKey.
Context `{NodeCrypto}.

(** [encrypt] of the server-key module, under [config.walletEncryptionKey]. *)
Definition encrypt (text : string) : M string :=
  key <- gets walletEncryptionKey ;;
  iv <- randomBytes (N.to_nat IV_LENGTH) ;;
  lift (encrypt_with iv key text).

End ServerKey.

(** ** The rest of [services/security-database.ts] *)

Definition hasUserSecurity (telegramUserId : N) : M bool :=
  gets (λ w, bool_decide (is_Some (user_security w !! telegramUserId))).

(** [INSERT INTO user_security (telegram_user_id, password_hash)]: the
    primary key refuses a second row of the user, and the statement throws. *)
Definition createUserSecurity (telegramUserId : N) (passwordHash : string) : M unit :=
  existing <- gets (λ w, user_security w !! telegramUserId) ;;
  match existing with
  | Some _ => throw "UNIQUE constraint failed: user_security.telegram_user_id"
  | None =>
      modify (set_user_security
        <[telegramUserId := {| password_hash := passwordHash;
                               last_password_change := None |}]>)
  end.

(** ** The rest of [services/session-manager.ts] and of [services/security.ts] *)

(** A loop [for (const x of l)] that pushes to arrays of its own: [acc]
    is what the arrays hold. *)
Fixpoint for_of_with {A S} (l : list A) (acc : S) (body : A → S → M S) : M S :=
  match l with
  | [] => ret acc
  | x :: r => acc' <- body x acc ;; for_of_with r acc' body
  end.

(** [{ success: boolean; migrated: Network[]; failed: Network[] }]. *)
Record MigrationReport := {
  migration_success : bool;
  migrated : list Network;
  migration_failed : list Network;
}.

Section CustodyService.
Context `{NodeCrypto}.

(** [Math.max(0, Math.floor((session.expiresAt - Date.now()) / 60000))]. *)
Definition getSessionTimeRemaining (telegramUserId : N) : M Z :=
  session <- getSession telegramUserId ;;
  match session with
  | None => ret 0
  | Some s =>
      now <- dateNow ;;
      ret (Z.max 0 ((expiresAt s - now) / 60000))
  end.

Definition setupPassword (telegramUserId : N) (password : string) : M Outcome :=
  has <- hasUserSecurity telegramUserId ;;
  if has then ret (failed_with "Password already set up")
  else if bool_decide (js_length password < 6)%nat then
    ret (failed_with "Password must be at least 6 characters")
  else
    hash <- hashPassword password telegramUserId ;;
    createUserSecurity telegramUserId hash ;;
    logSecurityEvent telegramUserId "password_created" None ;;
    ret succeeded.

(** Create and encrypt a new wallet (requires valid password). *)
Definition createEncryptedWallet (telegramUserId : N) (net : Network)
    (address privateKey password : string) : M Outcome :=
  security <- getUserSecurity telegramUserId ;;
  match security with
  | None => ret (failed_with "Please set up security first with /security")
  | Some sec =>
      valid <- lift (verifyPassword password telegramUserId (password_hash sec)) ;;
      if negb valid then ret (failed_with "Incorrect password")
      else
        encrypted <- encryptWithPassword privateKey password telegramUserId ;;
        saveWallet telegramUserId net address encrypted ;;
        setWalletEncryptionVersion telegramUserId net 2 ;;
        logSecurityEvent telegramUserId "wallet_created" (Some (network_name net)) ;;
        unlocked <- isUnlocked telegramUserId ;;
        (if unlocked then
           _ <- storeKeyInSession telegramUserId net privateKey ;;
           ret tt
         else ret tt) ;;
        ret succeeded
  end.

Definition migrateAllWallets (telegramUserId : N) (newPassword : string)
    : M MigrationReport :=
  userWallets <- getAllWallets telegramUserId ;;
  lists <- for_of_with userWallets ([], []) (λ wallet lists,
    result <- migrateWallet telegramUserId wallet.1 newPassword ;;
    if success result then ret (lists.1 ++ [wallet.1], lists.2)
    else ret (lists.1, lists.2 ++ [wallet.1])) ;;
  ret {| migration_success := bool_decide (length lists.2 = 0%nat);
         migrated := lists.1; migration_failed := lists.2 |}.

End CustodyService.

(** ** The rest of [services/trigger-orders-db.ts] *)

(** [interface CreateTriggerOrderParams]; [slippageBps] is optional. *)
Module CreateTriggerOrderParams.
Record t := {
  telegramUserId : N;
  chatId : Z;
  network : Network;
  tokenAddress : string;
  tokenSymbol : string;
  side : OrderSide;
  triggerType : TriggerType;
  triggerCondition : TriggerCondition;
  triggerValue : float;
  amount : string;
  amountType : AmountType;
  slippageBps : option Z;
  currentPrice : float;
}.
End CreateTriggerOrderParams.





(** [ORDER BY created_at DESC]: [a] comes before [b] when it is not older. *)
Definition not_older (a b : TriggerOrder) : Prop := createdAt b ≤ createdAt a.

#[global] Instance not_older_dec : RelDecision not_older.
Proof. intros a b. unfold not_older. apply _. Defined.

Definition newest_first (rows : list TriggerOrder) : list TriggerOrder :=
  merge_sort not_older rows.

(** [SELECT * FROM trigger_orders WHERE telegram_user_id = ? AND status = 'active'
     ORDER BY created_at DESC]. *)
Definition getUserActiveOrders (userId : N) : M (list TriggerOrder) :=
  gets (λ w, newest_first
    (filter (λ o, telegramUserId o = userId ∧ status o = active) (trigger_orders w))).

(** [SELECT * FROM trigger_orders WHERE telegram_user_id = ?
     ORDER BY created_at DESC LIMIT ?]; a negative [LIMIT] is no limit. *)
Definition getUserOrderHistory (userId : N) (limit : Z) : M (list TriggerOrder) :=
  gets (λ w,
    let rows := newest_first (filter (λ o, telegramUserId o = userId) (trigger_orders w)) in
    if bool_decide (limit < 0) then rows else take (Z.to_nat limit) rows).

(** [SELECT DISTINCT network, token_address FROM trigger_orders
     WHERE status = 'active']. *)
Definition getTokensWithActiveOrders : M (list (Network * string)) :=
  gets (λ w, remove_dups
    (map (λ o, (network o, tokenAddress o))
       (filter (λ o, status o = active) (trigger_orders w)))).

(** ** The rest of [services/trigger-orders.ts] *)

Definition backslash : ascii := "092"%char.

(** The class of the pattern in [escapeMarkdown]. *)
Definition markdown_special : string := "_*[]()~`>#+-=|{}.!".

(** [text.replace(/([_*\[\]()~`>#+\-=|{}.!])/g, '\\$1')]. *)
Fixpoint escapeMarkdown (text : string) : string :=
  match text with
  | EmptyString => EmptyString
  | String c r =>
      if has_char c markdown_special
      then String backslash (String c (escapeMarkdown r))
      else String c (escapeMarkdown r)
  end.

(** * The vocabulary of the statements *)

(** ** Randomness and key derivation *)

(** The bytes that the next call of [randomBytes(n)] returns. *)
Definition drawn (w : World) (n : N) : Buffer :=
  map (entropy w) (seq (entropy_pos w) (N.to_nat n)).

(** The passwords [p] and [p'] of one user do not collide under [salt]. *)
Definition kdf_separates `{NodeCrypto} (salt : Buffer) (u : N) (p p' : string) : Prop :=
  deriveKeyFromPassword p' u salt ≠ deriveKeyFromPassword p u salt.

(** What is taken of PBKDF2, a primitive of Node: under [salt], with the
    iterations and the key length of the repository, [pbkdf2Sync] has no
    collision among the inputs of [dom].  It says nothing of how the
    repository makes the input from a password. *)
Definition pbkdf2_collision_free `{NodeCrypto} (salt : Buffer) (dom : Buffer → Prop) : Prop :=
  ∀ m m', dom m → dom m' → m ≠ m' →
    pbkdf2Sync m salt PBKDF2_ITERATIONS KEY_LENGTH
    ≠ pbkdf2Sync m' salt PBKDF2_ITERATIONS KEY_LENGTH.

(** ** Decryption *)

(** What one of the three catching decrypt functions gives on [txt], in
    terms of the fields it expects and of the primitive [prim] it calls on
    them: it never throws; without the expected fields, or when the
    primitive throws, it returns [null]; and what it returns otherwise is
    the whole output of the primitive. *)
Definition fails_closed (n : nat) (prim : list string → option Buffer)
    (txt : string) (r : result (option string)) : Prop :=
  (∃ v, r = Returns v) ∧
  (length (split colon txt) ≠ n → r = Returns None) ∧
  (prim (split colon txt) = None → r = Returns None) ∧
  (∀ s, r = Returns (Some s) →
        length (split colon txt) = n ∧
        ∃ d, prim (split colon txt) = Some d ∧ s = string_of_list_byte d).

Definition gcm_on_fields `{NodeCrypto} (p : string) (u : N) (fields : list string) : option Buffer :=
  match fields with
  | [p0; p1; p2; p3] =>
      gcm_decrypt (deriveKeyFromPassword p u (from_hex p0)) (from_hex p1)
        (from_hex p2) (from_hex p3)
  | _ => None
  end.

Definition session_on_fields `{NodeCrypto} (key : Buffer) (fields : list string) : option Buffer :=
  match fields with
  | [p0; p1; p2] => gcm_decrypt key (from_hex p0) (from_hex p1) (from_hex p2)
  | _ => None
  end.

Definition cbc_on_fields `{NodeCrypto} (serverKey : string) (fields : list string) : option Buffer :=
  match fields with
  | [p0; p1] => cbc_decrypt (from_hex serverKey) (from_hex p0) (from_hex p1)
  | _ => None
  end.

(** ** Numbers *)

(** [a <= b] in the order of IEEE 754 binary64, through the specification
    of the format: the comparison gives "less" or "equal" (and so it is
    false when either side is [NaN]). *)
Definition value_le (a b : float) : Prop :=
  SFcompare (Prim2SF a) (Prim2SF b) = Some Lt ∨
  SFcompare (Prim2SF a) (Prim2SF b) = Some Eq.

(** ** Login attempts *)

(** A failed attempt of the user [u] after [since]. *)
Definition failed_since (u : N) (since : Z) (a : LoginAttempt) : Prop :=
  attempt_user a = u ∧ since < attempt_time a ∧ attempt_success a = false.

(** ** Sessions *)

(** What the session manager keeps true of a session: its key has the
    length of an AES-256 key, and every entry of [encryptedKeys] was made
    by [sessionCrypto.encrypt], under that key. *)
Definition session_ok `{NodeCrypto} (s : Session) : Prop :=
  length (sessionKey s) = 32%nat ∧
  ∀ net e, encryptedKeys s !! net = Some e →
    ∃ iv data, length iv = 16%nat ∧
               session_encrypt_with (sessionKey s) iv data = Returns e.

Definition sessions_ok `{NodeCrypto} (w : World) : Prop :=
  ∀ e, e ∈ sessions w → session_ok e.2.

(** [m] keeps the sessions well formed. *)
Definition keeps_sessions `{NodeCrypto} {A} (m : M A) : Prop :=
  ∀ w, sessions_ok w → sessions_ok (m w).2.

(** The tables and the clock, which the session manager leaves alone. *)
Definition same_tables (w w' : World) : Prop :=
  wallets w' = wallets w ∧ walletEncryptionKey w' = walletEncryptionKey w ∧
  clock w' = clock w ∧ user_security w' = user_security w ∧
  login_attempts w' = login_attempts w ∧ trigger_orders w' = trigger_orders w.

(** The body of the loop of [unlock] over the user's wallets. *)
Definition cache_wallet `{NodeCrypto} (u : N) (p : string)
    (wallet : Network * WalletRow) : M unit :=
  privateKey <- decryptPrivateKey u wallet.1 p ;;
  if truthy privateKey then
    _ <- storeKeyInSession u wallet.1 (default EmptyString privateKey) ;;
    ret tt
  else ret tt.

Definition with_keys (s : Session) (keys : gmap Network string) : Session :=
  {| session_user := session_user s; unlockedAt := unlockedAt s;
     expiresAt := expiresAt s; encryptedKeys := keys; sessionKey := sessionKey s |}.

(** The entry of [net] holds the secret of the wallet, when the wallet
    decrypts to one. *)
Definition cached `{NodeCrypto} (u : N) (p : string) (w0 : World)
    (key : Buffer) (keys : gmap Network string) (net : Network) : Prop :=
  ∀ secret, (decryptPrivateKey u net p w0).1 = Returns (Some secret) →
            secret ≠ EmptyString →
            ∃ iv e, keys !! net = Some e ∧
                    session_encrypt_with key iv secret = Returns e.

(** The state of the loop that started in [w0]: the session [s] of the user
    is live, and the tables are as they were. *)
Definition loop_state `{NodeCrypto} (u : N) (w0 w : World) (s : Session) : Prop :=
  sessions_ok w ∧ same_tables w0 w ∧ map_get u (sessions w) = Some s ∧
  ¬ expiresAt s < clock w0.

(** ** Wallets under a change of password *)

(** The body of the loop of [changePassword] over the user's wallets. *)
Definition rekey_wallet `{NodeCrypto} (u : N) (cur new : string)
    (wallet : Network * WalletRow) : M unit :=
  privateKey <- decryptPrivateKey u wallet.1 cur ;;
  if truthy privateKey then
    newEncrypted <- encryptWithPassword (default EmptyString privateKey) new u ;;
    saveWallet u wallet.1 (wallet_address wallet.2) newEncrypted ;;
    setWalletEncryptionVersion u wallet.1 2
  else ret tt.

(** What the loop leaves alone. *)
Definition same_custody (w w' : World) : Prop :=
  walletEncryptionKey w' = walletEncryptionKey w ∧ clock w' = clock w ∧
  user_security w' = user_security w ∧ sessions w' = sessions w ∧
  login_attempts w' = login_attempts w ∧ security_log w' = security_log w.

(** What has become of the wallet row [wl] of the network [net]: it is
    untouched when the wallet did not decrypt to a secret under the current
    password, and otherwise it holds the secret under the new password, at
    version 2. *)
Definition rekeyed `{NodeCrypto} (u : N) (cur new : string)
    (w w' : World) (net : Network) (wl : WalletRow) : Prop :=
  (∀ v, (decryptPrivateKey u net cur w).1 = Returns v → truthy v = false →
        wallets w' !! (u, net) = Some wl) ∧
  (∀ secret, (decryptPrivateKey u net cur w).1 = Returns (Some secret) →
             secret ≠ EmptyString →
             ∃ blob,
               wallets w' !! (u, net)
               = Some {| wallet_id := wallet_id wl; wallet_address := wallet_address wl;
                         encrypted_private_key := blob; encryption_version := 2 |} ∧
               decryptWithPassword blob new u = Returns (Some secret)).

(** ** A model of the interface

    A small instance of [NodeCrypto] that satisfies the laws: it shows that
    they are consistent, and the definitions can be run on it. *)

Definition model_pad (n : nat) (l : Buffer) : Buffer :=
  take n (l ++ repeat Byte.x00 n).

#[local] Instance model_crypto : NodeCrypto := {|
  pbkdf2Sync pw salt _ len := model_pad (N.to_nat len) (pw ++ salt);
  gcm_encrypt key iv pt := Some (rev pt, key ++ iv);
  gcm_decrypt key iv tag ct :=
    if bool_decide (tag = key ++ iv) then Some (rev ct) else None;
  cbc_encrypt key iv pt := Some (rev pt ++ key);
  cbc_decrypt key iv ct :=
    if bool_decide (drop (length ct - length key) ct = key)
    then Some (rev (take (length ct - length key) ct)) else None;
|}.

(** ** Worlds to run the definitions in *)

(** A world to run the definitions in: no rows, no session, and an entropy
    tape that counts. *)
Definition world0 : World :=
  {| clock := 1700000000000;
     entropy := λ i, default Byte.x00 (Byte.of_nat (i mod 256));
     entropy_pos := 0;
     walletEncryptionKey :=
       "000102030405060708090a0b0c0d0e0f101112131415161718191a1b1c1d1e1f";
     user_security := ∅; wallets := ∅; next_wallet_id := 1;
     login_attempts := []; security_log := []; sessions := [];
     trigger_orders := []; notifications := [] |}.

(** An order to run the transitions on: a sell of 50 percent when the
    market cap is above 5,000,000. *)
Definition order7 : TriggerOrder :=
  {| id := 7; telegramUserId := 42; chatId := 42; network := solana;
     tokenAddress := "So11111111111111111111111111111111111111112";
     tokenSymbol := "WSOL"; side := sell; triggerType := marketcap;
     triggerCondition := above; triggerValue := 5000000;
     amount := "50"; amountType := percentage; slippageBps := 100;
     status := active; priceAtCreation := 1.5; createdAt := 1700000000000;
     triggeredAt := None; executedAt := None; txHash := None;
     executionPrice := None; error := None |}.

Definition world_order7 : World := set_trigger_orders (λ _, [order7]) world0.

(** A swap that goes through. *)
Definition swap_done : SwapResult :=
  {| swap_success := true;
     signature := Some "5VERv8NMvzbJMEkV8xnrLkEaWRtSz9CosKDYjCJjBRnbJLgp8uirBgmQpjKhoR4tjF3ZpRzrFmBV6UjKdiSZkQUW";
     hash := None; swap_error := None |}.

(** The row of the user 42, whose password is ["abcdef"]. *)
Definition user42 : UserSecurityRow :=
  {| password_hash := hashPassword_with (drawn world0 SALT_LENGTH) "abcdef" 42;
     last_password_change := None |}.

(** The user 42 with five failed attempts, at minutes 0, 1, 2, 3 and 14 of
    the clock of [world0]. *)
Definition failed_attempt (minute : Z) : LoginAttempt :=
  {| attempt_user := 42; attempt_time := clock world0 + minute * 60000;
     attempt_success := false |}.

Definition world_lockout : World :=
  set_login_attempts
    (λ _, [failed_attempt 0; failed_attempt 1; failed_attempt 2;
           failed_attempt 3; failed_attempt 14])
    (set_user_security (λ _, {[ 42%N := user42 ]}) world0).

(** The user 42 with a Solana wallet that the
    server-key [encrypt] made. *)
Definition legacy_secret : string := "5Kb8kLf9zgWQnogidDA76MzPL6TsZZY36hWXMssSzNyd".

Definition legacy_blob : string :=
  match encrypt_with (drawn world0 IV_LENGTH) (walletEncryptionKey world0)
          legacy_secret with
  | Returns blob => blob
  | Throws _ => EmptyString
  end.

Definition legacy_row : WalletRow :=
  {| wallet_id := 1; wallet_address := "7xKXtg2CW87d97TXJSDpbD5jBkheTqA83TZRuJosgAsU";
     encrypted_private_key := legacy_blob; encryption_version := 1 |}.

Definition world_legacy : World :=
  set_wallets (λ _, {[ (42%N, solana) := legacy_row ]}) N.succ
    (set_user_security (λ _, {[ 42%N := user42 ]}) world0).

(** The world after the user 42 has unlocked: the session holds the key of
    the Solana wallet, which [unlock] decrypts with the server key, and the
    user has no Base wallet. *)
Definition world_unlocked : World := (unlock 42 "abcdef" world_legacy).2.

Definition world_order7_unlocked : World :=
  set_trigger_orders (λ _, [order7]) world_unlocked.

(** The user 42 with a Solana wallet under the password ["abcdef"] and a
    Base wallet under another password, which the current password does not
    decrypt. *)
Definition blob_under (secret password : string) : string :=
  match encryptWithPassword_with (drawn world0 SALT_LENGTH) (drawn world0 IV_LENGTH)
          secret password 42 with
  | Returns blob => blob
  | Throws _ => EmptyString
  end.

Definition base_secret : string :=
  "0x4c0883a69102937d6231471b5dbb6204fe5129617082792ae468d01a3f362318".

Definition solana_row : WalletRow :=
  {| wallet_id := 1; wallet_address := "7xKXtg2CW87d97TXJSDpbD5jBkheTqA83TZRuJosgAsU";
     encrypted_private_key := blob_under legacy_secret "abcdef";
     encryption_version := 2 |}.

Definition base_row : WalletRow :=
  {| wallet_id := 2; wallet_address := "0x2c7536E3605D9C16a7a3D7b1898e529396a65c23";
     encrypted_private_key := blob_under base_secret "zzzzzz";
     encryption_version := 2 |}.

Definition world_two_wallets : World :=
  set_wallets (λ _, {[ (42%N, solana) := solana_row; (42%N, base) := base_row ]})
    (λ _, 3%N)
    (set_user_security (λ _, {[ 42%N := user42 ]}) world0).

(** ** Vocabulary for the rest of the code *)

(** ** Failed attempts *)

(** The number that [getFailedAttemptCount(u, 15)] returns: the failures of
    the user in the trailing 15 minutes, on which the lockout rests. *)
Definition recent_failures (u : N) (w : World) : Z :=
  Z.of_nat (length (filter (failed_since u (clock w - 15 * 60 * 1000))
                      (login_attempts w))).

(** ** The session store *)

(** What a JavaScript [Map] of at most [MAX_SESSIONS] entries is: one
    session for a user, and no more entries than the bound. *)
Definition store_ok (w : World) : Prop :=
  NoDup (sessions w).*1 ∧ Z.of_nat (length (sessions w)) ≤ MAX_SESSIONS.

(** [m] keeps the store such a map. *)
Definition keeps_store {A} (m : M A) : Prop :=
  ∀ w, store_ok w → store_ok (m w).2.

(** ** Orders *)

(** What [cancelAllUserOrders] does to a row. *)
Definition cancel_row (userId : N) (o : TriggerOrder) : TriggerOrder :=
  if bool_decide (telegramUserId o = userId) && bool_decide (status o = active)
  then update_order o cancelled (triggeredAt o) (executedAt o) (txHash o)
         (executionPrice o) (error o)
  else o.
(** The row of an order after [executeOrder] has run for it, when the
    order came to [st] with the transaction [tx], at the price [px] and
    with the error [err]. *)
Definition settled (now : Z) (st : OrderStatus) (tx : option string)
    (px : option float) (err : option string) (r : TriggerOrder) : TriggerOrder :=
  update_order r st (Some now)
    (match st with executed => Some now | _ => executedAt r end)
    (match st with executed => tx | _ => txHash r end)
    (match st with executed => px | _ => executionPrice r end)
    (match st with executed => error r | _ => err end).

(** Whether the prices of the cycle match an order of [l] that has the id
    of the row [r]. *)
Definition hit (priceMap : gmap string PriceData) (l : list TriggerOrder)
    (r : TriggerOrder) : bool :=
  existsb (λ o, bool_decide (is_Some (matched priceMap o))
                && bool_decide (id o = id r)) l.
(** ** More worlds to run the definitions in *)

(** The user 42 at minute 4, with four failed attempts at minutes 0, 1, 2
    and 3. *)
Definition world_four_failures : World :=
  set_clock (clock world0 + 4 * 60000)
    (set_login_attempts
       (λ _, [failed_attempt 0; failed_attempt 1; failed_attempt 2; failed_attempt 3])
       (set_user_security (λ _, {[ 42%N := user42 ]}) world0)).

(** The user 42 at minute 14.5, locked out by the five failures of
    [world_lockout]. *)
Definition world_locked_out : World := set_clock (clock world0 + 870000) world_lockout.
(** What has become of a wallet that [migrateWallet] migrated from [w] to
    [w']: its row holds, at version 2 and in the current format, the secret
    that the server key decrypted from the old row. *)
Definition migrated_row `{NodeCrypto} (u : N) (newPassword : string)
    (w w' : World) (net : Network) : Prop :=
  ∃ wl secret blob,
    wallets w !! (u, net) = Some wl ∧
    decryptLegacy (encrypted_private_key wl) (walletEncryptionKey w)
    = Returns (Some secret) ∧
    wallets w' !! (u, net)
    = Some {| wallet_id := wallet_id wl; wallet_address := wallet_address wl;
              encrypted_private_key := blob; encryption_version := 2 |} ∧
    isLegacyFormat blob = false ∧
    decryptWithPassword blob newPassword u = Returns (Some secret).


(** * Lemmas and theorems *)

(** ** Lemmas on the encodings *)

Lemma hex_byte_roundtrip (x : Byte.byte) :
  hex_value (hex_digit (Byte.to_N x / 16)) = Some (Byte.to_N x / 16)%N ∧
  hex_value (hex_digit (Byte.to_N x mod 16)) = Some (Byte.to_N x mod 16)%N ∧
  Byte.of_N (16 * (Byte.to_N x / 16) + Byte.to_N x mod 16) = Some x.
Proof. destruct x; vm_compute; auto. Qed.

Lemma from_hex_to_hex (b : Buffer) : from_hex (to_hex b) = b.
Proof.
  induction b as [|x r IH]; [reflexivity|].
  cbn [to_hex from_hex].
  destruct (hex_byte_roundtrip x) as (-> & -> & ->).
  by rewrite IH.
Qed.

Lemma hex_byte_no_colon (x : Byte.byte) :
  Ascii.eqb (hex_digit (Byte.to_N x / 16)) colon = false ∧
  Ascii.eqb (hex_digit (Byte.to_N x mod 16)) colon = false.
Proof. destruct x; vm_compute; auto. Qed.

Lemma to_hex_no_colon (b : Buffer) : has_char colon (to_hex b) = false.
Proof.
  induction b as [|x r IH]; [reflexivity|].
  cbn [to_hex has_char]. destruct (hex_byte_no_colon x) as [-> ->]. by rewrite IH.
Qed.

Lemma split_no_sep sep s : has_char sep s = false → split sep s = [s].
Proof.
  induction s as [|c r IH]; [reflexivity|].
  cbn [has_char split]. intros [Hc Hr]%orb_false_iff.
  by rewrite Hc, (IH Hr).
Qed.

Lemma split_app_sep sep s t :
  has_char sep s = false → split sep (s +:+ String sep t) = s :: split sep t.
Proof.
  induction s as [|c r IH]; simpl.
  - intros _. by rewrite Ascii.eqb_refl.
  - intros [Hc Hr]%orb_false_iff. by rewrite Hc, (IH Hr).
Qed.

Lemma split_nonempty sep s : split sep s ≠ [].
Proof.
  destruct s as [|c r]; cbn [split]; [done|].
  destruct (Ascii.eqb c sep); [done|]. by destruct (split sep r).
Qed.

(** Splitting a joined list of separator-free fields gives the fields back. *)
Lemma split_join sep (l : list string) :
  l ≠ [] → Forall (λ s, has_char sep s = false) l → split sep (join sep l) = l.
Proof.
  induction l as [|x r IH]; [done|]. intros _ Hall.
  apply Forall_cons in Hall as [Hx Hr].
  destruct r as [|y r'].
  - cbn [join]. by apply split_no_sep.
  - change (join sep (x :: y :: r')) with (x +:+ String sep (join sep (y :: r'))).
    rewrite split_app_sep by done. f_equal. by apply IH.
Qed.

(** The encodings on small inputs, as Node has them. *)
Example to_hex_example : to_hex [Byte.x0a; Byte.xff; Byte.x00] = "0aff00".
Proof. reflexivity. Qed.

Example from_hex_example :
  from_hex "0AfF" = [Byte.x0a; Byte.xff] ∧
  from_hex "0aff0" = [Byte.x0a; Byte.xff] ∧
  from_hex "0azz12" = [Byte.x0a] ∧
  from_hex "" = [].
Proof. repeat split; reflexivity. Qed.

Example split_example :
  split colon "" = [""] ∧
  split colon "ab" = ["ab"] ∧
  split colon "a::b" = ["a"; ""; "b"] ∧
  split colon "a:b:" = ["a"; "b"; ""].
Proof. repeat split; reflexivity. Qed.

Example js_length_example :
  js_length "abcdef" = 6%nat ∧
  js_length (String (ascii_of_nat 195) (String (ascii_of_nat 169) "t")) = 2%nat ∧
  js_length (String (ascii_of_nat 240) (String (ascii_of_nat 159)
               (String (ascii_of_nat 152) (String (ascii_of_nat 128) "")))) = 2%nat.
Proof. repeat split; reflexivity. Qed.

Example join_example : join colon ["a"; "b"; ""; "c"] = "a:b::c" ∧ join colon [] = "".
Proof. split; reflexivity. Qed.

Example isLegacyFormat_example :
  isLegacyFormat "00ff:0a0b" = true ∧ isLegacyFormat "00:11:22:33" = false ∧
  isLegacyFormat "00ff" = false.
Proof. repeat split; reflexivity. Qed.

Lemma split_hex2 (a b : Buffer) :
  split colon (to_hex a +:+ ":" +:+ to_hex b) = [to_hex a; to_hex b].
Proof.
  change (":" +:+ to_hex b) with (String colon (to_hex b)).
  rewrite split_app_sep by apply to_hex_no_colon.
  by rewrite split_no_sep by apply to_hex_no_colon.
Qed.

Lemma split_hex3 (a b c : Buffer) :
  split colon (to_hex a +:+ ":" +:+ to_hex b +:+ ":" +:+ to_hex c)
  = [to_hex a; to_hex b; to_hex c].
Proof.
  change (":" +:+ to_hex b +:+ ":" +:+ to_hex c)
    with (String colon (to_hex b +:+ ":" +:+ to_hex c)).
  rewrite split_app_sep by apply to_hex_no_colon.
  by rewrite split_hex2.
Qed.

Lemma split_hex4 (a b c d : Buffer) :
  split colon (join colon [to_hex a; to_hex b; to_hex c; to_hex d])
  = [to_hex a; to_hex b; to_hex c; to_hex d].
Proof.
  apply split_join; [done|].
  repeat constructor; apply to_hex_no_colon.
Qed.

Lemma timingSafeEqual_refl (a : Buffer) : timingSafeEqual a a = Returns true.
Proof. unfold timingSafeEqual. by rewrite !bool_decide_eq_true_2. Qed.

Lemma timingSafeEqual_ne (a b : Buffer) :
  length a = length b → a ≠ b → timingSafeEqual a b = Returns false.
Proof.
  intros Hlen Hne. unfold timingSafeEqual.
  by rewrite bool_decide_eq_true_2, bool_decide_eq_false_2.
Qed.

Lemma model_pad_length n l : length (model_pad n l) = n.
Proof.
  unfold model_pad. rewrite length_take, length_app, repeat_length. lia.
Qed.

#[local] Instance model_crypto_correct : CryptoCorrect.
Proof.
  split.
  - intros. apply model_pad_length.
  - intros. by eexists.
  - intros key iv pt ct tag [= <- <-]. cbn.
    by rewrite bool_decide_eq_true_2, rev_involutive.
  - intros key iv pt ct [= <-]. cbn.
    rewrite length_app, length_rev.
    replace (length pt + length key - length key)%nat with (length (rev pt))
      by (rewrite length_rev; lia).
    rewrite drop_app_length, take_app_length.
    by rewrite bool_decide_eq_true_2, rev_involutive.
Qed.

#[local] Instance model_crypto_rejects : GcmRejectsOtherKeys.
Proof.
  intros key key' iv pt ct tag [= <- <-] Hne. cbn.
  rewrite bool_decide_eq_false_2; [done|].
  intros Heq. apply Hne. symmetry.
  by apply app_inv_tail in Heq.
Qed.

(** The key derivation of the model has no collision among the inputs of
    at most 31 bytes, under a salt of 32 bytes whose first byte does not
    come again: the salt starts in the key where the input ends. *)
Lemma model_pad_lookup (salt m : Buffer) (i : nat) :
  (length m ≤ i < 32)%nat → (i - length m < length salt)%nat →
  model_pad 32 (m ++ salt) !! i = salt !! (i - length m)%nat.
Proof.
  intros Hi Hs. unfold model_pad.
  rewrite lookup_take_lt by lia.
  rewrite lookup_app_l by (rewrite length_app; lia).
  by rewrite lookup_app_r by lia.
Qed.

Lemma model_pad_separates (salt m m' : Buffer) :
  length salt = 32%nat →
  (∀ k, (1 ≤ k ≤ 31)%nat → salt !! k ≠ salt !! 0%nat) →
  (length m ≤ 31)%nat → (length m' ≤ 31)%nat →
  model_pad 32 (m ++ salt) = model_pad 32 (m' ++ salt) → m = m'.
Proof.
  intros Hsalt Hfirst Hm Hm' Heq.
  destruct (Nat.lt_trichotomy (length m) (length m')) as [Hlt|[Hlen|Hlt]].
  - apply (f_equal (λ key, key !! length m')) in Heq.
    rewrite !model_pad_lookup in Heq by lia.
    rewrite Nat.sub_diag in Heq. by apply Hfirst in Heq; [|lia].
  - apply (f_equal (take (length m))) in Heq. revert Heq.
    rewrite Hlen at 2. unfold model_pad.
    rewrite !take_take, !Nat.min_l by lia.
    by rewrite !take_app3_length.
  - apply (f_equal (λ key, key !! length m)) in Heq.
    rewrite !model_pad_lookup in Heq by lia.
    rewrite Nat.sub_diag in Heq. symmetry in Heq. by apply Hfirst in Heq; [|lia].
Qed.

Lemma world0_salt_first (k : nat) :
  (1 ≤ k ≤ 31)%nat → drawn world0 SALT_LENGTH !! k ≠ drawn world0 SALT_LENGTH !! 0%nat.
Proof.
  intros Hk. destruct k as [|k]; [lia|].
  do 31 (destruct k as [|k]; [by vm_compute|]). lia.
Qed.

Lemma world0_salt_collision_free :
  pbkdf2_collision_free (drawn world0 SALT_LENGTH) (λ m, (length m ≤ 31)%nat).
Proof.
  intros m m' Hm Hm' Hne Heq. apply Hne.
  apply (model_pad_separates (drawn world0 SALT_LENGTH));
    [by vm_compute|apply world0_salt_first|done..].
Qed.

(** ** Password hashes *)

(** The password reaches the key derivation in front of the user id, so
    two passwords of one user never share an input to it. *)
Lemma append_length (s t : string) :
  String.length (s +:+ t) = (String.length s + String.length t)%nat.
Proof.
  induction s as [|c s IH]; [done|].
  change (S (String.length (s +:+ t)) = S (String.length s + String.length t)).
  by rewrite IH.
Qed.

Lemma append_inv_tail (p p' t : string) : p +:+ t = p' +:+ t → p = p'.
Proof.
  revert p'. induction p as [|c p IH]; intros [|c' p'] Heq.
  - done.
  - apply (f_equal String.length) in Heq.
    rewrite !append_length in Heq. cbn in Heq. lia.
  - apply (f_equal String.length) in Heq.
    rewrite !append_length in Heq. cbn in Heq. lia.
  - change (String c (p +:+ t) = String c' (p' +:+ t)) in Heq.
    injection Heq as -> Heq. f_equal. by apply IH.
Qed.

Section KdfInput.
Context `{NodeCrypto}.

Lemma password_material_inj (u : N) (p p' : string) :
  password_material p u = password_material p' u → p = p'.
Proof.
  unfold password_material. intros Heq.
  apply (f_equal string_of_list_byte) in Heq.
  rewrite !string_of_list_byte_of_string in Heq.
  by apply append_inv_tail in Heq.
Qed.

(** Where PBKDF2 has no collision, it separates the passwords of a user:
    the inputs that two different passwords give it are different. *)
Lemma kdf_separates_passwords (salt : Buffer) (dom : Buffer → Prop)
    (u : N) (p p' : string) :
  pbkdf2_collision_free salt dom →
  dom (password_material p u) → dom (password_material p' u) →
  p' ≠ p → kdf_separates salt u p p'.
Proof.
  intros Hfree Hp Hp' Hne. unfold kdf_separates, deriveKeyFromPassword.
  apply Hfree; [done..|].
  intros Heq. apply Hne. by apply (password_material_inj u).
Qed.

(** [verifyPassword] against a hash made by [hashPassword] compares the two
    outputs of the key derivation. *)
Lemma verifyPassword_against_hash `{!CryptoCorrect} (salt : Buffer) (p p' : string) (u : N) :
  verifyPassword p' u (hashPassword_with salt p u)
  = Returns (bool_decide (deriveKeyFromPassword p u salt = deriveKeyFromPassword p' u salt)).
Proof.
  unfold hashPassword_with, verifyPassword.
  rewrite split_hex2, !from_hex_to_hex. unfold timingSafeEqual.
  rewrite bool_decide_eq_true_2 by (by rewrite !pbkdf2Sync_length).
  reflexivity.
Qed.
End KdfInput.

(** C3. A password verifies against its own hash, whatever salt
    [hashPassword] draws: [verifyPassword(p, u, hashPassword(p, u))] is
    true.  For every other password [p'] of the same user it is false,
    where PBKDF2 has no collision under the drawn salt among a set of
    inputs that holds the inputs of the two passwords: the repository gives
    PBKDF2 different inputs for different passwords, and compares its two
    outputs. *)
Theorem verifyPassword_hashPassword `{NodeCrypto} `{!CryptoCorrect}
    (w : World) (p : string) (u : N) (p' : string) (dom : Buffer → Prop) :
  let stored := hashPassword_with (drawn w SALT_LENGTH) p u in
  (hashPassword p u w).1 = Returns stored ∧
  verifyPassword p u stored = Returns true ∧
  (pbkdf2_collision_free (drawn w SALT_LENGTH) dom →
   dom (password_material p u) → dom (password_material p' u) →
   p' ≠ p →
   verifyPassword p' u stored = Returns false).
Proof.
  intros stored. split; [reflexivity|]. split.
  - unfold stored, hashPassword_with, verifyPassword.
    rewrite split_hex2, !from_hex_to_hex. apply timingSafeEqual_refl.
  - intros Hfree Hp Hp' Hne. unfold stored.
    rewrite verifyPassword_against_hash. f_equal.
    apply bool_decide_eq_false_2. intros Heq.
    by apply (kdf_separates_passwords _ dom u p p' Hfree Hp Hp' Hne).
Qed.

Lemma short_passwords_material :
  (length (password_material "abcdef" 42) ≤ 31)%nat ∧
  (length (password_material "wrong1" 42) ≤ 31)%nat.
Proof. vm_compute. lia. Qed.

Lemma verifyPassword_hashPassword_witness :
  verifyPassword "abcdef" 42
    (hashPassword_with (drawn world0 SALT_LENGTH) "abcdef" 42) = Returns true ∧
  verifyPassword "wrong1" 42
    (hashPassword_with (drawn world0 SALT_LENGTH) "abcdef" 42) = Returns false.
Proof.
  destruct (verifyPassword_hashPassword world0 "abcdef" 42 "wrong1"
              (λ m, (length m ≤ 31)%nat)) as (_ & Hown & Hother).
  split; [exact Hown|].
  apply Hother.
  - exact world0_salt_collision_free.
  - exact (proj1 short_passwords_material).
  - exact (proj2 short_passwords_material).
  - discriminate.
Defined.

(** ** Password-keyed encryption *)

Section CipherFacts.
Context `{NodeCrypto}.

Lemma drawn_length (w : World) (n : N) : length (drawn w n) = N.to_nat n.
Proof. unfold drawn. by rewrite length_map, length_seq. Qed.

(** Decryption of a four-field blob of hexadecimal fields comes down to
    the primitive. *)
Lemma decryptWithPassword_fields (salt iv tag ct : Buffer) (p : string) (u : N) :
  decryptWithPassword (join colon [to_hex salt; to_hex iv; to_hex tag; to_hex ct]) p u
  = match gcm_decrypt (deriveKeyFromPassword p u salt) iv tag ct with
    | Some d => Returns (Some (string_of_list_byte d))
    | None => Returns None
    end.
Proof.
  unfold decryptWithPassword. rewrite split_hex4, !from_hex_to_hex.
  by destruct (gcm_decrypt _ _ _ _).
Qed.

Lemma encryptWithPassword_with_returns `{!CryptoCorrect}
    (salt iv : Buffer) (s p : string) (u : N) :
  length iv = 16%nat →
  ∃ ct tag,
    gcm_encrypt (deriveKeyFromPassword p u salt) iv (list_byte_of_string s)
      = Some (ct, tag) ∧
    encryptWithPassword_with salt iv s p u
      = Returns (join colon [to_hex salt; to_hex iv; to_hex tag; to_hex ct]).
Proof.
  intros Hiv.
  destruct (gcm_encrypt_total (deriveKeyFromPassword p u salt) iv
              (list_byte_of_string s)) as [[ct tag] Henc]; [|done|].
  { unfold deriveKeyFromPassword. by rewrite pbkdf2Sync_length. }
  exists ct, tag. split; [done|].
  unfold encryptWithPassword_with. by rewrite Henc.
Qed.

(** [encryptWithPassword] draws the salt, then the initialisation vector. *)
Lemma encryptWithPassword_run (s p : string) (u : N) (w : World) :
  encryptWithPassword s p u w
  = (encryptWithPassword_with (drawn w SALT_LENGTH)
       (drawn (set_entropy_pos (λ n, (n + N.to_nat SALT_LENGTH)%nat) w) IV_LENGTH)
       s p u,
     set_entropy_pos (λ n, (n + N.to_nat IV_LENGTH)%nat)
       (set_entropy_pos (λ n, (n + N.to_nat SALT_LENGTH)%nat) w)).
Proof. reflexivity. Qed.

Lemma decrypt_of_encrypt `{!CryptoCorrect}
    (salt iv : Buffer) (s p : string) (u : N) (blob : string) :
  encryptWithPassword_with salt iv s p u = Returns blob →
  decryptWithPassword blob p u = Returns (Some s).
Proof.
  unfold encryptWithPassword_with.
  destruct (gcm_encrypt _ _ _) as [[ct tag]|] eqn:Henc; [|done].
  intros Heq.
  replace blob with (join colon [to_hex salt; to_hex iv; to_hex tag; to_hex ct])
    by congruence.
  rewrite decryptWithPassword_fields.
  rewrite (gcm_decrypt_encrypt _ _ _ _ _ Henc).
  by rewrite string_of_list_byte_of_string.
Qed.

Lemma decrypt_of_encrypt_other `{!GcmRejectsOtherKeys}
    (salt iv : Buffer) (s p p' : string) (u : N) (blob : string) :
  encryptWithPassword_with salt iv s p u = Returns blob →
  kdf_separates salt u p p' →
  decryptWithPassword blob p' u = Returns None.
Proof.
  unfold encryptWithPassword_with.
  destruct (gcm_encrypt _ _ _) as [[ct tag]|] eqn:Henc; [|done].
  intros Heq Hsep.
  replace blob with (join colon [to_hex salt; to_hex iv; to_hex tag; to_hex ct])
    by congruence.
  rewrite decryptWithPassword_fields.
  by rewrite (gcm_decrypt_other_key _ _ _ _ _ _ Henc Hsep).
Qed.

End CipherFacts.

(** C2. Round trip: [encryptWithPassword(s, p, u)] returns a blob, whatever
    salt and initialisation vector it draws, and
    [decryptWithPassword] of that blob under [p] and [u] returns [s].
    Under every other password [p'] it returns [null]; this half rests on
    the idealisation of the cipher ([GcmRejectsOtherKeys]) and on PBKDF2
    having no collision, under the drawn salt, among a set of inputs that
    holds the inputs of the two passwords: the repository gives PBKDF2
    different inputs for different passwords. *)
Theorem decryptWithPassword_encryptWithPassword
    `{NodeCrypto} `{!CryptoCorrect} `{!GcmRejectsOtherKeys}
    (w : World) (s p : string) (u : N) (p' : string) (dom : Buffer → Prop) :
  ∃ blob,
    (encryptWithPassword s p u w).1 = Returns blob ∧
    decryptWithPassword blob p u = Returns (Some s) ∧
    (pbkdf2_collision_free (drawn w SALT_LENGTH) dom →
     dom (password_material p u) → dom (password_material p' u) →
     p' ≠ p →
     decryptWithPassword blob p' u = Returns None).
Proof.
  rewrite encryptWithPassword_run. cbn [fst].
  destruct (encryptWithPassword_with_returns (drawn w SALT_LENGTH)
    (drawn (set_entropy_pos (λ n, (n + N.to_nat SALT_LENGTH)%nat) w) IV_LENGTH)
    s p u) as (ct & tag & _ & Hblob); [by rewrite drawn_length|].
  eexists. split; [exact Hblob|]. split.
  - eapply decrypt_of_encrypt, Hblob.
  - intros Hfree Hp Hp' Hne. eapply decrypt_of_encrypt_other; [exact Hblob|].
    by apply (kdf_separates_passwords _ dom).
Qed.

Lemma decryptWithPassword_encryptWithPassword_witness :
  ∃ blob,
    (encryptWithPassword "5Kb8kLf9zgWQnogidDA76Mz" "abcdef" 42 world0).1 = Returns blob ∧
    decryptWithPassword blob "abcdef" 42 = Returns (Some "5Kb8kLf9zgWQnogidDA76Mz") ∧
    decryptWithPassword blob "wrong1" 42 = Returns None.
Proof.
  destruct (decryptWithPassword_encryptWithPassword world0
              "5Kb8kLf9zgWQnogidDA76Mz" "abcdef" 42 "wrong1"
              (λ m, (length m ≤ 31)%nat))
    as (blob & Hblob & Hsame & Hother).
  exists blob. split; [exact Hblob|]. split; [exact Hsame|].
  apply Hother.
  - exact world0_salt_collision_free.
  - exact (proj1 short_passwords_material).
  - exact (proj2 short_passwords_material).
  - discriminate.
Defined.

(** ** Failure of decryption *)

Section FailClosed.
Context `{NodeCrypto}.

(** The cases in which the function has returned [null]. *)
Ltac solve_null :=
  split; [by eexists|]; do 2 (split; [done|]); intros ? ?; congruence.

Lemma decryptWithPassword_fails_closed (txt p : string) (u : N) :
  fails_closed 4 (gcm_on_fields p u) txt (decryptWithPassword txt p u).
Proof.
  unfold fails_closed, decryptWithPassword, gcm_on_fields.
  destruct (split colon txt) as [|p0 [|p1 [|p2 [|p3 [|p4 l]]]]]; cbn;
    try solve_null.
  destruct (gcm_decrypt _ _ _ _) as [d|]; cbn; [|solve_null].
  split; [by eexists|]. do 2 (split; [intros; congruence|]).
  intros s [= <-]. split; [done|]. by exists d.
Qed.

Lemma session_decrypt_fails_closed (key : Buffer) (txt : string) :
  fails_closed 3 (session_on_fields key) txt (session_decrypt key txt).
Proof.
  unfold fails_closed, session_decrypt, session_on_fields.
  destruct (split colon txt) as [|p0 [|p1 [|p2 [|p3 l]]]]; cbn;
    try solve_null.
  destruct (gcm_decrypt _ _ _ _) as [d|]; cbn; [|solve_null].
  split; [by eexists|]. do 2 (split; [intros; congruence|]).
  intros s [= <-]. split; [done|]. by exists d.
Qed.

Lemma decryptLegacy_fails_closed (txt serverKey : string) :
  fails_closed 2 (cbc_on_fields serverKey) txt (decryptLegacy txt serverKey).
Proof.
  unfold fails_closed, decryptLegacy, cbc_on_fields.
  destruct (split colon txt) as [|p0 [|p1 [|p2 l]]]; cbn;
    try solve_null.
  destruct (cbc_decrypt _ _ _) as [d|]; cbn; [|solve_null].
  split; [by eexists|]. do 2 (split; [intros; congruence|]).
  intros s [= <-]. split; [done|]. by exists d.
Qed.

(** The server-key [decrypt] reports the same failures by an exception. *)
Lemma decrypt_throws (serverKey txt : string) :
  (length (split colon txt) ≠ 2%nat →
   decrypt serverKey txt = Throws "Invalid encrypted text format") ∧
  (length (split colon txt) = 2%nat → cbc_on_fields serverKey (split colon txt) = None →
   decrypt serverKey txt = Throws "bad decrypt") ∧
  (∀ s, decrypt serverKey txt = Returns s →
        length (split colon txt) = 2%nat ∧
        ∃ d, cbc_on_fields serverKey (split colon txt) = Some d ∧
             s = string_of_list_byte d).
Proof.
  unfold decrypt, cbc_on_fields.
  destruct (split colon txt) as [|p0 [|p1 [|p2 l]]]; cbn;
    try (split; [done|]; split; intros; congruence).
  destruct (cbc_decrypt _ _ _) as [d|]; cbn.
  - do 2 (split; [intros; congruence|]).
    intros s [= <-]. split; [done|]. by exists d.
  - split; [intros; congruence|]. split; [done|]. intros; congruence.
Qed.

End FailClosed.

(** C6, as the code has it.  [decryptWithPassword], the session [decrypt]
    and [decryptLegacy] fail closed: they never throw, they return [null]
    on an input without the expected number of fields (four, three, two)
    and when the cipher throws (the tag does not verify), and a string they
    return is the whole plaintext that the cipher gave.  The server-key
    [decrypt] never returns a partial plaintext either, but it reports a
    wrong number of fields and an exception of the cipher by throwing. *)
Theorem decrypt_operations_fail_closed `{NodeCrypto}
    (txt p : string) (u : N) (key : Buffer) (serverKey : string) :
  fails_closed 4 (gcm_on_fields p u) txt (decryptWithPassword txt p u) ∧
  fails_closed 3 (session_on_fields key) txt (session_decrypt key txt) ∧
  fails_closed 2 (cbc_on_fields serverKey) txt (decryptLegacy txt serverKey) ∧
  (length (split colon txt) ≠ 2%nat →
   decrypt serverKey txt = Throws "Invalid encrypted text format") ∧
  (length (split colon txt) = 2%nat → cbc_on_fields serverKey (split colon txt) = None →
   decrypt serverKey txt = Throws "bad decrypt") ∧
  (∀ s, decrypt serverKey txt = Returns s →
        length (split colon txt) = 2%nat ∧
        ∃ d, cbc_on_fields serverKey (split colon txt) = Some d ∧
             s = string_of_list_byte d).
Proof.
  split; [apply decryptWithPassword_fails_closed|].
  split; [apply session_decrypt_fails_closed|].
  split; [apply decryptLegacy_fails_closed|].
  apply decrypt_throws.
Qed.

(** The server-key [decrypt] on an input of one field, and on an input of
    two fields that the cipher rejects: an exception reaches the caller
    where the claim has [null]. *)
Lemma decrypt_propagates_exceptions :
  length (split colon "deadbeef") ≠ 2%nat ∧
  decrypt (walletEncryptionKey world0) "deadbeef"
    = Throws "Invalid encrypted text format" ∧
  length (split colon "00ff:00") = 2%nat ∧
  cbc_on_fields (walletEncryptionKey world0) (split colon "00ff:00") = None ∧
  decrypt (walletEncryptionKey world0) "00ff:00" = Throws "bad decrypt".
Proof. vm_compute. repeat split; done. Qed.

(** ** Trigger evaluation *)

Lemma leb_value_le (a b : float) : (a <=? b)%float = true ↔ value_le a b.
Proof.
  rewrite leb_spec. unfold SFleb, value_le.
  destruct (SFcompare (Prim2SF a) (Prim2SF b)) as [[]|];
    split; try discriminate; auto; intros [?|?]; discriminate.
Qed.

(** C8. The trigger is inclusive at the boundary: an ['above'] trigger is
    satisfied exactly when the current value is at least the target, and a
    ['below'] trigger exactly when it is at most the target.  With the
    target 100, the values 100 and 150 match ['above'] and 99 does not; the
    values 100 and 99 match ['below'] and 150 does not. *)
Theorem checkTriggerCondition_inclusive (v t : float) :
  (checkTriggerCondition v t above = true ↔ value_le t v) ∧
  (checkTriggerCondition v t below = true ↔ value_le v t) ∧
  checkTriggerCondition 100 100 above = true ∧
  checkTriggerCondition 150 100 above = true ∧
  checkTriggerCondition 99 100 above = false ∧
  checkTriggerCondition 100 100 below = true ∧
  checkTriggerCondition 99 100 below = true ∧
  checkTriggerCondition 150 100 below = false.
Proof.
  split; [apply leb_value_le|]. split; [apply leb_value_le|].
  repeat split; reflexivity.
Qed.

(** In the loop of [checkPricesAndExecute] an order is matched when its
    token has a price this cycle, the value it watches is not zero and the
    trigger is satisfied; it is then executed at the token's price. *)
Lemma matched_spec (priceMap : gmap string PriceData) (o : TriggerOrder) (px : float) :
  matched priceMap o = Some px ↔
  ∃ pd, priceMap !! price_key (network o) (tokenAddress o) = Some pd ∧
        px = priceUsd pd ∧
        let v := match triggerType o with
                 | price => priceUsd pd
                 | marketcap => marketCapUsd pd
                 end in
        (v =? 0)%float = false ∧
        checkTriggerCondition v (triggerValue o) (triggerCondition o) = true.
Proof.
  unfold matched.
  destruct (priceMap !! _) as [pd|].
  - cbn zeta.
    destruct (_ =? 0)%float eqn:Hz;
      [split; [done|]; intros (pd' & [= <-] & _ & Hz' & _); congruence|].
    destruct (checkTriggerCondition _ _ _) eqn:Hc.
    + split.
      * intros [= <-]. by exists pd.
      * intros (pd' & [= <-] & -> & _). done.
    + split; [done|]. intros (pd' & [= <-] & _ & _ & Hc'). congruence.
  - split; [done|]. intros (pd' & Hpd & _). done.
Qed.

(** ** Status transitions of an order *)

Lemma update_where_run (cond : TriggerOrder → bool) (f : TriggerOrder → TriggerOrder)
    (w : World) :
  update_where cond f w
  = (Returns (Z.of_nat (length (filter (λ o, cond o = true) (trigger_orders w)))),
     set_trigger_orders (map (λ o, if cond o then f o else o)) w).
Proof. reflexivity. Qed.

(** [cancelOrder] rewrites exactly the rows of that id, of that owner and
    still ['active'], and tells whether there was one. *)
Lemma cancelOrder_guard (orderId userId : N) (w : World) :
  let w' := (cancelOrder orderId userId w).2 in
  (∀ o, o ∈ trigger_orders w →
        id o = orderId ∧ telegramUserId o = userId ∧ status o = active →
        update_order o cancelled (triggeredAt o) (executedAt o) (txHash o)
          (executionPrice o) (error o) ∈ trigger_orders w') ∧
  (∀ o, o ∈ trigger_orders w →
        ¬ (id o = orderId ∧ telegramUserId o = userId ∧ status o = active) →
        o ∈ trigger_orders w') ∧
  ((cancelOrder orderId userId w).1 = Returns true ↔
   ∃ o, o ∈ trigger_orders w ∧
        id o = orderId ∧ telegramUserId o = userId ∧ status o = active).
Proof.
  set (cond := λ o, bool_decide (id o = orderId)
                    && bool_decide (telegramUserId o = userId)
                    && bool_decide (status o = active)).
  assert (Hcond : ∀ o, cond o = true ↔
            id o = orderId ∧ telegramUserId o = userId ∧ status o = active).
  { intros o. unfold cond. rewrite !andb_true_iff, !bool_decide_eq_true. tauto. }
  unfold cancelOrder. fold cond. unfold bind. rewrite update_where_run.
  cbn [fst snd ret set_trigger_orders trigger_orders].
  split; [|split].
  - intros o Ho Hc. apply list_elem_of_fmap. exists o. split; [|done].
    apply Hcond in Hc. by rewrite Hc.
  - intros o Ho Hc. apply list_elem_of_fmap. exists o. split; [|done].
    destruct (cond o) eqn:E; [|done]. by apply Hcond in E.
  - split.
    + intros [= Hpos%bool_decide_eq_true].
      destruct (filter (λ o, cond o = true) (trigger_orders w)) as [|o l] eqn:E;
        [cbn in Hpos; lia|].
      assert (Hin : o ∈ filter (λ o, cond o = true) (trigger_orders w))
        by (rewrite E; left).
      apply list_elem_of_filter in Hin as [Hc Hin].
      exists o. split; [done|]. by apply Hcond.
    + intros (o & Hin & Hc). f_equal. apply bool_decide_eq_true.
      assert (Hf : o ∈ filter (λ o, cond o = true) (trigger_orders w)).
      { apply list_elem_of_filter. split; [|done]. by apply Hcond. }
      destruct (filter _ _); [by apply elem_of_nil in Hf|]. cbn. lia.
Qed.

(** [markOrderTriggered] has no condition on the status: every row of the
    id becomes ['triggered'], whatever it was. *)
Lemma markOrderTriggered_any_status (orderId : N) (w : World) (o : TriggerOrder) :
  o ∈ trigger_orders w → id o = orderId →
  update_order o triggered (Some (clock w)) (executedAt o) (txHash o)
    (executionPrice o) (error o) ∈ trigger_orders (markOrderTriggered orderId w).2.
Proof.
  intros Hin Hid. unfold markOrderTriggered, bind, dateNow, gets.
  rewrite update_where_run. cbn [fst snd ret set_trigger_orders trigger_orders].
  apply list_elem_of_fmap. exists o. split; [|done].
  by rewrite bool_decide_eq_true_2.
Qed.

(** A pass of the scheduler reads the ['active'] rows only: an order that
    was marked does not come up in the next pass. *)
Lemma marked_not_active (orderId : N) (w : World) (o : TriggerOrder) :
  (getActiveTriggerOrders (markOrderTriggered orderId w).2).1 = Returns [o] →
  id o ≠ orderId.
Proof.
  unfold getActiveTriggerOrders, gets, markOrderTriggered, bind, dateNow, gets.
  rewrite update_where_run. cbn [fst snd ret set_trigger_orders trigger_orders].
  intros [= Heq] Hid.
  assert (Hin : o ∈ filter (λ o, status o = active)
            (map (λ o, if bool_decide (id o = orderId)
                       then update_order o triggered (Some (clock w)) (executedAt o)
                              (txHash o) (executionPrice o) (error o)
                       else o) (trigger_orders w)))
    by (rewrite Heq; left).
  apply list_elem_of_filter in Hin as [Hact Hin].
  apply list_elem_of_fmap in Hin as (o' & -> & _).
  destruct (bool_decide (id o' = orderId)) eqn:E; [done|].
  by apply bool_decide_eq_false in E.
Qed.

(** C1, on the code.  The owner cancels the active order 7, which succeeds;
    [markOrderTriggered(7)] then turns the cancelled order into a
    ['triggered'] one.  [executeOrder] on the copy of the row that a pass
    had read before the cancellation drives the cancelled order to
    ['failed'] when the wallet is locked and to ['executed'], through the
    swap, when it is unlocked, and notifies the chat.  A second
    [markOrderTriggered(7)], a minute after a first one, applies again and
    stamps the row anew. *)
Theorem markOrderTriggered_ignores_status :
  let w1 := (cancelOrder 7 42 world_order7).2 in
  let w2 := (markOrderTriggered 7 w1).2 in
  let w3 := (executeOrder (λ _ _, true) (λ _, Returns swap_done) order7 1.5 w1).2 in
  let u1 := (cancelOrder 7 42 world_order7_unlocked).2 in
  let u3 := (executeOrder (λ _ _, true) (λ _, Returns swap_done) order7 1.5 u1).2 in
  let v1 := (markOrderTriggered 7 world_order7).2 in
  let v2 := (markOrderTriggered 7 (set_clock (clock v1 + 60000) v1)).2 in
  (cancelOrder 7 42 world_order7).1 = Returns true ∧
  map status (trigger_orders w1) = [cancelled] ∧
  map status (trigger_orders w2) = [triggered] ∧
  map status (trigger_orders w3) = [failed] ∧
  notifications w3 = [NotifyFailed 42 7 "Wallet locked - please unlock with /unlock"] ∧
  (cancelOrder 7 42 world_order7_unlocked).1 = Returns true ∧
  map status (trigger_orders u1) = [cancelled] ∧
  map status (trigger_orders u3) = [executed] ∧
  map txHash (trigger_orders u3) = [signature swap_done] ∧
  notifications u3 = [NotifyExecuted 42 7 (default EmptyString (signature swap_done))] ∧
  map triggeredAt (trigger_orders v1) = [Some 1700000000000] ∧
  map triggeredAt (trigger_orders v2) = [Some 1700000060000].
Proof. vm_compute. repeat split; reflexivity. Qed.

(** ** Lockout *)

Section Lockout.
Context `{NodeCrypto}.

Lemma getFailedAttemptCount_run (u : N) (minutes : Z) (w : World) :
  getFailedAttemptCount u minutes w
  = (Returns (Z.of_nat (length (filter
       (failed_since u (clock w - minutes * 60 * 1000)) (login_attempts w)))), w).
Proof. reflexivity. Qed.

(** The most recent failure is at least as late as any failure. *)
Lemma lastFailedAttempt_ge (u : N) (l : list LoginAttempt) (a : LoginAttempt) :
  a ∈ l → attempt_user a = u → attempt_success a = false →
  ∃ m, lastFailedAttempt u l = Some m ∧ attempt_time a ≤ m.
Proof.
  induction l as [|b l IH]; [by intros ?%elem_of_nil|].
  intros [->|Hin]%elem_of_cons Hu Hs; cbn [lastFailedAttempt foldr].
  - rewrite bool_decide_eq_true_2 by done.
    fold (lastFailedAttempt u l).
    destruct (lastFailedAttempt u l) as [m|]; eexists; (split; [done|]); lia.
  - destruct (IH Hin Hu Hs) as (m & Hm & Hle).
    fold (lastFailedAttempt u l). rewrite Hm.
    destruct (bool_decide _); eexists; (split; [done|]); lia.
Qed.

(** The second test of [isLockedOut] never fails: a user is locked out
    exactly while five failures or more lie in the trailing 15 minutes. *)
Lemma isLockedOut_iff (u : N) (w : World) :
  (isLockedOut u w).2 = w ∧
  ∃ lo, (isLockedOut u w).1 = Returns lo ∧
        (locked lo = true ↔
         5 ≤ Z.of_nat (length (filter (failed_since u (clock w - 15 * 60 * 1000))
                                 (login_attempts w)))).
Proof.
  unfold isLockedOut, bind. rewrite getFailedAttemptCount_run.
  set (n := Z.of_nat _).
  destruct (bool_decide (5 ≤ n)) eqn:E.
  - apply bool_decide_eq_true in E. cbn [gets dateNow].
    destruct (filter (failed_since u (clock w - 15 * 60 * 1000)) (login_attempts w))
      as [|a l] eqn:Hf; [subst n; cbn in E; lia|].
    assert (Ha : a ∈ filter (failed_since u (clock w - 15 * 60 * 1000))
                   (login_attempts w)) by (rewrite Hf; left).
    apply list_elem_of_filter in Ha as [(Hu & Ht & Hs) Hin].
    destruct (lastFailedAttempt_ge u _ a Hin Hu Hs) as (m & -> & Hle).
    unfold default, from_option, Datatypes.id.
    rewrite bool_decide_eq_true_2 by lia.
    split; [done|]. eexists. split; [done|]. cbn. by split.
  - apply bool_decide_eq_false in E.
    split; [done|]. eexists. split; [done|]. cbn. split; [done|]. intros; lia.
Qed.

(** While the user is locked out [unlock] fails, whatever the password, and
    changes nothing: no attempt is recorded and no session is created. *)
Lemma unlock_while_locked_out (u : N) (password : string) (w : World) :
  5 ≤ Z.of_nat (length (filter (failed_since u (clock w - 15 * 60 * 1000))
                          (login_attempts w))) →
  ∃ out, unlock u password w = (Returns out, w) ∧ success out = false.
Proof.
  intros Hfive. destruct (isLockedOut_iff u w) as (Hw & lo & Hlo & Hiff).
  apply Hiff in Hfive. unfold unlock, bind.
  destruct (isLockedOut u w) as [r w'] eqn:E. cbn in Hw, Hlo. subst w' r.
  rewrite Hfive. by eexists.
Qed.

End Lockout.

(** C4, on the code.  At minute 14.5 the five failures lie in the trailing
    15 minutes and [unlock] with the right password is refused, with "try
    again in 15 minutes".  At minute 15.5, one minute and a half after the
    most recent failure, only four failures are left in the window: the
    user is not locked out any more, and [unlock] succeeds and creates the
    session. *)
Theorem lockout_ends_before_fifteen_minutes :
  let early := set_clock (clock world0 + 870000) world_lockout in
  let late := set_clock (clock world0 + 930000) world_lockout in
  (isLockedOut 42 early).1 = Returns {| locked := true; unlockIn := 15 |} ∧
  (unlock 42 "abcdef" early).1
    = Returns {| success := false;
                 failure := Some "Too many failed attempts. Try again in 15 minutes.";
                 lockoutMinutes := Some 15 |} ∧
  lastFailedAttempt 42 (login_attempts late) = Some (clock world0 + 840000) ∧
  clock late < clock world0 + 840000 + 15 * 60 * 1000 ∧
  (isLockedOut 42 late).1 = Returns {| locked := false; unlockIn := 0 |} ∧
  (unlock 42 "abcdef" late).1 = Returns succeeded ∧
  map fst (sessions (unlock 42 "abcdef" late).2) = [42%N].
Proof. vm_compute. repeat split; reflexivity. Qed.

(** ** The session store *)

Section MapFacts.
Context {V : Type}.
Implicit Types (m : list (N * V)) (k : N) (v : V).

Lemma map_get_elem_of k v m : map_get k m = Some v → (k, v) ∈ m.
Proof.
  induction m as [|[k' v'] m IH]; [done|]. cbn [map_get].
  case_bool_decide as E.
  - intros [= <-]. subst. left.
  - intros Hg. right. by apply IH.
Qed.

Lemma map_get_set_eq k v m : map_get k (map_set k v m) = Some v.
Proof.
  induction m as [|[k' v'] m IH]; cbn [map_set map_get].
  - by rewrite bool_decide_eq_true_2.
  - case_bool_decide as E; cbn [map_get].
    + by rewrite bool_decide_eq_true_2.
    + by rewrite bool_decide_eq_false_2.
Qed.

Lemma map_get_set_ne k k' v m : k' ≠ k → map_get k' (map_set k v m) = map_get k' m.
Proof.
  intros Hne. induction m as [|[k0 v0] m IH]; cbn [map_set map_get].
  - by rewrite bool_decide_eq_false_2.
  - case_bool_decide as E; cbn [map_get].
    + subst k0. by rewrite !bool_decide_eq_false_2.
    + by rewrite IH.
Qed.

Lemma map_get_delete_eq k m : map_get k (map_delete k m) = None.
Proof.
  unfold map_delete. induction m as [|[k' v'] m IH]; [done|].
  rewrite filter_cons. cbn [fst]. case_decide as E; [|done].
  cbn [map_get]. by rewrite bool_decide_eq_false_2.
Qed.

Lemma map_get_delete_ne k k' m : k' ≠ k → map_get k' (map_delete k m) = map_get k' m.
Proof.
  intros Hne. unfold map_delete. induction m as [|[k0 v0] m IH]; [done|].
  rewrite filter_cons. cbn [fst]. case_decide as E; cbn [map_get].
  - by rewrite IH.
  - subst k0. by rewrite bool_decide_eq_false_2.
Qed.

Lemma elem_of_map_set k v m (e : N * V) :
  e ∈ map_set k v m → e = (k, v) ∨ e ∈ m.
Proof.
  induction m as [|[k' v'] m IH]; cbn [map_set].
  - intros ->%list_elem_of_singleton. by left.
  - case_bool_decide as E.
    + intros [->|Hin]%elem_of_cons; [by left|right; by right].
    + intros [->|Hin]%elem_of_cons; [right; left|].
      destruct (IH Hin) as [->|?]; [by left|right; by right].
Qed.

Lemma elem_of_map_delete k m (e : N * V) : e ∈ map_delete k m → e ∈ m.
Proof. unfold map_delete. by intros [_ ?]%list_elem_of_filter. Qed.

End MapFacts.

Section SessionFacts.
Context `{NodeCrypto}.

Lemma keeps_ret {A} (v : A) : keeps_sessions (ret v).
Proof. by intros w. Qed.

Lemma keeps_throw {A} msg : keeps_sessions (@throw A msg).
Proof. by intros w. Qed.

Lemma keeps_lift {A} (r : result A) : keeps_sessions (lift r).
Proof. by intros w. Qed.

Lemma keeps_gets {A} (f : World → A) : keeps_sessions (gets f).
Proof. by intros w. Qed.

Lemma keeps_bind {A B} (m : M A) (k : A → M B) :
  keeps_sessions m → (∀ a, keeps_sessions (k a)) → keeps_sessions (bind m k).
Proof.
  intros Hm Hk w Hw. unfold bind. specialize (Hm w Hw).
  destruct (m w) as [[a|msg] w']; [by apply Hk|done].
Qed.

Lemma keeps_modify (f : World → World) :
  (∀ w, sessions (f w) = sessions w) → keeps_sessions (modify f).
Proof. intros Hf w Hw e. cbn. rewrite Hf. apply Hw. Qed.

Lemma keeps_modify_sessions (f : list (N * Session) → list (N * Session)) :
  (∀ l e, e ∈ f l → e ∈ l) → keeps_sessions (modify (set_sessions f)).
Proof. intros Hf w Hw e He. cbn in He. apply Hw. by apply Hf in He. Qed.

Lemma keeps_for_of {A} (l : list A) (body : A → M unit) :
  (∀ a, keeps_sessions (body a)) → keeps_sessions (for_of l body).
Proof.
  intros Hb. induction l as [|a l IH]; cbn [for_of].
  - apply keeps_ret.
  - apply keeps_bind; [apply Hb|]. by intros _.
Qed.

Lemma keeps_try_catch_in {A} (body : M A) (handler : string → M A) :
  keeps_sessions body → (∀ msg, keeps_sessions (handler msg)) →
  keeps_sessions (try_catch_in body handler).
Proof.
  intros Hb Hh w Hw. unfold try_catch_in. specialize (Hb w Hw).
  destruct (body w) as [[v|msg] w']; [done|by apply Hh].
Qed.

Lemma keeps_randomBytes (n : nat) : keeps_sessions (randomBytes n).
Proof. by intros w. Qed.

Lemma keeps_dateNow : keeps_sessions dateNow.
Proof. by intros w. Qed.

End SessionFacts.

Create HintDb sessions.
#[local] Hint Resolve keeps_ret keeps_throw keeps_lift keeps_gets keeps_randomBytes
  keeps_dateNow : sessions.

Section SessionManager.
Context `{NodeCrypto}.

(** The three ways of [getSession]: no session, an expired session, which
    is removed, and a live session. *)
Lemma getSession_cases (u : N) (w : World) :
  (map_get u (sessions w) = None ∧ getSession u w = (Returns None, w)) ∨
  (∃ s, map_get u (sessions w) = Some s ∧ expiresAt s < clock w ∧
        getSession u w = (Returns None, set_sessions (map_delete u) w)) ∨
  (∃ s, map_get u (sessions w) = Some s ∧ ¬ expiresAt s < clock w ∧
        getSession u w = (Returns (Some s), w)).
Proof.
  unfold getSession, bind, gets.
  destruct (map_get u (sessions w)) as [s|] eqn:E; [|by left].
  right. cbn [dateNow gets]. case_bool_decide as Hexp.
  - left. by exists s.
  - right. by exists s.
Qed.

Lemma keeps_getSession (u : N) : keeps_sessions (getSession u).
Proof.
  intros w Hw.
  destruct (getSession_cases u w) as [[_ ->]|[(s & _ & _ & ->)|(s & _ & _ & ->)]];
    try done.
  intros e He. apply Hw. by apply elem_of_map_delete in He.
Qed.

Lemma keeps_sessionCleanup : keeps_sessions sessionCleanup.
Proof.
  intros w Hw e He. cbn in He. apply list_elem_of_filter in He as [_ He].
  by apply Hw.
Qed.

Lemma keeps_lockSession (u : N) : keeps_sessions (lockSession u).
Proof. apply keeps_modify_sessions. intros l e. apply elem_of_map_delete. Qed.

Lemma keeps_lockAllSessions : keeps_sessions lockAllSessions.
Proof. apply keeps_modify_sessions. by intros l e ?%elem_of_nil. Qed.

(** Writing a well-formed session back keeps the store well formed. *)
Lemma sessions_ok_set (u : N) (s : Session) (w : World) :
  sessions_ok w → session_ok s → sessions_ok (set_sessions (map_set u s) w).
Proof.
  intros Hw Hs e He. cbn in He.
  apply elem_of_map_set in He as [->|He]; [done|by apply Hw].
Qed.

Lemma keeps_createSession (u : N) (timeoutMs : Z) :
  keeps_sessions (createSession u timeoutMs).
Proof.
  unfold createSession.
  apply keeps_bind; [auto with sessions|]. intros size.
  apply keeps_bind.
  { case_bool_decide; [|auto with sessions].
    apply keeps_bind; [auto with sessions|]. intros now.
    apply keeps_bind.
    { apply keeps_modify_sessions. by intros l e [_ ?]%list_elem_of_filter. }
    intros _. apply keeps_bind; [auto with sessions|]. intros size'.
    case_bool_decide; [|auto with sessions].
    apply keeps_bind; [auto with sessions|]. intros [e|]; [|auto with sessions].
    apply keeps_modify_sessions. intros l e'. apply elem_of_map_delete. }
  intros _. apply keeps_bind; [auto with sessions|]. intros now.
  intros w Hw. unfold bind, randomBytes. cbn.
  apply (sessions_ok_set u _ (set_entropy_pos _ w)); [done|].
  split; cbn.
  - by rewrite length_map, length_seq.
  - intros net e. by rewrite lookup_empty.
Qed.

Lemma keeps_refreshSession (u : N) (timeoutMs : Z) :
  keeps_sessions (refreshSession u timeoutMs).
Proof.
  intros w Hw. unfold refreshSession, bind.
  destruct (getSession_cases u w) as [[_ ->]|[(s & _ & _ & ->)|(s & Hs & _ & ->)]].
  - done.
  - cbn. intros e He. apply Hw. by apply elem_of_map_delete in He.
  - cbn. apply sessions_ok_set; [done|].
    apply map_get_elem_of, Hw in Hs. exact Hs.
Qed.

Lemma keeps_storeKeyInSession (u : N) (net : Network) (privateKey : string) :
  keeps_sessions (storeKeyInSession u net privateKey).
Proof.
  intros w Hw. unfold storeKeyInSession, bind.
  destruct (getSession_cases u w) as [[_ ->]|[(s & _ & _ & ->)|(s & Hs & _ & ->)]].
  - done.
  - cbn. intros e He. apply Hw. by apply elem_of_map_delete in He.
  - apply map_get_elem_of, Hw in Hs. cbn in Hs.
    unfold session_encrypt, bind, randomBytes, lift.
    destruct (session_encrypt_with _ _ _) as [e|msg] eqn:Henc; [|done].
    cbn. apply (sessions_ok_set u _ (set_entropy_pos _ w)); [done|].
    destruct Hs as [Hlen Hkeys]. split; [done|]. cbn.
    intros net' e'. rewrite lookup_insert. case_decide as E.
    + intros [= <-]. eexists _, _. split; [|exact Henc].
      by rewrite length_map, length_seq.
    + apply Hkeys.
Qed.

End SessionManager.

#[local] Hint Resolve keeps_getSession keeps_sessionCleanup keeps_lockSession
  keeps_lockAllSessions keeps_createSession keeps_refreshSession
  keeps_storeKeyInSession : sessions.

(** Every operation of the custody service and of the scheduler keeps the
    sessions well formed. *)

(** One step of a proof that a computation keeps the sessions well formed:
    through a sequence, a loop, a branch, and a write to another field. *)
Ltac keeps_step :=
  first
    [ solve [auto with sessions]
    | apply keeps_bind; [|intros ?]
    | apply keeps_for_of; intros ?
    | apply keeps_modify; intros ?; reflexivity
    | match goal with
      | |- keeps_sessions (if ?b then _ else _) => destruct b
      | |- keeps_sessions (match ?x with _ => _ end) => destruct x
      end ].

Section CustodyKeeps.
Context `{NodeCrypto}.

Lemma keeps_saveWallet u net address blob : keeps_sessions (saveWallet u net address blob).
Proof.
  apply keeps_modify. intros w. by destruct (wallets w !! (u, net)).
Qed.

Lemma keeps_recordLoginAttempt u ok : keeps_sessions (recordLoginAttempt u ok).
Proof. unfold recordLoginAttempt. repeat keeps_step. Qed.

Lemma keeps_isLockedOut u : keeps_sessions (isLockedOut u).
Proof. unfold isLockedOut, getFailedAttemptCount. repeat keeps_step. Qed.

Lemma keeps_decryptPrivateKey u net p : keeps_sessions (decryptPrivateKey u net p).
Proof.
  unfold decryptPrivateKey, getWallet, getWalletEncryptionVersion. repeat keeps_step.
Qed.

Lemma keeps_encryptWithPassword s p u : keeps_sessions (encryptWithPassword s p u).
Proof. unfold encryptWithPassword. repeat keeps_step. Qed.

#[local] Hint Resolve keeps_saveWallet keeps_recordLoginAttempt keeps_isLockedOut
  keeps_decryptPrivateKey keeps_encryptWithPassword : sessions.

Lemma keeps_unlock u p : keeps_sessions (unlock u p).
Proof.
  unfold unlock, getUserSecurity, getFailedAttemptCount, getAllWallets,
    logSecurityEvent.
  repeat keeps_step.
Qed.

Lemma keeps_lock u : keeps_sessions (lock u).
Proof. unfold lock, logSecurityEvent. repeat keeps_step. Qed.

Lemma keeps_getPrivateKey u net : keeps_sessions (getPrivateKey u net).
Proof. unfold getPrivateKey, getKeyFromSession. repeat keeps_step. Qed.

Lemma keeps_changePassword u cur new : keeps_sessions (changePassword u cur new).
Proof.
  unfold changePassword, getUserSecurity, getAllWallets, setWalletEncryptionVersion,
    hashPassword, updateUserSecurity_passwordHash, logSecurityEvent.
  repeat keeps_step.
Qed.

Lemma keeps_migrateWallet u net new : keeps_sessions (migrateWallet u net new).
Proof.
  unfold migrateWallet, getWallet, getWalletEncryptionVersion,
    setWalletEncryptionVersion, logSecurityEvent.
  repeat keeps_step.
Qed.

Lemma keeps_verifyPasswordForAction u p : keeps_sessions (verifyPasswordForAction u p).
Proof. unfold verifyPasswordForAction, getUserSecurity. repeat keeps_step. Qed.

Lemma keeps_update_where cond f : keeps_sessions (update_where cond f).
Proof. unfold update_where. repeat keeps_step. Qed.

#[local] Hint Resolve keeps_getPrivateKey keeps_update_where : sessions.

Lemma keeps_executeOrder decodes swap o px :
  keeps_sessions (executeOrder decodes swap o px).
Proof.
  unfold executeOrder, markOrderTriggered. repeat keeps_step.
  apply keeps_try_catch_in.
  - unfold hasKeypair, markOrderExecuted, notifyOrderExecuted. repeat keeps_step.
  - intros msg. unfold markOrderFailed, notifyOrderFailed. repeat keeps_step.
Qed.

#[local] Hint Resolve keeps_executeOrder : sessions.

Lemma keeps_checkPricesAndExecute decodes swap pm :
  keeps_sessions (checkPricesAndExecute decodes swap pm).
Proof. unfold checkPricesAndExecute, getActiveTriggerOrders. repeat keeps_step. Qed.

End CustodyKeeps.

Section SessionKeys.
Context `{NodeCrypto} `{!CryptoCorrect}.

Lemma session_decrypt_of_encrypt (key iv : Buffer) (data e : string) :
  session_encrypt_with key iv data = Returns e →
  session_decrypt key e = Returns (Some data).
Proof.
  unfold session_encrypt_with.
  destruct (gcm_encrypt _ _ _) as [[ct tag]|] eqn:Henc; [|done].
  intros [= <-]. unfold session_decrypt.
  rewrite split_hex3, !from_hex_to_hex, (gcm_decrypt_encrypt _ _ _ _ _ Henc).
  cbn. by rewrite string_of_list_byte_of_string.
Qed.

Lemma session_encrypt_nonempty (key iv : Buffer) (data e : string) :
  session_encrypt_with key iv data = Returns e → String.eqb e EmptyString = false.
Proof.
  unfold session_encrypt_with.
  destruct (gcm_encrypt _ _ _) as [[ct tag]|]; [|done].
  intros [= <-]. by destruct (to_hex iv).
Qed.

(** A live session that holds an entry for [net] gives its secret. *)
Lemma getKeyFromSession_live (u : N) (net : Network) (w : World) (s : Session)
    (e : string) :
  sessions_ok w →
  map_get u (sessions w) = Some s → ¬ expiresAt s < clock w →
  encryptedKeys s !! net = Some e →
  ∃ iv data, session_encrypt_with (sessionKey s) iv data = Returns e ∧
             getKeyFromSession u net w = (Returns (Some data), w).
Proof.
  intros Hw Hs Hlive He.
  pose proof (Hw _ (map_get_elem_of _ _ _ Hs)) as Hok. cbn [snd] in Hok.
  destruct Hok as [_ Hkeys].
  destruct (Hkeys net e He) as (iv & data & _ & Henc).
  exists iv, data. split; [done|].
  unfold getKeyFromSession, bind.
  destruct (getSession_cases u w)
    as [[Hn _]|[(s' & Hs' & Hexp & _)|(s' & Hs' & _ & ->)]]; [congruence| |].
  - rewrite Hs in Hs'. injection Hs' as <-. done.
  - rewrite Hs in Hs'. injection Hs' as <-. rewrite He.
    rewrite (session_encrypt_nonempty _ _ _ _ Henc).
    unfold lift. by rewrite (session_decrypt_of_encrypt _ _ _ _ Henc).
Qed.

(** In every other case there is no value. *)
Lemma getKeyFromSession_none (u : N) (net : Network) (w : World) :
  (∀ s, map_get u (sessions w) = Some s → ¬ expiresAt s < clock w →
        encryptedKeys s !! net = None) →
  (getKeyFromSession u net w).1 = Returns None.
Proof.
  intros Hno. unfold getKeyFromSession, bind.
  destruct (getSession_cases u w)
    as [[_ ->]|[(s & _ & _ & ->)|(s & Hs & Hlive & ->)]]; [done..|].
  by rewrite (Hno s Hs Hlive).
Qed.

Lemma getKeyFromSession_expired (u : N) (net : Network) (w : World) (s : Session) :
  map_get u (sessions w) = Some s → expiresAt s < clock w →
  getKeyFromSession u net w = (Returns None, set_sessions (map_delete u) w).
Proof.
  intros Hs Hexp. unfold getKeyFromSession, bind.
  destruct (getSession_cases u w)
    as [[Hn _]|[(s' & _ & _ & ->)|(s' & Hs' & Hlive & _)]]; [congruence|done|].
  rewrite Hs in Hs'. injection Hs' as <-. done.
Qed.

End SessionKeys.

(** C5. [getPrivateKey(user, chain)] returns a secret if and only if the
    store has a session of the user, the session's [expiresAt] is not
    before the clock at the read, and the session has an entry for the
    chain; the secret is the one that was stored.  In every other case it
    returns [null], and the read of an expired session removes it. *)
Theorem getPrivateKey_iff_live_session `{NodeCrypto} `{!CryptoCorrect}
    (w : World) (u : N) (net : Network) :
  sessions_ok w →
  let live := ∃ s, map_get u (sessions w) = Some s ∧ ¬ expiresAt s < clock w ∧
                   is_Some (encryptedKeys s !! net) in
  ((∃ secret, (getPrivateKey u net w).1 = Returns (Some secret)) ↔ live) ∧
  (¬ live → (getPrivateKey u net w).1 = Returns None) ∧
  (∀ s e iv data,
     map_get u (sessions w) = Some s → ¬ expiresAt s < clock w →
     encryptedKeys s !! net = Some e →
     session_encrypt_with (sessionKey s) iv data = Returns e →
     getPrivateKey u net w = (Returns (Some data), w)) ∧
  (∀ s, map_get u (sessions w) = Some s → expiresAt s < clock w →
        (getPrivateKey u net w).1 = Returns None ∧
        map_get u (sessions (getPrivateKey u net w).2) = None).
Proof.
  intros Hw live. unfold getPrivateKey.
  assert (Hnone : ¬ live → (getKeyFromSession u net w).1 = Returns None).
  { intros Hnot. apply getKeyFromSession_none. intros s Hs Hlive.
    destruct (encryptedKeys s !! net) as [e|] eqn:He; [|done].
    destruct Hnot. exists s. by rewrite He. }
  split; [|split; [exact Hnone|split]].
  - split.
    + intros [secret Hsecret].
      destruct (map_get u (sessions w)) as [s|] eqn:Hs.
      * destruct (decide (expiresAt s < clock w)) as [Hexp|Hlive].
        { rewrite (getKeyFromSession_expired u net w s Hs Hexp) in Hsecret.
          discriminate. }
        destruct (encryptedKeys s !! net) as [e|] eqn:He.
        { exists s. by rewrite He. }
        rewrite getKeyFromSession_none in Hsecret; [discriminate|].
        intros s' Hs' _. congruence.
      * rewrite getKeyFromSession_none in Hsecret; [discriminate|].
        intros s' Hs'. congruence.
    + intros (s & Hs & Hlive & [e He]).
      destruct (getKeyFromSession_live u net w s e Hw Hs Hlive He)
        as (iv & data & _ & ->). by exists data.
  - intros s e iv data Hs Hlive He Henc.
    destruct (getKeyFromSession_live u net w s e Hw Hs Hlive He)
      as (iv' & data' & Henc' & ->).
    apply session_decrypt_of_encrypt in Henc, Henc'. congruence.
  - intros s Hs Hexp. rewrite (getKeyFromSession_expired u net w s Hs Hexp).
    split; [done|]. apply map_get_delete_eq.
Qed.

(** ** Migration of a legacy wallet *)

Section Migration.
Context `{NodeCrypto}.

Lemma isLegacyFormat_hex4 (a b c d : Buffer) :
  isLegacyFormat (join colon [to_hex a; to_hex b; to_hex c; to_hex d]) = false.
Proof. unfold isLegacyFormat. by rewrite split_hex4. Qed.

(** What [encryptWithPassword_with] returns has the four fields of the
    current format. *)
Lemma encryptWithPassword_with_format (salt iv : Buffer) (s p : string) (u : N)
    (blob : string) :
  encryptWithPassword_with salt iv s p u = Returns blob →
  isLegacyFormat blob = false ∧ length (split colon blob) = 4%nat.
Proof.
  unfold encryptWithPassword_with.
  destruct (gcm_encrypt _ _ _) as [[ct tag]|]; [|done].
  intros Heq.
  replace blob with (join colon [to_hex salt; to_hex iv; to_hex tag; to_hex ct])
    by congruence.
  by rewrite isLegacyFormat_hex4, split_hex4.
Qed.

(** What [decryptLegacy] decrypts has the two fields of the legacy format. *)
Lemma decryptLegacy_format (txt serverKey s : string) :
  decryptLegacy txt serverKey = Returns (Some s) → isLegacyFormat txt = true.
Proof.
  intros Hd. destruct (decryptLegacy_fails_closed txt serverKey) as (_ & _ & _ & Hsome).
  destruct (Hsome s Hd) as [Hlen _]. unfold isLegacyFormat.
  by rewrite bool_decide_eq_true_2.
Qed.

Lemma migrateWallet_refuses (u : N) (net : Network) (newPassword : string)
    (w : World) (wl : WalletRow) :
  wallets w !! (u, net) = Some wl → (2 ≤ effective_version wl)%N →
  migrateWallet u net newPassword w
  = (Returns (failed_with "Wallet already using new encryption"), w).
Proof.
  intros Hwl Hv. unfold migrateWallet, bind, getWallet, getWalletEncryptionVersion, gets.
  cbv beta. rewrite !Hwl. fold (effective_version wl).
  by rewrite bool_decide_eq_true_2.
Qed.

Lemma truthy_Some (s : string) : s ≠ EmptyString → truthy (Some s) = true.
Proof. intros Hs. cbn. by destruct s. Qed.

Lemma migrateWallet_migrates `{!CryptoCorrect} (u : N) (net : Network)
    (newPassword : string) (w : World) (wl : WalletRow) (secret : string) :
  wallets w !! (u, net) = Some wl → (effective_version wl < 2)%N →
  decryptLegacy (encrypted_private_key wl) (walletEncryptionKey w)
    = Returns (Some secret) →
  secret ≠ EmptyString →
  ∃ blob w',
    migrateWallet u net newPassword w = (Returns succeeded, w') ∧
    wallets w' !! (u, net)
      = Some {| wallet_id := wallet_id wl; wallet_address := wallet_address wl;
                encrypted_private_key := blob; encryption_version := 2 |} ∧
    isLegacyFormat blob = false ∧
    decryptWithPassword blob newPassword u = Returns (Some secret) ∧
    (∀ k, k ≠ (u, net) → wallets w' !! k = wallets w !! k) ∧
    user_security w' = user_security w ∧ sessions w' = sessions w ∧
    login_attempts w' = login_attempts w ∧ clock w' = clock w ∧
    walletEncryptionKey w' = walletEncryptionKey w.
Proof.
  intros Hwl Hv Hdec Hne.
  unfold migrateWallet, bind, getWallet, getWalletEncryptionVersion, gets.
  cbv beta. rewrite !Hwl. fold (effective_version wl).
  rewrite bool_decide_eq_false_2 by lia.
  unfold lift. rewrite Hdec, (truthy_Some _ Hne). cbn [negb default from_option].
  rewrite encryptWithPassword_run.
  destruct (encryptWithPassword_with_returns (drawn w SALT_LENGTH)
    (drawn (set_entropy_pos (λ n, (n + N.to_nat SALT_LENGTH)%nat) w) IV_LENGTH)
    secret newPassword u) as (ct & tag & _ & Hblob); [by rewrite drawn_length|].
  unfold Datatypes.id. rewrite Hblob.
  eexists _, _. split.
  { unfold saveWallet, setWalletEncryptionVersion, logSecurityEvent, modify, ret.
    cbn [wallets set_entropy_pos]. rewrite Hwl. reflexivity. }
  cbn [wallets set_wallets set_security_log set_entropy_pos user_security sessions
       login_attempts clock walletEncryptionKey].
  split; [|split; [|split; [|split]]].
  - by rewrite lookup_alter_eq, lookup_insert_eq.
  - eapply encryptWithPassword_with_format, Hblob.
  - eapply decrypt_of_encrypt, Hblob.
  - intros k Hk. by rewrite lookup_alter_ne, lookup_insert_ne.
  - done.
Qed.

End Migration.

(** ** Unlocking *)

Section Unlock.
Context `{NodeCrypto}.

(** [decryptPrivateKey] reads the wallet row and the server key, changes
    nothing and never throws. *)
Lemma decryptPrivateKey_run (u : N) (net : Network) (p : string) (w : World) :
  decryptPrivateKey u net p w
  = (match wallets w !! (u, net) with
     | None => Returns None
     | Some wl =>
         if bool_decide (effective_version wl = 1%N)
            && isLegacyFormat (encrypted_private_key wl)
         then decryptLegacy (encrypted_private_key wl) (walletEncryptionKey w)
         else decryptWithPassword (encrypted_private_key wl) p u
     end, w).
Proof.
  unfold decryptPrivateKey, bind, getWallet, getWalletEncryptionVersion, gets.
  cbv beta. destruct (wallets w !! (u, net)) as [wl|] eqn:E; [|done].
  cbv beta. rewrite ?E. fold (effective_version wl). by destruct (_ && _).
Qed.

Lemma decryptPrivateKey_returns (u : N) (net : Network) (p : string) (w : World) :
  ∃ v, decryptPrivateKey u net p w = (Returns v, w).
Proof.
  rewrite decryptPrivateKey_run.
  destruct (wallets w !! (u, net)) as [wl|]; [|by eexists].
  destruct (_ && _).
  - destruct (decryptLegacy_fails_closed (encrypted_private_key wl)
                (walletEncryptionKey w)) as [[v ->] _]. by eexists.
  - destruct (decryptWithPassword_fails_closed (encrypted_private_key wl) p u)
      as [[v ->] _]. by eexists.
Qed.

(** Two worlds with the same wallets and server key give the same secret. *)
Lemma decryptPrivateKey_frame (u : N) (net : Network) (p : string) (w w' : World) :
  wallets w' = wallets w → walletEncryptionKey w' = walletEncryptionKey w →
  (decryptPrivateKey u net p w').1 = (decryptPrivateKey u net p w).1.
Proof. intros Hw Hk. rewrite !decryptPrivateKey_run. cbn. by rewrite Hw, Hk. Qed.

Lemma same_tables_refl (w : World) : same_tables w w.
Proof. by repeat split. Qed.

Lemma same_tables_trans (w1 w2 w3 : World) :
  same_tables w1 w2 → same_tables w2 w3 → same_tables w1 w3.
Proof.
  intros (? & ? & ? & ? & ? & ?) (? & ? & ? & ? & ? & ?).
  repeat split; congruence.
Qed.

Lemma same_tables_sessions f (w : World) : same_tables w (set_sessions f w).
Proof. by repeat split. Qed.

Lemma same_tables_entropy f (w : World) : same_tables w (set_entropy_pos f w).
Proof. by repeat split. Qed.

(** [createSession] stores and returns a fresh session without keys, which
    expires [timeoutMs] after the clock. *)
Lemma createSession_spec (u : N) (timeoutMs : Z) (w : World) :
  ∃ key w',
    createSession u timeoutMs w
    = (Returns {| session_user := u; unlockedAt := clock w;
                  expiresAt := clock w + timeoutMs; encryptedKeys := ∅;
                  sessionKey := key |}, w') ∧
    map_get u (sessions w')
    = Some {| session_user := u; unlockedAt := clock w;
              expiresAt := clock w + timeoutMs; encryptedKeys := ∅;
              sessionKey := key |} ∧
    same_tables w w'.
Proof.
  unfold createSession, bind, gets, dateNow, gets, randomBytes, modify, ret. cbv beta.
  case_bool_decide as Hfull.
  - cbn [sessions set_sessions]. case_bool_decide as Hfull'.
    + destruct (oldest _) as [e|]; cbn [sessions set_sessions set_entropy_pos clock];
        (eexists _, _; split; [reflexivity|]);
        (split; [apply map_get_set_eq|by repeat split]).
    + cbn [sessions set_sessions set_entropy_pos clock].
      eexists _, _. split; [reflexivity|].
      split; [apply map_get_set_eq|by repeat split].
  - cbn [sessions set_sessions set_entropy_pos clock].
    eexists _, _. split; [reflexivity|].
    split; [apply map_get_set_eq|by repeat split].
Qed.

(** [storeKeyInSession] on a live session adds the entry that
    [sessionCrypto.encrypt] makes. *)
Lemma storeKeyInSession_live `{!CryptoCorrect} (u : N) (net : Network)
    (privateKey : string) (w : World) (s : Session) :
  sessions_ok w → map_get u (sessions w) = Some s → ¬ expiresAt s < clock w →
  ∃ iv e w',
    session_encrypt_with (sessionKey s) iv privateKey = Returns e ∧
    storeKeyInSession u net privateKey w = (Returns true, w') ∧
    map_get u (sessions w')
    = Some {| session_user := session_user s; unlockedAt := unlockedAt s;
              expiresAt := expiresAt s;
              encryptedKeys := <[net := e]> (encryptedKeys s);
              sessionKey := sessionKey s |} ∧
    same_tables w w'.
Proof.
  intros Hw Hs Hlive.
  pose proof (Hw _ (map_get_elem_of _ _ _ Hs)) as Hok. cbn [snd] in Hok.
  destruct Hok as [Hlen _].
  unfold storeKeyInSession, bind.
  destruct (getSession_cases u w)
    as [[Hn _]|[(s' & Hs' & Hexp & _)|(s' & Hs' & _ & ->)]]; [congruence| |].
  { rewrite Hs in Hs'. injection Hs' as <-. done. }
  rewrite Hs in Hs'. injection Hs' as <-.
  unfold session_encrypt, bind, randomBytes, lift.
  set (iv := map (entropy w) (seq (entropy_pos w) (N.to_nat IV_LENGTH))).
  assert (Hiv : length iv = 16%nat) by (unfold iv; by rewrite length_map, length_seq).
  assert (∃ e, session_encrypt_with (sessionKey s) iv privateKey = Returns e)
    as [e He].
  { unfold session_encrypt_with.
    destruct (gcm_encrypt_total (sessionKey s) iv (list_byte_of_string privateKey)
                Hlen Hiv) as [[ct tag] ->]. by eexists. }
  rewrite He. exists iv, e. eexists. split; [exact He|].
  split; [reflexivity|]. cbn [modify ret sessions set_sessions set_entropy_pos].
  split; [apply map_get_set_eq|by repeat split].
Qed.

End Unlock.

Section UnlockLoop.
Context `{NodeCrypto} `{!CryptoCorrect}.
Variables (u : N) (p : string) (w0 : World).

Lemma cache_wallets_spec (l : list (Network * WalletRow)) :
  ∀ w s, loop_state u w0 w s →
    ∃ w' keys',
      for_of l (cache_wallet u p) w = (Returns tt, w') ∧
      loop_state u w0 w' (with_keys s keys') ∧
      ∀ net, net ∈ l.*1 ∨ cached u p w0 (sessionKey s) (encryptedKeys s) net →
             cached u p w0 (sessionKey s) keys' net.
Proof.
  induction l as [|[n0 wl0] l IH]; intros w s (Hok & Hsame & Hs & Hlive).
  - exists w, (encryptedKeys s). split; [done|]. split.
    + by destruct s.
    + intros net [Hin|Hc]; [by apply elem_of_nil in Hin|done].
  - cbn [for_of]. unfold bind at 1. unfold cache_wallet at 1. unfold bind at 1.
    cbn [fst].
    destruct (decryptPrivateKey_returns u n0 p w) as [v Hv]. rewrite Hv.
    assert (Hv0 : (decryptPrivateKey u n0 p w0).1 = Returns v).
    { destruct Hsame as (Hwal & Hkey & _).
      rewrite <- (decryptPrivateKey_frame u n0 p w0 w Hwal Hkey). by rewrite Hv. }
    destruct (truthy v) eqn:Htruthy.
    + destruct v as [secret0|]; [|done]. cbn [default from_option].
      unfold Datatypes.id.
      assert (Hlive' : ¬ expiresAt s < clock w).
      { destruct Hsame as (_ & _ & -> & _). done. }
      destruct (storeKeyInSession_live u n0 secret0 w s Hok Hs Hlive')
        as (iv & e & w1 & Henc & Hstore & Hs1 & Hsame1).
      unfold bind at 1. rewrite Hstore. cbn [ret].
      destruct (IH w1 (with_keys s (<[n0 := e]> (encryptedKeys s)))) as
        (w' & keys' & Hloop & Hstate & Hcached).
      { split; [|split; [|split]].
        - pose proof (keeps_storeKeyInSession u n0 secret0 w Hok) as Hk.
          by rewrite Hstore in Hk.
        - by eapply same_tables_trans.
        - exact Hs1.
        - done. }
      exists w', keys'. split; [exact Hloop|]. split; [exact Hstate|].
      intros net Hnet. apply Hcached. cbn [with_keys sessionKey encryptedKeys].
      destruct (decide (net = n0)) as [->|Hne].
      * right. intros secret Hsecret _. exists iv, e.
        rewrite lookup_insert_eq. split; [done|]. congruence.
      * destruct Hnet as [[Heq|Hin]%elem_of_cons|Hc]; [done|by left|].
        right. intros secret Hsecret Hnonempty.
        destruct (Hc secret Hsecret Hnonempty) as (iv' & e' & He' & Henc').
        exists iv', e'. by rewrite lookup_insert_ne.
    + destruct (IH w s) as (w' & keys' & Hloop & Hstate & Hcached); [done|].
      exists w', keys'. split; [exact Hloop|]. split; [exact Hstate|].
      intros net Hnet. apply Hcached.
      destruct (decide (net = n0)) as [->|Hne].
      * right. intros secret Hsecret Hnonempty.
        rewrite Hv0 in Hsecret. injection Hsecret as ->.
        by rewrite (truthy_Some _ Hnonempty) in Htruthy.
      * destruct Hnet as [[Heq|Hin]%elem_of_cons|Hc]; [done|by left|by right].
Qed.

End UnlockLoop.

Section UnlockSpec.
Context `{NodeCrypto} `{!CryptoCorrect}.

Lemma getAllWallets_run (u : N) (w : World) :
  ∃ l, getAllWallets u w = (Returns l, w) ∧
       ∀ net wl, wallets w !! (u, net) = Some wl → net ∈ l.*1.
Proof.
  unfold getAllWallets, gets.
  destruct (wallets w !! (u, solana)) as [s|] eqn:Hs;
    destruct (wallets w !! (u, base)) as [b|] eqn:Hb;
    try destruct (wallet_id s <=? wallet_id b)%N;
    (eexists; split; [reflexivity|]); intros [] wl Hwl; cbn;
    first [congruence | by left | by right; left].
Qed.

Lemma recordLoginAttempt_run (u : N) (ok : bool) (w : World) :
  ∃ w', recordLoginAttempt u ok w = (Returns tt, w') ∧
        wallets w' = wallets w ∧ walletEncryptionKey w' = walletEncryptionKey w ∧
        clock w' = clock w ∧ sessions w' = sessions w ∧
        user_security w' = user_security w.
Proof. eexists. split; [reflexivity|]. by repeat split. Qed.

(** [unlock] with the right password, by a user who is not locked out:
    it succeeds, and afterwards [getPrivateKey] gives the secret of every
    wallet of the user that decrypts under the password to a secret. *)
Lemma unlock_caches_secrets (u : N) (p : string) (w : World) (sec : UserSecurityRow) :
  sessions_ok w →
  Z.of_nat (length (filter (failed_since u (clock w - 15 * 60 * 1000))
                      (login_attempts w))) < 5 →
  user_security w !! u = Some sec →
  verifyPassword p u (password_hash sec) = Returns true →
  ∃ w', unlock u p w = (Returns succeeded, w') ∧
        sessions_ok w' ∧ wallets w' = wallets w ∧ clock w' = clock w ∧
        ∀ net wl secret,
          wallets w !! (u, net) = Some wl →
          (decryptPrivateKey u net p w).1 = Returns (Some secret) →
          secret ≠ EmptyString →
          getPrivateKey u net w' = (Returns (Some secret), w').
Proof.
  intros Hok Hfew Hsec Hverify.
  destruct (isLockedOut_iff u w) as (Hw & lo & Hlo & Hiff).
  assert (Hunlocked : locked lo = false).
  { destruct (locked lo); [|done]. destruct Hiff as [Hiff _].
    specialize (Hiff eq_refl). lia. }
  unfold unlock. unfold bind at 1.
  destruct (isLockedOut u w) as [r wl0] eqn:E. cbn in Hw, Hlo. subst wl0 r.
  rewrite Hunlocked. unfold bind at 1. unfold getUserSecurity, gets at 1.
  rewrite Hsec. unfold bind at 1. unfold lift at 1. rewrite Hverify.
  cbn [negb].
  unfold bind at 1.
  destruct (recordLoginAttempt_run u true w)
    as (w1 & -> & Hwal1 & Hkey1 & Hclock1 & Hsess1 & Husr1).
  assert (Hok1 : sessions_ok w1) by (intros e; rewrite Hsess1; apply Hok).
  unfold bind at 1.
  destruct (createSession_spec u SESSION_TIMEOUT_MS w1)
    as (key & w2 & Hcreate & Hget2 & Hsame2).
  pose proof (keeps_createSession u SESSION_TIMEOUT_MS w1 Hok1) as Hok2.
  rewrite Hcreate in Hok2 |- *. cbn [snd] in Hok2.
  unfold bind at 1.
  destruct (getAllWallets_run u w2) as (l & -> & Hl).
  unfold bind at 1.
  assert (Hstate2 : loop_state u w2 w2
            {| session_user := u; unlockedAt := clock w1;
               expiresAt := clock w1 + SESSION_TIMEOUT_MS; encryptedKeys := ∅;
               sessionKey := key |}).
  { split; [exact Hok2|]. split; [apply same_tables_refl|]. split; [exact Hget2|].
    cbn. unfold SESSION_TIMEOUT_MS. destruct Hsame2 as (_ & _ & -> & _). lia. }
  destruct (cache_wallets_spec u p w2 l w2 _ Hstate2)
    as (w3 & keys & Hloop & (Hok3 & Hsame3 & Hget3 & Hlive3) & Hcached).
  change (for_of l _ w2) with (for_of l (cache_wallet u p) w2). rewrite Hloop.
  unfold logSecurityEvent, modify, bind, ret.
  eexists. split; [reflexivity|].
  destruct Hsame2 as (Hwal2 & Hkey2 & Hclock2 & _).
  destruct Hsame3 as (Hwal3 & Hkey3 & Hclock3 & _).
  split; [exact Hok3|]. split; [cbn; congruence|]. split; [cbn; congruence|].
  intros net wl secret Hwl Hsecret Hnonempty.
  assert (Hsecret2 : (decryptPrivateKey u net p w2).1 = Returns (Some secret)).
  { rewrite (decryptPrivateKey_frame u net p w w2); [done|congruence..]. }
  assert (Hin : net ∈ l.*1).
  { apply (Hl net wl). rewrite Hwal2, Hwal1. exact Hwl. }
  destruct (Hcached net (or_introl Hin) secret Hsecret2 Hnonempty)
    as (iv & e & He & Henc).
  set (w4 := set_security_log _ w3).
  assert (Hok4 : sessions_ok w4) by exact Hok3.
  destruct (getKeyFromSession_live u net w4 (with_keys _ keys) e Hok4 Hget3)
    as (iv' & data & Henc' & Hread).
  { cbn. rewrite Hclock3. exact Hlive3. }
  { exact He. }
  unfold getPrivateKey. rewrite Hread.
  cbn [with_keys sessionKey] in Henc, Henc'.
  apply session_decrypt_of_encrypt in Henc, Henc'. congruence.
Qed.

End UnlockSpec.

Section LegacyBlob.
Context `{NodeCrypto} `{!CryptoCorrect}.

(** What the server-key [encrypt] made, [decryptLegacy] decrypts. *)
Lemma decryptLegacy_encrypt (iv : Buffer) (serverKey text blob : string) :
  encrypt_with iv serverKey text = Returns blob →
  decryptLegacy blob serverKey = Returns (Some text).
Proof.
  unfold encrypt_with.
  destruct (cbc_encrypt _ _ _) as [ct|] eqn:Henc; [|done].
  intros [= <-]. unfold decryptLegacy.
  rewrite split_hex2, !from_hex_to_hex, (cbc_decrypt_encrypt _ _ _ _ Henc).
  cbn. by rewrite string_of_list_byte_of_string.
Qed.

End LegacyBlob.

(** C7. [migrateWallet] refuses a wallet whose version is 2 or more, and
    changes nothing then.  A wallet of a lower version that the server key
    decrypts to a secret is in the legacy format of two fields; the
    migration succeeds, and afterwards the wallet keeps its address, its
    blob is not in the legacy format any more, its version is 2, and
    [decryptWithPassword] of the blob under the new password gives the
    secret.  When the new password is the one the user unlocks with,
    [unlock] followed by [getPrivateKey] gives the secret too. *)
Theorem migrateWallet_legacy_wallet `{NodeCrypto} `{!CryptoCorrect}
    (w : World) (u : N) (net : Network) (newPassword : string) (wl : WalletRow) :
  wallets w !! (u, net) = Some wl →
  ((2 ≤ effective_version wl)%N →
   migrateWallet u net newPassword w
   = (Returns (failed_with "Wallet already using new encryption"), w)) ∧
  (∀ secret,
     (effective_version wl < 2)%N →
     decryptLegacy (encrypted_private_key wl) (walletEncryptionKey w)
       = Returns (Some secret) →
     secret ≠ EmptyString →
     isLegacyFormat (encrypted_private_key wl) = true ∧
     ∃ blob w',
       migrateWallet u net newPassword w = (Returns succeeded, w') ∧
       wallets w' !! (u, net)
         = Some {| wallet_id := wallet_id wl; wallet_address := wallet_address wl;
                   encrypted_private_key := blob; encryption_version := 2 |} ∧
       isLegacyFormat blob = false ∧
       decryptWithPassword blob newPassword u = Returns (Some secret) ∧
       (∀ sec,
          sessions_ok w →
          Z.of_nat (length (filter (failed_since u (clock w - 15 * 60 * 1000))
                              (login_attempts w))) < 5 →
          user_security w !! u = Some sec →
          verifyPassword newPassword u (password_hash sec) = Returns true →
          ∃ w'', unlock u newPassword w' = (Returns succeeded, w'') ∧
                 getPrivateKey u net w'' = (Returns (Some secret), w''))).
Proof.
  intros Hwl. split; [by apply migrateWallet_refuses|].
  intros secret Hv Hdec Hne. split; [by eapply decryptLegacy_format|].
  destruct (migrateWallet_migrates u net newPassword w wl secret Hwl Hv Hdec Hne)
    as (blob & w' & Hrun & Hrow & Hfmt & Hblob & _ & Husr & Hsess & Hatt & Hclock & _).
  exists blob, w'. do 4 (split; [done|]).
  intros sec Hok Hfew Hsec Hverify.
  destruct (unlock_caches_secrets u newPassword w' sec) as (w'' & Hunlock & _ & _ & _ & Hkeys).
  - intros e. rewrite Hsess. apply Hok.
  - by rewrite Hclock, Hatt.
  - by rewrite Husr.
  - done.
  - exists w''. split; [done|]. eapply Hkeys; [exact Hrow| |done].
    rewrite decryptPrivateKey_run, Hrow. cbn [fst encrypted_private_key].
    by rewrite Hblob.
Qed.

Lemma sessions_ok_no_session `{NodeCrypto} (w : World) : sessions w = [] → sessions_ok w.
Proof. intros Hs e. rewrite Hs. by intros ?%elem_of_nil. Qed.

Lemma world_legacy_wallet : wallets world_legacy !! (42%N, solana) = Some legacy_row.
Proof. vm_compute. reflexivity. Qed.

Lemma world_legacy_user : user_security world_legacy !! 42%N = Some user42.
Proof. vm_compute. reflexivity. Qed.

Lemma world_legacy_version : (effective_version legacy_row < 2)%N.
Proof. vm_compute. reflexivity. Qed.

Lemma world_legacy_decrypts :
  decryptLegacy (encrypted_private_key legacy_row) (walletEncryptionKey world_legacy)
  = Returns (Some legacy_secret).
Proof. vm_compute. reflexivity. Qed.

Lemma world_legacy_few_failures :
  Z.of_nat (length (filter (failed_since 42 (clock world_legacy - 15 * 60 * 1000))
                      (login_attempts world_legacy))) < 5.
Proof. vm_compute. reflexivity. Qed.

Lemma user42_password : verifyPassword "abcdef" 42 (password_hash user42) = Returns true.
Proof. vm_compute. reflexivity. Qed.

Lemma legacy_secret_nonempty : legacy_secret ≠ EmptyString.
Proof. done. Qed.

Lemma world_legacy_no_session : sessions world_legacy = [].
Proof. reflexivity. Qed.

Lemma migrateWallet_legacy_wallet_witness :
  ∃ w' w'',
    migrateWallet 42 solana "abcdef" world_legacy = (Returns succeeded, w') ∧
    unlock 42 "abcdef" w' = (Returns succeeded, w'') ∧
    getPrivateKey 42 solana w'' = (Returns (Some legacy_secret), w'').
Proof.
  destruct (migrateWallet_legacy_wallet world_legacy 42 solana "abcdef" legacy_row
              world_legacy_wallet) as [_ Hmigrate].
  destruct (Hmigrate legacy_secret world_legacy_version world_legacy_decrypts
              legacy_secret_nonempty)
    as (_ & blob & w' & Hrun & _ & _ & _ & Hunlock).
  destruct (Hunlock user42 (sessions_ok_no_session _ world_legacy_no_session)
              world_legacy_few_failures world_legacy_user user42_password)
    as (w'' & Hw'' & Hkey).
  exists w', w''. split; [exact Hrun|]. split; [exact Hw''|exact Hkey].
Defined.

Lemma sessions_ok_world_unlocked : sessions_ok world_unlocked.
Proof.
  destruct (unlock_caches_secrets 42 "abcdef" world_legacy user42
              (sessions_ok_no_session _ world_legacy_no_session)
              world_legacy_few_failures world_legacy_user user42_password)
    as (w' & Hrun & Hok & _).
  unfold world_unlocked. by rewrite Hrun.
Qed.

Lemma world_unlocked_solana_live :
  ∃ s, map_get 42 (sessions world_unlocked) = Some s ∧
       ¬ expiresAt s < clock world_unlocked ∧ is_Some (encryptedKeys s !! solana).
Proof.
  eexists. split; [vm_compute; reflexivity|].
  split; [intros Hlt; vm_compute in Hlt; discriminate|]. vm_compute. by eexists.
Qed.

Lemma world_unlocked_base_not_live :
  ¬ ∃ s, map_get 42 (sessions world_unlocked) = Some s ∧
         ¬ expiresAt s < clock world_unlocked ∧ is_Some (encryptedKeys s !! base).
Proof.
  intros (s & Hs & _ & [e He]). vm_compute in Hs. injection Hs as <-.
  vm_compute in He. discriminate.
Qed.

Lemma getPrivateKey_iff_live_session_witness :
  (∃ secret, (getPrivateKey 42 solana world_unlocked).1 = Returns (Some secret)) ∧
  (getPrivateKey 42 base world_unlocked).1 = Returns None.
Proof.
  destruct (getPrivateKey_iff_live_session world_unlocked 42 solana
              sessions_ok_world_unlocked) as (Hiff & _).
  destruct (getPrivateKey_iff_live_session world_unlocked 42 base
              sessions_ok_world_unlocked) as (_ & Hnone & _).
  split.
  - apply Hiff. exact world_unlocked_solana_live.
  - apply Hnone. exact world_unlocked_base_not_live.
Defined.

(** ** Change of password *)

Section ChangePassword.
Context `{NodeCrypto} `{!CryptoCorrect}.
Variables (u : N) (cur new : string).

Lemma decryptPrivateKey_row (net : Network) (w w' : World) :
  wallets w' !! (u, net) = wallets w !! (u, net) →
  walletEncryptionKey w' = walletEncryptionKey w →
  (decryptPrivateKey u net cur w').1 = (decryptPrivateKey u net cur w).1.
Proof. intros Hw Hk. rewrite !decryptPrivateKey_run. cbn. by rewrite Hw, Hk. Qed.

Lemma rekey_wallet_step (net : Network) (wl : WalletRow) (w : World) :
  wallets w !! (u, net) = Some wl →
  ∃ w', rekey_wallet u cur new (net, wl) w = (Returns tt, w') ∧
        same_custody w w' ∧
        (∀ k, k ≠ (u, net) → wallets w' !! k = wallets w !! k) ∧
        rekeyed u cur new w w' net wl.
Proof.
  intros Hwl. unfold rekey_wallet. unfold bind at 1. cbn [fst snd].
  destruct (decryptPrivateKey_returns u net cur w) as [v Hv]. rewrite Hv.
  destruct (truthy v) eqn:Htruthy.
  - destruct v as [secret|]; [|done]. cbn [default from_option]. unfold Datatypes.id.
    unfold bind at 1. rewrite encryptWithPassword_run.
    destruct (encryptWithPassword_with_returns (drawn w SALT_LENGTH)
      (drawn (set_entropy_pos (λ n, (n + N.to_nat SALT_LENGTH)%nat) w) IV_LENGTH)
      secret new u) as (ct & tag & _ & Hblob); [by rewrite drawn_length|].
    rewrite Hblob.
    unfold bind, saveWallet, setWalletEncryptionVersion, modify.
    cbn [wallets set_entropy_pos]. rewrite Hwl.
    eexists. split; [reflexivity|].
    cbn [wallets set_wallets set_entropy_pos].
    split; [by repeat split|]. split.
    + intros k Hk. by rewrite lookup_alter_ne, lookup_insert_ne.
    + split.
      * intros v' Hv'. rewrite Hv in Hv'. cbn in Hv'. injection Hv' as <-.
        by rewrite Htruthy.
      * intros secret' Hsecret' _. rewrite Hv in Hsecret'. cbn in Hsecret'.
        injection Hsecret' as <-. eexists. split.
        -- cbn [wallets set_wallets set_entropy_pos].
           by rewrite lookup_alter_eq, lookup_insert_eq.
        -- eapply decrypt_of_encrypt, Hblob.
  - exists w. split; [done|]. split; [by repeat split|]. split; [done|]. split.
    + intros _ _ _. exact Hwl.
    + intros secret Hsecret Hnonempty. rewrite Hv in Hsecret. cbn in Hsecret.
      injection Hsecret as ->. by rewrite (truthy_Some _ Hnonempty) in Htruthy.
Qed.

Lemma rekey_wallets_spec (l : list (Network * WalletRow)) :
  NoDup l.*1 →
  ∀ w, (∀ net wl, (net, wl) ∈ l → wallets w !! (u, net) = Some wl) →
    ∃ w', for_of l (rekey_wallet u cur new) w = (Returns tt, w') ∧
          same_custody w w' ∧
          (∀ k, (∀ net, net ∈ l.*1 → k ≠ (u, net)) → wallets w' !! k = wallets w !! k) ∧
          (∀ net wl, (net, wl) ∈ l → rekeyed u cur new w w' net wl).
Proof.
  induction l as [|[n0 wl0] l IH]; intros Hnodup w Hrows.
  - exists w. split; [done|]. split; [by repeat split|]. split; [done|].
    by intros net wl ?%elem_of_nil.
  - apply NoDup_cons in Hnodup as [Hfresh Hnodup]. cbn [for_of].
    destruct (rekey_wallet_step n0 wl0 w) as (w1 & Hstep & Hsame1 & Hother1 & Hrekeyed1).
    { apply Hrows. left. }
    unfold bind at 1. rewrite Hstep.
    assert (Hne : ∀ net, net ∈ l.*1 → (u, net) ≠ (u, n0)).
    { intros net Hin [= ->]. done. }
    destruct (IH Hnodup w1) as (w' & Hloop & Hsame & Hother & Hrekeyed).
    { intros net wl Hin. rewrite Hother1.
      - apply Hrows. by right.
      - apply Hne. apply list_elem_of_fmap. by exists (net, wl). }
    exists w'. split; [exact Hloop|]. split.
    { destruct Hsame1 as (? & ? & ? & ? & ? & ?), Hsame as (? & ? & ? & ? & ? & ?).
      repeat split; congruence. }
    split.
    { intros k Hk. rewrite Hother, Hother1; [done| |].
      - apply Hk. left.
      - intros net Hin. apply Hk. by right. }
    intros net wl [[= -> ->]|Hin]%elem_of_cons.
    + assert (Hkeep : wallets w' !! (u, n0) = wallets w1 !! (u, n0)).
      { apply Hother. intros net Hin Heq. by apply (Hne net Hin). }
      destruct Hrekeyed1 as [Hleft Hnew]. split.
      * intros v Hv Hfalsy. rewrite Hkeep. by eapply Hleft.
      * intros secret Hsecret Hnonempty. rewrite Hkeep. by apply Hnew.
    + assert (Hnet : net ∈ l.*1) by (apply list_elem_of_fmap; by exists (net, wl)).
      assert (Hsame_row : (decryptPrivateKey u net cur w1).1
                          = (decryptPrivateKey u net cur w).1).
      { apply decryptPrivateKey_row; [|by destruct Hsame1].
        apply Hother1. by apply Hne. }
      destruct (Hrekeyed net wl Hin) as [Hleft Hnew]. split.
      * intros v Hv. apply Hleft. by rewrite Hsame_row.
      * intros secret Hsecret. apply Hnew. by rewrite Hsame_row.
Qed.

End ChangePassword.

Section ChangePasswordSpec.
Context `{NodeCrypto} `{!CryptoCorrect}.

Lemma getAllWallets_rows (u : N) (w : World) :
  ∃ l, getAllWallets u w = (Returns l, w) ∧ NoDup l.*1 ∧
       ∀ net wl, (net, wl) ∈ l ↔ wallets w !! (u, net) = Some wl.
Proof.
  unfold getAllWallets, gets.
  destruct (wallets w !! (u, solana)) as [s|] eqn:Hs;
    destruct (wallets w !! (u, base)) as [b|] eqn:Hb;
    try destruct (wallet_id s <=? wallet_id b)%N;
    (eexists; split; [reflexivity|]); cbn;
    (split; [by apply (bool_decide_unpack _)|]);
    intros [] wl; rewrite ?Hs, ?Hb, ?elem_of_cons, ?elem_of_nil;
    (split; [intros Hin; repeat destruct Hin as [Hin|Hin]; first [done|congruence]
            |intros [= <-]; auto]).
Qed.

Lemma changePassword_spec (w : World) (u : N) (cur new : string)
    (sec : UserSecurityRow) :
  user_security w !! u = Some sec →
  verifyPassword cur u (password_hash sec) = Returns true →
  (6 ≤ js_length new)%nat →
  ∃ w' salt,
    changePassword u cur new w = (Returns succeeded, w') ∧
    password_hash <$> user_security w' !! u = Some (hashPassword_with salt new u) ∧
    map_get u (sessions w') = None ∧
    (∀ net wl, wallets w !! (u, net) = Some wl → rekeyed u cur new w w' net wl) ∧
    (∀ k, k.1 ≠ u → wallets w' !! k = wallets w !! k).
Proof.
  intros Hsec Hverify Hlen.
  unfold changePassword. unfold bind at 1. unfold getUserSecurity, gets at 1.
  rewrite Hsec. unfold bind at 1. unfold lift at 1. rewrite Hverify. cbn [negb].
  rewrite bool_decide_eq_false_2 by lia.
  unfold bind at 1.
  destruct (getAllWallets_rows u w) as (l & -> & Hnodup & Hl).
  destruct (rekey_wallets_spec u cur new l Hnodup w) as
    (w1 & Hloop & Hsame & Hother & Hrekeyed).
  { intros net wl. apply Hl. }
  unfold bind at 1.
  change (for_of l _ w) with (for_of l (rekey_wallet u cur new) w). rewrite Hloop.
  destruct Hsame as (_ & _ & Husr & _).
  eexists _, (drawn w1 SALT_LENGTH). split; [reflexivity|].
  cbn [user_security sessions wallets set_user_security set_security_log set_sessions
       set_entropy_pos].
  split; [|split; [|split]].
  - rewrite lookup_alter_eq, Husr, Hsec. reflexivity.
  - apply map_get_delete_eq.
  - intros net wl Hwl. apply Hrekeyed. by apply Hl.
  - intros [u' net] Hk. apply Hother. intros net' _ [= -> _]. done.
Qed.

End ChangePasswordSpec.

(** C9. [changePassword] with the right current password and a new
    password of six characters or more succeeds: the stored hash becomes a
    hash of the new password and the session is gone, whether or not the
    user's wallets decrypt.  A wallet that does not decrypt to a secret
    under the current password keeps its row, with its blob and its
    version; a wallet that decrypts holds the same secret afterwards under
    the new password, at version 2.  The wallets of other users are
    untouched. *)
Theorem changePassword_leaves_undecryptable_wallets `{NodeCrypto} `{!CryptoCorrect}
    (w : World) (u : N) (cur new : string) (sec : UserSecurityRow) :
  user_security w !! u = Some sec →
  verifyPassword cur u (password_hash sec) = Returns true →
  (6 ≤ js_length new)%nat →
  ∃ w' salt,
    changePassword u cur new w = (Returns succeeded, w') ∧
    password_hash <$> user_security w' !! u = Some (hashPassword_with salt new u) ∧
    map_get u (sessions w') = None ∧
    (∀ net wl, wallets w !! (u, net) = Some wl →
       (∀ v, (decryptPrivateKey u net cur w).1 = Returns v → truthy v = false →
             wallets w' !! (u, net) = Some wl) ∧
       (∀ secret, (decryptPrivateKey u net cur w).1 = Returns (Some secret) →
                  secret ≠ EmptyString →
                  ∃ blob,
                    wallets w' !! (u, net)
                    = Some {| wallet_id := wallet_id wl;
                              wallet_address := wallet_address wl;
                              encrypted_private_key := blob;
                              encryption_version := 2 |} ∧
                    decryptWithPassword blob new u = Returns (Some secret))) ∧
    (∀ k, k.1 ≠ u → wallets w' !! k = wallets w !! k).
Proof. apply changePassword_spec. Qed.

Lemma world_two_wallets_user : user_security world_two_wallets !! 42%N = Some user42.
Proof. vm_compute. reflexivity. Qed.

Lemma world_two_wallets_solana :
  wallets world_two_wallets !! (42%N, solana) = Some solana_row.
Proof. vm_compute. reflexivity. Qed.

Lemma world_two_wallets_base :
  wallets world_two_wallets !! (42%N, base) = Some base_row.
Proof. vm_compute. reflexivity. Qed.

Lemma world_two_wallets_solana_decrypts :
  (decryptPrivateKey 42 solana "abcdef" world_two_wallets).1
  = Returns (Some legacy_secret).
Proof. vm_compute. reflexivity. Qed.

Lemma world_two_wallets_base_fails :
  (decryptPrivateKey 42 base "abcdef" world_two_wallets).1 = Returns None.
Proof. vm_compute. reflexivity. Qed.

Lemma new_password_length : (6 ≤ js_length "correct horse")%nat.
Proof. vm_compute. lia. Qed.

Lemma changePassword_leaves_undecryptable_wallets_witness :
  ∃ w' blob,
    changePassword 42 "abcdef" "correct horse" world_two_wallets
      = (Returns succeeded, w') ∧
    wallets w' !! (42%N, base) = Some base_row ∧
    wallets w' !! (42%N, solana)
      = Some {| wallet_id := wallet_id solana_row;
                wallet_address := wallet_address solana_row;
                encrypted_private_key := blob; encryption_version := 2 |} ∧
    decryptWithPassword blob "correct horse" 42 = Returns (Some legacy_secret).
Proof.
  destruct (changePassword_leaves_undecryptable_wallets world_two_wallets 42
              "abcdef" "correct horse" user42 world_two_wallets_user
              user42_password new_password_length)
    as (w' & salt & Hrun & _ & _ & Hwallets & _).
  destruct (Hwallets base base_row world_two_wallets_base) as [Hkept _].
  destruct (Hwallets solana solana_row world_two_wallets_solana) as [_ Hnew].
  destruct (Hnew legacy_secret world_two_wallets_solana_decrypts
              legacy_secret_nonempty) as (blob & Hrow & Hblob).
  exists w', blob. split; [exact Hrun|]. split.
  - exact (Hkept None world_two_wallets_base_fails eq_refl).
  - split; [exact Hrow|exact Hblob].
Defined.

(** * More properties of the code *)

(** ** Orders: creation, cancellation and listings *)

Lemma filter_none {A} (P : A → Prop) `{∀ x, Decision (P x)} (l : list A) :
  (∀ x, x ∈ l → ¬ P x) → filter P l = [].
Proof.
  induction l as [|a l IH]; intros Hn; [done|].
  rewrite filter_cons, decide_False by (apply Hn; left).
  apply IH. intros x Hx. apply Hn. by right.
Qed.

Lemma filter_all {A} (P : A → Prop) `{∀ x, Decision (P x)} (l : list A) :
  (∀ x, x ∈ l → P x) → filter P l = l.
Proof.
  induction l as [|a l IH]; intros Hn; [done|].
  rewrite filter_cons, decide_True by (apply Hn; left).
  f_equal. apply IH. intros x Hx. apply Hn. by right.
Qed.

(** A filter sees through a rewriting of the rows that does not change
    what it selects. *)
Lemma filter_map_same {A} (P : A → Prop) `{∀ x, Decision (P x)} (g : A → A) (l : list A) :
  (∀ x, x ∈ l → g x = x ∨ (¬ P x ∧ ¬ P (g x))) → filter P (map g l) = filter P l.
Proof.
  induction l as [|a l IH]; intros Hg; [done|]. cbn [map].
  rewrite !filter_cons, IH by (intros x Hx; apply Hg; by right).
  destruct (Hg a) as [->|[Hn Hn']]; [left|done|].
  by rewrite !decide_False.
Qed.

Lemma map_fixed {A} (g : A → A) (l : list A) :
  (∀ x, x ∈ l → g x = x) → map g l = l.
Proof.
  induction l as [|a l IH]; intros Hg; [done|]. cbn [map].
  rewrite Hg by left. f_equal. apply IH. intros x Hx. apply Hg. by right.
Qed.

Lemma set_trigger_orders_same (f : list TriggerOrder → list TriggerOrder) (w : World) :
  f (trigger_orders w) = trigger_orders w → set_trigger_orders f w = w.
Proof. intros Hf. destruct w. unfold set_trigger_orders. cbn in *. by f_equal. Qed.





Lemma cancel_row_cases (userId : N) (o : TriggerOrder) :
  (telegramUserId o = userId ∧ status o = active ∧
   telegramUserId (cancel_row userId o) = userId ∧
   status (cancel_row userId o) = cancelled) ∨
  (¬ (telegramUserId o = userId ∧ status o = active) ∧ cancel_row userId o = o).
Proof.
  unfold cancel_row.
  destruct (bool_decide (telegramUserId o = userId)) eqn:Eu;
    destruct (bool_decide (status o = active)) eqn:Es; cbn [andb].
  - apply bool_decide_eq_true in Eu, Es. by left.
  - apply bool_decide_eq_false in Es. right. split; [tauto|done].
  - apply bool_decide_eq_false in Eu. right. split; [tauto|done].
  - apply bool_decide_eq_false in Eu. right. split; [tauto|done].
Qed.

Lemma newest_first_nil : newest_first [] = [].
Proof. reflexivity. Qed.

(** X2. [cancelAllUserOrders] cancels the active orders of the user and
    returns their number.  Afterwards the user has no active order, a
    second call finds nothing to cancel and changes nothing, the orders of
    the user that were not active and the orders of the other users are as
    they were, and every other user has the active orders they had. *)
Theorem cancelAllUserOrders_cancels_active_orders (userId : N) (w : World) :
  let w' := (cancelAllUserOrders userId w).2 in
  (cancelAllUserOrders userId w).1
  = Returns (Z.of_nat (length (filter
      (λ o, telegramUserId o = userId ∧ status o = active) (trigger_orders w)))) ∧
  trigger_orders w' = map (cancel_row userId) (trigger_orders w) ∧
  (∀ o, o ∈ trigger_orders w →
        if bool_decide (telegramUserId o = userId ∧ status o = active)
        then status (cancel_row userId o) = cancelled ∧
             id (cancel_row userId o) = id o
        else cancel_row userId o = o) ∧
  (getUserActiveOrders userId w').1 = Returns [] ∧
  cancelAllUserOrders userId w' = (Returns 0, w') ∧
  (∀ other, other ≠ userId →
     (getUserActiveOrders other w').1 = (getUserActiveOrders other w).1).
Proof.
  intros w'. subst w'. unfold cancelAllUserOrders. rewrite !update_where_run.
  cbn [fst snd trigger_orders set_trigger_orders].
  fold (cancel_row userId).
  change (λ o, if bool_decide (telegramUserId o = userId) && bool_decide (status o = active)
               then update_order o cancelled (triggeredAt o) (executedAt o) (txHash o)
                      (executionPrice o) (error o)
               else o) with (cancel_row userId).
  split; [|split; [reflexivity|split; [|split; [|split]]]].
  - do 2 f_equal. f_equal. apply list_filter_iff. intros o.
    rewrite andb_true_iff, !bool_decide_eq_true. tauto.
  - intros o _. case_bool_decide as Hc.
    + destruct (cancel_row_cases userId o) as [(_ & _ & _ & Hs)|[Hn _]]; [|done].
      split; [exact Hs|]. unfold cancel_row.
      by destruct (_ && _).
    + destruct (cancel_row_cases userId o) as [(Hu & Hs & _)|[_ Heq]]; [tauto|done].
  - unfold getUserActiveOrders, gets. cbn [fst trigger_orders set_trigger_orders].
    rewrite filter_none; [by rewrite newest_first_nil|].
    intros o (o0 & -> & _)%list_elem_of_fmap [Hu Hs].
    destruct (cancel_row_cases userId o0) as [(_ & _ & _ & Hc)|[Hn Heq]].
    + congruence.
    + rewrite Heq in Hu, Hs. tauto.
  - assert (Hnone : filter (λ o, (bool_decide (telegramUserId o = userId)
                                  && bool_decide (status o = active)) = true)
                      (map (cancel_row userId) (trigger_orders w)) = []).
    { apply filter_none.
      intros o (o0 & -> & _)%list_elem_of_fmap
        [Hu%bool_decide_eq_true Hs%bool_decide_eq_true]%andb_true_iff.
      destruct (cancel_row_cases userId o0) as [(_ & _ & _ & Hc)|[Hn Heq]].
      - congruence.
      - rewrite Heq in Hu, Hs. tauto. }
    rewrite Hnone. cbn [length]. f_equal.
    apply set_trigger_orders_same. cbn [trigger_orders set_trigger_orders].
    apply map_fixed. intros o (o0 & -> & _)%list_elem_of_fmap.
    destruct (cancel_row_cases userId o0) as [(_ & _ & Hu & Hc)|[Hn Heq]].
    + destruct (cancel_row_cases userId (cancel_row userId o0))
        as [(_ & Hs & _)|[_ Heq']]; [congruence|done].
    + by rewrite !Heq.
  - intros other Hne. unfold getUserActiveOrders, gets.
    cbn [fst trigger_orders set_trigger_orders]. do 2 f_equal.
    apply filter_map_same. intros o _.
    destruct (cancel_row_cases userId o) as [(Hu & _ & Hu' & _)|[_ Heq]]; [|by left].
    right. split; intros [Ho _]; congruence.
Qed.

(** X3. [getTokensWithActiveOrders] lists, once each, the pairs of a
    network and a token address that some active order has; it lists
    nothing exactly when no order is active, so that the early return of
    the scheduler on an empty list skips no order. *)
Theorem getTokensWithActiveOrders_covers_active_orders (w : World) :
  ∃ tokens,
    getTokensWithActiveOrders w = (Returns tokens, w) ∧
    NoDup tokens ∧
    (∀ net address,
       (net, address) ∈ tokens ↔
       ∃ o, o ∈ trigger_orders w ∧ status o = active ∧
            network o = net ∧ tokenAddress o = address) ∧
    (tokens = [] ↔ (getActiveTriggerOrders w).1 = Returns []).
Proof.
  eexists. split; [reflexivity|]. split; [apply NoDup_remove_dups|]. split.
  - intros net address. rewrite elem_of_remove_dups, list_elem_of_fmap. split.
    + intros (o & [= -> ->] & [Hs Hin]%list_elem_of_filter). by exists o.
    + intros (o & Hin & Hs & <- & <-). exists o. split; [done|].
      by apply list_elem_of_filter.
  - unfold getActiveTriggerOrders, gets. cbn [fst].
    destruct (filter (λ o, status o = active) (trigger_orders w)) as [|o l] eqn:E.
    + done.
    + split; [|by intros [=]]. intros Hnil.
      assert (Hin : (network o, tokenAddress o)
                    ∈ remove_dups (map (λ o, (network o, tokenAddress o)) (o :: l))).
      { apply elem_of_remove_dups. cbn [map]. left. }
      rewrite Hnil in Hin. by apply elem_of_nil in Hin.
Qed.

#[local] Instance not_older_trans : Transitive not_older.
Proof. intros a b c. unfold not_older. lia. Qed.

#[local] Instance not_older_total : Total not_older.
Proof. intros a b. unfold not_older. lia. Qed.

(** X4. [getUserOrderHistory] with a limit that is not negative returns
    the most recent orders of the user, newest first and as many as the
    limit allows: what it leaves out is not more recent than anything it
    returns.  With a negative limit it returns all of them. *)
Theorem getUserOrderHistory_most_recent (userId : N) (limit : Z) (w : World) :
  let all := filter (λ o, telegramUserId o = userId) (trigger_orders w) in
  ∃ rows rest,
    getUserOrderHistory userId limit w = (Returns rows, w) ∧
    rows ++ rest ≡ₚ all ∧
    StronglySorted not_older rows ∧
    (∀ a b, a ∈ rows → b ∈ rest → createdAt b ≤ createdAt a) ∧
    (0 ≤ limit → length rows = Nat.min (Z.to_nat limit) (length all)) ∧
    (limit < 0 → rest = []).
Proof.
  intros all. unfold getUserOrderHistory, gets. fold all.
  pose proof (StronglySorted_merge_sort not_older all) as Hsorted.
  pose proof (merge_sort_Permutation not_older all) as Hperm.
  fold (newest_first all) in Hsorted, Hperm.
  case_bool_decide as Hneg.
  - exists (newest_first all), []. split; [done|].
    rewrite app_nil_r. split; [done|]. split; [done|].
    split; [by intros a b _ ?%elem_of_nil|]. split; [lia|done].
  - exists (take (Z.to_nat limit) (newest_first all)),
           (drop (Z.to_nat limit) (newest_first all)).
    split; [done|]. rewrite take_drop. split; [done|].
    rewrite <- (take_drop (Z.to_nat limit) (newest_first all)) in Hsorted.
    split; [by apply StronglySorted_app_1_l in Hsorted|].
    split; [intros a b Ha Hb;
            apply (StronglySorted_app_1_elem_of _ _ _ a b Hsorted Ha Hb)|].
    split; [|lia]. intros _. rewrite length_take. by rewrite Hperm.
Qed.

(** ** A pass of the scheduler *)

Section Pass.
Context `{NodeCrypto}.
Variable decodesKey : Network → string → bool.
Variable swap : TriggerOrder → result SwapResult.

(** Reading a key leaves the orders, the clock and the notifications. *)
Lemma getPrivateKey_orders (u : N) (net : Network) (w : World) :
  ∃ v w', getPrivateKey u net w = (Returns v, w') ∧
          trigger_orders w' = trigger_orders w ∧ clock w' = clock w ∧
          notifications w' = notifications w.
Proof.
  unfold getPrivateKey, getKeyFromSession, bind.
  destruct (getSession_cases u w) as [[_ ->]|[(s & _ & _ & ->)|(s & _ & _ & ->)]].
  - by eexists _, _.
  - by eexists _, _.
  - destruct (encryptedKeys s !! net) as [e|]; [|by eexists _, _].
    destruct (String.eqb e EmptyString); [by eexists _, _|].
    unfold lift.
    destruct (session_decrypt_fails_closed (sessionKey s) e) as [[v ->] _].
    by eexists _, _.
Qed.

Lemma hasKeypair_orders (u : N) (net : Network) (w : World) :
  ∃ b w', hasKeypair decodesKey u net w = (Returns b, w') ∧
          trigger_orders w' = trigger_orders w ∧ clock w' = clock w ∧
          notifications w' = notifications w.
Proof.
  unfold hasKeypair, bind.
  destruct (getPrivateKey_orders u net w) as (v & w' & -> & Ho & Hc & Hn).
  destruct (negb (truthy v)); by eexists _, _.
Qed.

Lemma map_map_rows (c : TriggerOrder → bool) (f g : TriggerOrder → TriggerOrder)
    (l : list TriggerOrder) :
  (∀ r, c (f r) = c r) →
  map (λ r, if c r then g r else r) (map (λ r, if c r then f r else r) l)
  = map (λ r, if c r then g (f r) else r) l.
Proof.
  intros Hc. rewrite map_map. apply map_ext. intros r.
  destruct (c r) eqn:E; [by rewrite Hc, E|by rewrite E].
Qed.

(** [executeOrder] never throws, and it leaves the rows of the order's id
    either ['executed'] or ['failed']; the other rows are as they were. *)
Lemma executeOrder_rows (o : TriggerOrder) (currentPrice : float) (w : World) :
  ∃ st tx px err w',
    executeOrder decodesKey swap o currentPrice w = (Returns tt, w') ∧
    (st = executed ∨ st = failed) ∧
    trigger_orders w'
    = map (λ r, if bool_decide (id r = id o)
                then settled (clock w) st tx px err r else r) (trigger_orders w) ∧
    clock w' = clock w.
Proof.
  unfold executeOrder. unfold bind at 1.
  unfold markOrderTriggered, bind at 1, dateNow, gets, bind at 1.
  rewrite update_where_run.
  cbn [ret]. unfold try_catch_in. unfold bind at 1.
  set (w1 := set_trigger_orders _ w).
  destruct (hasKeypair_orders (telegramUserId o) (network o) w1)
    as (b & w2 & -> & Ho2 & Hc2 & _).
  assert (Hfail : ∀ msg w3, trigger_orders w3 = trigger_orders w1 → clock w3 = clock w →
    ∃ st tx px err w',
      (markOrderFailed (id o) (or_else (Some msg) "Unknown error") ;;
       notifyOrderFailed o (or_else (Some msg) "Unknown error")) w3 = (Returns tt, w') ∧
      (st = executed ∨ st = failed) ∧
      trigger_orders w'
      = map (λ r, if bool_decide (id r = id o)
                  then settled (clock w) st tx px err r else r) (trigger_orders w) ∧
      clock w' = clock w).
  { intros msg w3 Ho3 Hc3. exists failed, None, None, (Some (or_else (Some msg) "Unknown error")).
    eexists. split; [reflexivity|]. split; [by right|].
    cbn [trigger_orders set_trigger_orders set_notifications clock].
    rewrite Ho3. unfold w1. cbn [trigger_orders set_trigger_orders].
    split; [|done]. rewrite map_map_rows by done. reflexivity. }
  destruct b; cbn [negb].
  - unfold bind at 1, lift at 1.
    destruct (swap o) as [result|msg].
    + destruct (swap_success result).
      * exists executed,
          (Some (or_else (signature result) (or_else (hash result) EmptyString))),
          (Some currentPrice), None.
        eexists. split; [reflexivity|]. split; [by left|].
        cbn [trigger_orders set_trigger_orders set_notifications clock].
        rewrite Ho2, Hc2. unfold w1. cbn [trigger_orders set_trigger_orders clock].
        split; [|done]. rewrite map_map_rows by done. reflexivity.
      * unfold throw. apply Hfail; [done|]. by rewrite Hc2.
    + apply Hfail; [done|]. by rewrite Hc2.
  - unfold throw. apply Hfail; [done|]. by rewrite Hc2.
Qed.


Lemma hit_id (priceMap : gmap string PriceData) (l : list TriggerOrder)
    (r r' : TriggerOrder) :
  id r = id r' → hit priceMap l r = hit priceMap l r'.
Proof. intros Heq. unfold hit. by rewrite Heq. Qed.

Lemma hit_true (priceMap : gmap string PriceData) (l : list TriggerOrder)
    (r : TriggerOrder) :
  hit priceMap l r = true →
  ∃ o, o ∈ l ∧ is_Some (matched priceMap o) ∧ id o = id r.
Proof.
  unfold hit. intros (o & Hin & [Hm Hid]%andb_true_iff)%existsb_exists.
  apply bool_decide_eq_true in Hm, Hid. exists o.
  split; [by apply list_elem_of_In|done].
Qed.

(** The loop of a pass over the orders [l]: it never throws; the rows
    whose id is the id of a matched order of [l] end ['executed'] or
    ['failed'], and the other rows are as they were. *)
Lemma pass_rows (priceMap : gmap string PriceData) (l : list TriggerOrder) :
  ∀ w, ∃ h w',
    for_of l (λ order,
      match matched priceMap order with
      | Some currentPrice => executeOrder decodesKey swap order currentPrice
      | None => ret tt
      end) w = (Returns tt, w') ∧
    trigger_orders w' = map h (trigger_orders w) ∧
    (∀ r, id (h r) = id r) ∧
    (∀ r, hit priceMap l r = true → status (h r) = executed ∨ status (h r) = failed) ∧
    (∀ r, hit priceMap l r = false → h r = r).
Proof.
  induction l as [|o l IH]; intros w.
  - exists (λ r, r), w. split; [done|]. split; [by rewrite map_id|]. by repeat split.
  - cbn [for_of]. unfold bind at 1.
    destruct (matched priceMap o) as [px|] eqn:Hm.
    + destruct (executeOrder_rows o px w) as (st & tx & pxo & err & w1 & -> & Hst & Hrows & _).
      destruct (IH w1) as (h & w' & -> & Hrows' & Hid & Hhit & Hmiss).
      set (h1 := λ r, if bool_decide (id r = id o)
                      then settled (clock w) st tx pxo err r else r) in Hrows.
      assert (Hid1 : ∀ r, id (h1 r) = id r).
      { intros r. unfold h1. by case_bool_decide. }
      exists (λ r, h (h1 r)), w'. split; [done|].
      split; [by rewrite Hrows', Hrows, map_map|].
      split; [intros r; by rewrite Hid, Hid1|]. split.
      * intros r Hr. cbn [hit existsb] in Hr. fold (hit priceMap l r) in Hr.
        destruct (hit priceMap l r) eqn:Hl.
        { apply Hhit. by rewrite (hit_id _ _ _ r (Hid1 r)). }
        rewrite orb_false_r in Hr. apply andb_true_iff in Hr as [_ Hr%bool_decide_eq_true].
        rewrite Hmiss by (by rewrite (hit_id _ _ _ r (Hid1 r))).
        unfold h1. rewrite bool_decide_eq_true_2 by done.
        destruct Hst as [-> | ->]; [by left|by right].
      * intros r Hr. cbn [hit existsb] in Hr. fold (hit priceMap l r) in Hr.
        apply orb_false_iff in Hr as [Hr Hl].
        rewrite Hm in Hr. rewrite bool_decide_eq_true_2 in Hr by by eexists.
        cbn [andb] in Hr. apply bool_decide_eq_false in Hr.
        unfold h1. rewrite bool_decide_eq_false_2 by congruence. by apply Hmiss.
    + cbn [ret]. destruct (IH w) as (h & w' & -> & Hrows' & Hid & Hhit & Hmiss).
      exists h, w'. split; [done|]. split; [done|]. split; [done|].
      assert (Hsame : ∀ r, hit priceMap (o :: l) r = hit priceMap l r).
      { intros r. cbn [hit existsb]. rewrite Hm.
        rewrite bool_decide_eq_false_2 by (by intros [? ?]). done. }
      split; intros r; rewrite Hsame; auto.
Qed.

Lemma NoDup_id_eq (l : list TriggerOrder) (a b : TriggerOrder) :
  NoDup (map id l) → a ∈ l → b ∈ l → id a = id b → a = b.
Proof.
  induction l as [|r l IH]; [by intros _ ?%elem_of_nil|].
  cbn [map]. intros [Hfresh Hnd]%NoDup_cons.
  intros [->|Ha]%elem_of_cons [->|Hb]%elem_of_cons Heq; [done| | |by apply IH].
  - destruct Hfresh. rewrite Heq. apply list_elem_of_fmap. by exists b.
  - destruct Hfresh. rewrite <- Heq. apply list_elem_of_fmap. by exists a.
Qed.

(** A row that is not active, or that the prices do not match, is not the
    row of a matched order, when the ids are those of a primary key. *)
Lemma not_hit (priceMap : gmap string PriceData) (w : World) (o : TriggerOrder) :
  NoDup (map id (trigger_orders w)) → o ∈ trigger_orders w →
  status o ≠ active ∨ matched priceMap o = None →
  hit priceMap (filter (λ o, status o = active) (trigger_orders w)) o = false.
Proof.
  intros Hnd Hin Hno.
  destruct (hit priceMap _ o) eqn:Hhit; [|done].
  apply hit_true in Hhit as (o' & [Hact Hin']%list_elem_of_filter & [px Hpx] & Hid).
  assert (o' = o) as -> by by eapply NoDup_id_eq.
  destruct Hno; congruence.
Qed.

End Pass.

(** X5. A pass of the scheduler, run to its end, touches only the orders
    it matches.  When the ids of the table are those of a primary key, a
    row that is not ['active'] (a cancelled, executed or failed order), and
    an active row whose token has no price this cycle, a price of zero or
    a price that does not satisfy the trigger, is after the pass what it
    was before, at its place in the table. *)
Theorem pass_leaves_other_orders `{NodeCrypto}
    (decodesKey : Network → string → bool) (swap : TriggerOrder → result SwapResult)
    (priceMap : gmap string PriceData) (w : World) :
  NoDup (map id (trigger_orders w)) →
  ∃ w', checkPricesAndExecute decodesKey swap priceMap w = (Returns tt, w') ∧
        length (trigger_orders w') = length (trigger_orders w) ∧
        ∀ i o, trigger_orders w !! i = Some o →
               status o ≠ active ∨ matched priceMap o = None →
               trigger_orders w' !! i = Some o.
Proof.
  intros Hnd. unfold checkPricesAndExecute, getActiveTriggerOrders, bind, gets.
  destruct (pass_rows decodesKey swap priceMap
              (filter (λ o, status o = active) (trigger_orders w)) w)
    as (h & w' & -> & Hrows & _ & _ & Hmiss).
  exists w'. split; [done|]. rewrite Hrows. split; [by rewrite length_map|].
  intros i o Hi Hno. rewrite list_lookup_fmap, Hi. cbn. f_equal.
  apply Hmiss, not_hit; [done| |done]. by eapply list_elem_of_lookup_2.
Qed.

(** X6. A pass of the scheduler never throws, and it settles every order
    it matches: an active order whose trigger the prices of the cycle
    satisfy is ['executed'] or ['failed'] when the pass ends, and no row is
    left ['triggered'] that was not ['triggered'] before. *)
Theorem pass_settles_matched_orders `{NodeCrypto}
    (decodesKey : Network → string → bool) (swap : TriggerOrder → result SwapResult)
    (priceMap : gmap string PriceData) (w : World) :
  ∃ w', checkPricesAndExecute decodesKey swap priceMap w = (Returns tt, w') ∧
        (∀ i o, trigger_orders w !! i = Some o → status o = active →
                is_Some (matched priceMap o) →
                ∃ o', trigger_orders w' !! i = Some o' ∧ id o' = id o ∧
                      (status o' = executed ∨ status o' = failed)) ∧
        ((∀ o, o ∈ trigger_orders w → status o ≠ triggered) →
         ∀ o, o ∈ trigger_orders w' → status o ≠ triggered).
Proof.
  unfold checkPricesAndExecute, getActiveTriggerOrders, bind, gets.
  set (l := filter (λ o, status o = active) (trigger_orders w)).
  destruct (pass_rows decodesKey swap priceMap l w)
    as (h & w' & -> & Hrows & Hid & Hhit & Hmiss).
  exists w'. split; [done|]. rewrite Hrows. split.
  - intros i o Hi Hact Hm. exists (h o). rewrite list_lookup_fmap, Hi.
    split; [done|]. split; [apply Hid|]. apply Hhit.
    unfold hit. apply existsb_exists. exists o. split.
    + apply list_elem_of_In, list_elem_of_filter. split; [done|].
      by eapply list_elem_of_lookup_2.
    + by rewrite !bool_decide_eq_true_2.
  - intros Hnone o (r & -> & Hin)%list_elem_of_fmap.
    destruct (hit priceMap l r) eqn:E.
    + destruct (Hhit r E) as [-> | ->]; done.
    + rewrite (Hmiss r E). by apply Hnone.
Qed.

Lemma world_order7_ids : NoDup (map id (trigger_orders world_order7)).
Proof. apply NoDup_singleton. Qed.

Lemma order7_no_price : matched ∅ order7 = None.
Proof. reflexivity. Qed.

Lemma pass_leaves_other_orders_witness :
  ∃ w', checkPricesAndExecute (λ _ _, true) (λ _, Returns swap_done) ∅ world_order7
        = (Returns tt, w') ∧
        trigger_orders w' !! 0%nat = Some order7.
Proof.
  destruct (pass_leaves_other_orders (λ _ _, true) (λ _, Returns swap_done) ∅
              world_order7 world_order7_ids) as (w' & Hrun & _ & Hrows).
  exists w'. split; [exact Hrun|].
  exact (Hrows 0%nat order7 eq_refl (or_intror order7_no_price)).
Defined.

(** X7. A cancellation holds over a pass that starts after it.  When the
    ids of the table are those of a primary key and [cancelOrder] has
    returned [true], the order is in the table after the next pass of the
    scheduler, under its id and with its owner, and it is ['cancelled']:
    the pass neither executes nor fails it, whatever the prices. *)
Theorem cancelOrder_holds_over_pass `{NodeCrypto}
    (decodesKey : Network → string → bool) (swap : TriggerOrder → result SwapResult)
    (priceMap : gmap string PriceData) (orderId userId : N) (w : World) :
  NoDup (map id (trigger_orders w)) →
  (cancelOrder orderId userId w).1 = Returns true →
  ∃ w', checkPricesAndExecute decodesKey swap priceMap (cancelOrder orderId userId w).2
        = (Returns tt, w') ∧
        (∃ o, o ∈ trigger_orders w' ∧ id o = orderId) ∧
        ∀ o, o ∈ trigger_orders w' → id o = orderId →
             status o = cancelled ∧ telegramUserId o = userId.
Proof.
  intros Hnd Htrue.
  destruct (cancelOrder_guard orderId userId w) as (Hcancelled & _ & Hiff).
  apply Hiff in Htrue as (o0 & Hin0 & Hid0 & Hu0 & Hact0).
  specialize (Hcancelled o0 Hin0 (conj Hid0 (conj Hu0 Hact0))).
  set (w1 := (cancelOrder orderId userId w).2) in *.
  set (c0 := update_order o0 cancelled (triggeredAt o0) (executedAt o0) (txHash o0)
               (executionPrice o0) (error o0)) in *.
  assert (Hnd1 : NoDup (map id (trigger_orders w1))).
  { unfold w1, cancelOrder, bind. rewrite update_where_run.
    cbn [snd ret trigger_orders set_trigger_orders].
    rewrite map_map. erewrite map_ext; [exact Hnd|].
    intros o. cbv beta. by destruct (_ && _ && _). }
  assert (Honly : ∀ r, r ∈ trigger_orders w1 → id r = orderId → r = c0).
  { intros r Hr Hid. apply (NoDup_id_eq (trigger_orders w1)); [done..|].
    by rewrite Hid. }
  unfold checkPricesAndExecute, getActiveTriggerOrders, bind, gets.
  destruct (pass_rows decodesKey swap priceMap
              (filter (λ o, status o = active) (trigger_orders w1)) w1)
    as (h & w' & -> & Hrows & Hid & _ & Hmiss).
  assert (Hkept : h c0 = c0).
  { apply Hmiss, not_hit; [done..|]. by left. }
  exists w'. split; [done|]. rewrite Hrows. split.
  - exists c0. split; [|done]. apply list_elem_of_fmap. exists c0. by rewrite Hkept.
  - intros o (r & -> & Hr)%list_elem_of_fmap Hido. rewrite Hid in Hido.
    rewrite (Honly r Hr Hido), Hkept. done.
Qed.

Lemma world_order7_cancel : (cancelOrder 7 42 world_order7).1 = Returns true.
Proof. reflexivity. Qed.

Lemma cancelOrder_holds_over_pass_witness :
  ∃ w', checkPricesAndExecute (λ _ _, true) (λ _, Returns swap_done) ∅
          (cancelOrder 7 42 world_order7).2 = (Returns tt, w') ∧
        ∃ o, o ∈ trigger_orders w' ∧ id o = 7%N.
Proof.
  destruct (cancelOrder_holds_over_pass (λ _ _, true) (λ _, Returns swap_done) ∅ 7 42
              world_order7 world_order7_ids world_order7_cancel)
    as (w' & Hrun & Hex & _).
  exists w'. split; [exact Hrun|exact Hex].
Defined.




(** ** Failed attempts and the lockout *)

Lemma filter_filter_implied {A} (P Q : A → Prop)
    `{∀ x, Decision (P x)} `{∀ x, Decision (Q x)} (l : list A) :
  (∀ x, x ∈ l → P x → Q x) → filter P (filter Q l) = filter P l.
Proof.
  induction l as [|a l IH]; intros Himp; [done|].
  assert (IH' : filter P (filter Q l) = filter P l).
  { apply IH. intros x Hx. apply Himp. by right. }
  rewrite (filter_cons Q). destruct (decide (Q a)) as [Hq|Hq].
  - by rewrite !filter_cons, IH'.
  - rewrite IH', filter_cons, decide_False; [done|].
    intros Hp. apply Hq, Himp; [left|done].
Qed.

Lemma recordLoginAttempt_attempts (u : N) (ok : bool) (w : World) :
  recordLoginAttempt u ok w
  = (Returns tt,
     set_login_attempts
       (filter (λ a, ¬ (attempt_user a = u ∧
                        attempt_time a < clock w - 24 * 60 * 60 * 1000)))
       (set_login_attempts
          (λ l, l ++ [{| attempt_user := u; attempt_time := clock w;
                         attempt_success := ok |}]) w)).
Proof. reflexivity. Qed.

(** The count of the failures of [u] after [since], once an attempt of [u]
    has been recorded: the rows that the recording prunes are older than a
    day, and the count does not see them when [since] is within the day. *)
Lemma count_after_record (u : N) (ok : bool) (since : Z) (w : World) :
  clock w - 24 * 60 * 60 * 1000 ≤ since < clock w →
  length (filter (failed_since u since) (login_attempts (recordLoginAttempt u ok w).2))
  = (length (filter (failed_since u since) (login_attempts w))
     + if ok then 0 else 1)%nat.
Proof.
  intros Hsince. rewrite recordLoginAttempt_attempts.
  cbn [snd login_attempts set_login_attempts].
  rewrite filter_filter_implied.
  - rewrite filter_app, length_app. f_equal. rewrite filter_cons. destruct ok.
    + rewrite decide_False; [done|]. by intros (_ & _ & ?).
    + rewrite decide_True; [done|]. split; [done|]. split; [cbn; lia|done].
  - intros a _ (_ & Ht & _) [_ Hold]. lia.
Qed.

Lemma count_after_record_other (u other : N) (ok : bool) (since : Z) (w : World) :
  other ≠ u →
  filter (failed_since other since) (login_attempts (recordLoginAttempt u ok w).2)
  = filter (failed_since other since) (login_attempts w).
Proof.
  intros Hne. rewrite recordLoginAttempt_attempts.
  cbn [snd login_attempts set_login_attempts].
  rewrite filter_filter_implied.
  - rewrite filter_app, filter_cons, decide_False, app_nil_r; [done|].
    intros (Hu & _). cbn in Hu. congruence.
  - intros a _ (Hu & _) [Hu' _]. congruence.
Qed.

(** X9. Recording an attempt of a user adds one to the count of the user's
    failures in any window of up to a day when the attempt failed, and
    leaves the count as it is when the attempt succeeded: a success does
    not clear the failures before it.  The counts of the other users do
    not change. *)
Theorem recordLoginAttempt_counts_failures (u : N) (ok : bool) (minutes : Z) (w : World) :
  0 < minutes ≤ 24 * 60 →
  let w' := (recordLoginAttempt u ok w).2 in
  ∃ n, (getFailedAttemptCount u minutes w).1 = Returns n ∧
       (getFailedAttemptCount u minutes w').1 = Returns (if ok then n else n + 1) ∧
       ∀ other m, other ≠ u →
         (getFailedAttemptCount other m w').1 = (getFailedAttemptCount other m w).1.
Proof.
  intros Hm w'. eexists. rewrite !getFailedAttemptCount_run. cbn [fst].
  split; [reflexivity|]. split.
  - f_equal. unfold w'.
    change (clock (recordLoginAttempt u ok w).2) with (clock w).
    rewrite count_after_record by lia. destruct ok; lia.
  - intros other m Hne. rewrite !getFailedAttemptCount_run. cbn [fst].
    unfold w'. change (clock (recordLoginAttempt u ok w).2) with (clock w).
    by rewrite count_after_record_other.
Qed.

Lemma quarter_hour : 0 < 15 ≤ 24 * 60.
Proof. lia. Qed.

Lemma recordLoginAttempt_counts_failures_witness :
  ∃ n, (getFailedAttemptCount 42 15 world_lockout).1 = Returns n ∧
       (getFailedAttemptCount 42 15 (recordLoginAttempt 42 true world_lockout).2).1
       = Returns n.
Proof.
  destruct (recordLoginAttempt_counts_failures 42 true 15 world_lockout quarter_hour)
    as (n & Hbefore & Hafter & _).
  exists n. split; [exact Hbefore|exact Hafter].
Defined.

Section Attempts.
Context `{NodeCrypto}.

Lemma recent_failures_record (u : N) (ok : bool) (w : World) :
  recent_failures u (recordLoginAttempt u ok w).2
  = recent_failures u w + if ok then 0 else 1.
Proof.
  unfold recent_failures.
  change (clock (recordLoginAttempt u ok w).2) with (clock w).
  rewrite count_after_record by lia. destruct ok; lia.
Qed.

Lemma not_locked_out (u : N) (w : World) :
  recent_failures u w < 5 →
  ∃ lo, isLockedOut u w = (Returns lo, w) ∧ locked lo = false.
Proof.
  intros Hfew. destruct (isLockedOut_iff u w) as (Hw & lo & Hlo & Hiff).
  exists lo. split.
  - destruct (isLockedOut u w) as [r w0]. cbn in Hw, Hlo. by subst.
  - destruct (locked lo); [|done]. destruct Hiff as [Hiff _].
    specialize (Hiff eq_refl). unfold recent_failures in Hfew. lia.
Qed.

End Attempts.

(** X10. [unlock] with a wrong password, by a user who is not locked out,
    fails and records the failure: the message gives the attempts that
    remain out of five, or says that the account is locked when this was
    the fifth failure of the trailing 15 minutes.  The sessions, the
    wallets and the stored password are as they were; and after the fifth
    failure every [unlock], whatever the password, is refused. *)
Theorem unlock_wrong_password `{NodeCrypto}
    (u : N) (p : string) (w : World) (sec : UserSecurityRow) :
  recent_failures u w < 5 →
  user_security w !! u = Some sec →
  verifyPassword p u (password_hash sec) = Returns false →
  ∃ w',
    unlock u p w
    = (Returns (failed_with
         (if bool_decide (recent_failures u w < 4)
          then "Incorrect password. " +:+ pretty (4 - recent_failures u w)
               +:+ " attempts remaining."
          else "Account locked for 15 minutes due to too many failed attempts.")),
       w') ∧
    recent_failures u w' = recent_failures u w + 1 ∧
    sessions w' = sessions w ∧ wallets w' = wallets w ∧
    user_security w' = user_security w ∧ security_log w' = security_log w ∧
    (recent_failures u w = 4 →
     ∀ p', ∃ out, unlock u p' w' = (Returns out, w') ∧ success out = false).
Proof.
  intros Hfew Hsec Hverify.
  destruct (not_locked_out u w Hfew) as (lo & Hlo & Hunlocked).
  pose proof (recent_failures_record u false w) as Hcount. cbv iota in Hcount.
  exists (recordLoginAttempt u false w).2. split.
  - unfold unlock. unfold bind at 1. rewrite Hlo, Hunlocked.
    unfold bind at 1. unfold getUserSecurity, gets at 1. rewrite Hsec.
    unfold bind at 1. unfold lift at 1. rewrite Hverify. cbn [negb].
    unfold bind at 1. rewrite recordLoginAttempt_attempts.
    rewrite recordLoginAttempt_attempts in Hcount. cbn [snd] in Hcount.
    unfold bind at 1. rewrite getFailedAttemptCount_run.
    fold (recent_failures u (set_login_attempts
      (filter (λ a, ¬ (attempt_user a = u ∧
                       attempt_time a < clock w - 24 * 60 * 60 * 1000)))
      (set_login_attempts
         (λ l, l ++ [{| attempt_user := u; attempt_time := clock w;
                        attempt_success := false |}]) w))).
    rewrite Hcount. unfold ret. cbn [snd]. do 3 f_equal.
    replace (5 - (recent_failures u w + 1)) with (4 - recent_failures u w) by lia.
    destruct (bool_decide (recent_failures u w < 4)) eqn:E.
    + apply bool_decide_eq_true in E. by rewrite bool_decide_eq_true_2 by lia.
    + apply bool_decide_eq_false in E. by rewrite bool_decide_eq_false_2 by lia.
  - split; [exact Hcount|]. do 4 (split; [reflexivity|]).
    intros Hfour p'. apply unlock_while_locked_out.
    fold (recent_failures u (recordLoginAttempt u false w).2). lia.
Qed.

Lemma world_four_failures_count : recent_failures 42 world_four_failures = 4.
Proof. vm_compute. reflexivity. Qed.

Lemma world_four_failures_few : recent_failures 42 world_four_failures < 5.
Proof. rewrite world_four_failures_count. lia. Qed.

Lemma world_four_failures_user : user_security world_four_failures !! 42%N = Some user42.
Proof. vm_compute. reflexivity. Qed.

Lemma user42_wrong_password :
  verifyPassword "wrong1" 42 (password_hash user42) = Returns false.
Proof. vm_compute. reflexivity. Qed.

Lemma unlock_wrong_password_witness :
  ∃ w' out,
    (unlock 42 "wrong1" world_four_failures).2 = w' ∧
    recent_failures 42 w' = recent_failures 42 world_four_failures + 1 ∧
    unlock 42 "abcdef" w' = (Returns out, w') ∧ success out = false.
Proof.
  destruct (unlock_wrong_password 42 "wrong1" world_four_failures user42
              world_four_failures_few world_four_failures_user user42_wrong_password)
    as (w' & Hrun & Hcount & _ & _ & _ & _ & Hlocked).
  destruct (Hlocked world_four_failures_count "abcdef") as (out & Hout & Hfail).
  exists w', out. split; [by rewrite Hrun|]. split; [exact Hcount|].
  split; [exact Hout|exact Hfail].
Defined.

(** X11. [verifyPasswordForAction] does not look at the lockout: it
    returns what [verifyPassword] returns for the stored hash, also for a
    user who is locked out.  It records the attempt, so a wrong password
    here counts among the failures that lock [unlock], and it creates no
    session. *)
Theorem verifyPasswordForAction_ignores_lockout `{NodeCrypto}
    (u : N) (p : string) (w : World) (sec : UserSecurityRow) (valid : bool) :
  user_security w !! u = Some sec →
  verifyPassword p u (password_hash sec) = Returns valid →
  ∃ w',
    verifyPasswordForAction u p w = (Returns valid, w') ∧
    recent_failures u w' = (recent_failures u w + if valid then 0 else 1) ∧
    sessions w' = sessions w ∧ wallets w' = wallets w ∧
    user_security w' = user_security w.
Proof.
  intros Hsec Hverify. exists (recordLoginAttempt u valid w).2. split.
  - unfold verifyPasswordForAction. unfold bind at 1.
    unfold getUserSecurity, gets at 1. rewrite Hsec.
    unfold bind at 1. unfold lift at 1. rewrite Hverify.
    unfold bind at 1. by rewrite recordLoginAttempt_attempts.
  - split; [apply recent_failures_record|]. by repeat split.
Qed.

Lemma world_locked_out_count : 5 ≤ recent_failures 42 world_locked_out.
Proof. vm_compute. discriminate. Qed.

Lemma world_locked_out_user : user_security world_locked_out !! 42%N = Some user42.
Proof. vm_compute. reflexivity. Qed.

Lemma verifyPasswordForAction_ignores_lockout_witness :
  5 ≤ recent_failures 42 world_locked_out ∧
  (verifyPasswordForAction 42 "abcdef" world_locked_out).1 = Returns true.
Proof.
  split; [exact world_locked_out_count|].
  destruct (verifyPasswordForAction_ignores_lockout 42 "abcdef" world_locked_out user42
              true world_locked_out_user user42_password) as (w' & Hrun & _).
  by rewrite Hrun.
Defined.

(** The most recent failure is the time of a failed attempt of the user. *)
Lemma lastFailedAttempt_elem_of (u : N) (l : list LoginAttempt) (m : Z) :
  lastFailedAttempt u l = Some m →
  ∃ a, a ∈ l ∧ attempt_user a = u ∧ attempt_success a = false ∧ attempt_time a = m.
Proof.
  revert m. induction l as [|b l IH]; [done|]. intros m.
  cbn [lastFailedAttempt foldr]. fold (lastFailedAttempt u l).
  case_bool_decide as Hb.
  - destruct (lastFailedAttempt u l) as [m'|] eqn:E.
    + intros [= <-]. destruct (Z.max_spec (attempt_time b) m') as [[_ ->]|[_ ->]].
      * destruct (IH m' eq_refl) as (a & Hin & Ha). exists a. split; [by right|done].
      * exists b. split; [left|]. by destruct Hb.
    + intros [= <-]. exists b. split; [left|]. by destruct Hb.
  - intros Hm. destruct (IH m Hm) as (a & Hin & Ha). exists a. split; [by right|done].
Qed.

(** X12. The minutes that [isLockedOut] gives a locked-out user are
    between 1 and 15, and they are 0 for a user who is not locked out,
    when no failed attempt of the user is later than the clock.
    [isLockedOut] changes nothing. *)
Theorem isLockedOut_minutes (u : N) (w : World) :
  Forall (λ a, attempt_user a = u → attempt_success a = false →
               attempt_time a ≤ clock w) (login_attempts w) →
  ∃ lo, isLockedOut u w = (Returns lo, w) ∧
        (locked lo = true → 1 ≤ unlockIn lo ≤ 15) ∧
        (locked lo = false → unlockIn lo = 0).
Proof.
  intros Hpast. unfold isLockedOut, bind. rewrite getFailedAttemptCount_run.
  case_bool_decide as Hfive; [|by eexists].
  cbn [gets dateNow].
  destruct (lastFailedAttempt u (login_attempts w)) as [m|] eqn:Hlast.
  - destruct (lastFailedAttempt_elem_of u _ m Hlast) as (a & Hin & Hu & Hs & Ht).
    rewrite Forall_forall in Hpast. specialize (Hpast a Hin Hu Hs).
    unfold default, from_option, Datatypes.id.
    case_bool_decide as Hlocked; (eexists; split; [reflexivity|]);
      cbn [locked unlockIn]; [|done].
    split; [|done]. intros _.
    split; [apply Z.div_le_lower_bound; lia|].
    apply Z.lt_succ_r, Z.div_lt_upper_bound; lia.
  - destruct (filter (failed_since u (clock w - 15 * 60 * 1000)) (login_attempts w))
      as [|a l] eqn:Hf; [cbn in Hfive; lia|].
    assert (Ha : a ∈ filter (failed_since u (clock w - 15 * 60 * 1000))
                   (login_attempts w)) by (rewrite Hf; left).
    apply list_elem_of_filter in Ha as [(Hu & _ & Hs) Hin].
    destruct (lastFailedAttempt_ge u _ a Hin Hu Hs) as (m & Hm & _). congruence.
Qed.

Lemma world_locked_out_past :
  Forall (λ a, attempt_user a = 42%N → attempt_success a = false →
               attempt_time a ≤ clock world_locked_out)
    (login_attempts world_locked_out).
Proof.
  unfold world_locked_out, world_lockout.
  cbn [login_attempts clock set_clock set_login_attempts].
  repeat (apply Forall_cons_2; [intros _ _; vm_compute; discriminate|]).
  apply Forall_nil_2.
Qed.

Lemma isLockedOut_minutes_witness :
  ∃ lo, isLockedOut 42 world_locked_out = (Returns lo, world_locked_out) ∧
        (locked lo = true → 1 ≤ unlockIn lo ≤ 15).
Proof.
  destruct (isLockedOut_minutes 42 world_locked_out world_locked_out_past)
    as (lo & Hrun & Hlocked & _).
  exists lo. split; [exact Hrun|exact Hlocked].
Defined.

(** X13. [changePassword] with a wrong current password fails, counts as
    a failed attempt and changes neither the stored password nor the
    wallets nor the sessions.  With the right current password and a new
    password shorter than six characters it fails and changes nothing at
    all. *)
Theorem changePassword_refuses `{NodeCrypto}
    (u : N) (cur new : string) (w : World) (sec : UserSecurityRow) :
  user_security w !! u = Some sec →
  (verifyPassword cur u (password_hash sec) = Returns false →
   ∃ w', changePassword u cur new w
         = (Returns (failed_with "Current password is incorrect"), w') ∧
         recent_failures u w' = recent_failures u w + 1 ∧
         user_security w' = user_security w ∧ wallets w' = wallets w ∧
         sessions w' = sessions w) ∧
  (verifyPassword cur u (password_hash sec) = Returns true →
   (js_length new < 6)%nat →
   changePassword u cur new w
   = (Returns (failed_with "New password must be at least 6 characters"), w)).
Proof.
  intros Hsec. split.
  - intros Hverify. exists (recordLoginAttempt u false w).2. split.
    + unfold changePassword. unfold bind at 1.
      unfold getUserSecurity, gets at 1. rewrite Hsec.
      unfold bind at 1. unfold lift at 1. rewrite Hverify. cbn [negb].
      unfold bind at 1. by rewrite recordLoginAttempt_attempts.
    + split; [apply recent_failures_record|]. by repeat split.
  - intros Hverify Hshort. unfold changePassword. unfold bind at 1.
    unfold getUserSecurity, gets at 1. rewrite Hsec.
    unfold bind at 1. unfold lift at 1. rewrite Hverify. cbn [negb].
    by rewrite bool_decide_eq_true_2.
Qed.

Lemma short_password : (js_length "abc" < 6)%nat.
Proof. vm_compute. lia. Qed.

Lemma changePassword_refuses_witness :
  (∃ w', changePassword 42 "wrong1" "correct horse" world_four_failures
         = (Returns (failed_with "Current password is incorrect"), w') ∧
         recent_failures 42 w' = recent_failures 42 world_four_failures + 1) ∧
  changePassword 42 "abcdef" "abc" world_four_failures
  = (Returns (failed_with "New password must be at least 6 characters"),
     world_four_failures).
Proof.
  split.
  - destruct (changePassword_refuses 42 "wrong1" "correct horse" world_four_failures
                user42 world_four_failures_user) as [Hwrong _].
    destruct (Hwrong user42_wrong_password) as (w' & Hrun & Hcount & _).
    exists w'. split; [exact Hrun|exact Hcount].
  - destruct (changePassword_refuses 42 "abcdef" "abc" world_four_failures
                user42 world_four_failures_user) as [_ Hshort].
    exact (Hshort user42_password short_password).
Defined.

(** ** The size of the session store *)

Section StoreFacts.
Context {V : Type}.
Implicit Types (m : list (N * V)) (k : N) (v : V).

Lemma map_set_keys k v m :
  (map_set k v m).*1 = if bool_decide (k ∈ m.*1) then m.*1 else m.*1 ++ [k].
Proof.
  induction m as [|[k' v'] m IH]; [done|]. cbn [map_set].
  destruct (bool_decide (k' = k)) eqn:E.
  - apply bool_decide_eq_true in E. subst k'. rewrite !fmap_cons. cbn [fst].
    by rewrite bool_decide_eq_true_2 by left.
  - apply bool_decide_eq_false in E. rewrite !fmap_cons, IH. cbn [fst].
    destruct (bool_decide (k ∈ m.*1)) eqn:Hk.
    + apply bool_decide_eq_true in Hk. by rewrite bool_decide_eq_true_2 by by right.
    + apply bool_decide_eq_false in Hk. rewrite bool_decide_eq_false_2; [done|].
      intros [?|?]%elem_of_cons; [congruence|done].
Qed.

Lemma map_get_keys k m : is_Some (map_get k m) ↔ k ∈ m.*1.
Proof.
  induction m as [|[k' v'] m IH]; cbn [map_get].
  - split; [by intros [? ?]|by intros ?%elem_of_nil].
  - rewrite fmap_cons. cbn [fst]. case_bool_decide as E.
    + subst. split; [left|by eexists].
    + rewrite IH, elem_of_cons. split; [by right|]. intros [?|?]; [congruence|done].
Qed.

Lemma map_set_NoDup k v m : NoDup m.*1 → NoDup (map_set k v m).*1.
Proof.
  intros Hnd. rewrite map_set_keys. case_bool_decide as E; [done|].
  apply NoDup_app. split; [done|]. split; [|apply NoDup_singleton].
  intros x Hx ->%list_elem_of_singleton. done.
Qed.

Lemma map_set_length k v m : (length (map_set k v m) ≤ S (length m))%nat.
Proof.
  rewrite <- (length_fmap fst (map_set k v m)), map_set_keys.
  case_bool_decide; rewrite ?length_app, length_fmap; cbn; lia.
Qed.

Lemma map_set_length_present k v m :
  is_Some (map_get k m) → length (map_set k v m) = length m.
Proof.
  intros Hk%map_get_keys.
  rewrite <- (length_fmap fst (map_set k v m)), map_set_keys.
  by rewrite bool_decide_eq_true_2, length_fmap.
Qed.

Lemma filter_keys_NoDup (P : N * V → Prop) `{∀ e, Decision (P e)} m :
  NoDup m.*1 → NoDup (filter P m).*1.
Proof.
  intros Hnd. eapply sublist_NoDup; [exact Hnd|].
  apply fmap_sublist, sublist_filter.
Qed.

End StoreFacts.

Lemma oldest_elem_of (m : list (N * Session)) (e : N * Session) :
  oldest m = Some e → e ∈ m.
Proof.
  revert e. induction m as [|a m IH]; [done|]. intros e. cbn [oldest].
  destruct (oldest m) as [e'|].
  - case_bool_decide; intros [= <-]; [right; by apply IH|left].
  - intros [= <-]. left.
Qed.

Lemma oldest_is_Some (m : list (N * Session)) : m ≠ [] → is_Some (oldest m).
Proof.
  destruct m as [|a m]; [done|]. intros _. cbn [oldest].
  destruct (oldest m); [case_bool_decide|]; by eexists.
Qed.

Section Store.
Context `{NodeCrypto}.

Lemma store_ok_filter (P : N * Session → Prop) `{∀ e, Decision (P e)} (w : World) :
  store_ok w → store_ok (set_sessions (filter P) w).
Proof.
  intros [Hnd Hlen]. split; cbn [sessions set_sessions].
  - by apply filter_keys_NoDup.
  - pose proof (length_filter P (sessions w)). lia.
Qed.

Lemma store_ok_set_present (u : N) (s : Session) (w : World) :
  is_Some (map_get u (sessions w)) → store_ok w →
  store_ok (set_sessions (map_set u s) w).
Proof.
  intros Hu [Hnd Hlen]. split; cbn [sessions set_sessions].
  - by apply map_set_NoDup.
  - by rewrite map_set_length_present.
Qed.

Lemma keeps_store_bind {A B} (m : M A) (k : A → M B) :
  keeps_store m → (∀ a, keeps_store (k a)) → keeps_store (bind m k).
Proof.
  intros Hm Hk w Hw. unfold bind. specialize (Hm w Hw).
  destruct (m w) as [[a|msg] w']; [by apply Hk|done].
Qed.

Lemma keeps_store_frame {A} (m : M A) :
  (∀ w, sessions (m w).2 = sessions w) → keeps_store m.
Proof. intros Hm w [Hnd Hlen]. unfold store_ok. by rewrite Hm. Qed.

Lemma keeps_store_for_of {A} (l : list A) (body : A → M unit) :
  (∀ a, keeps_store (body a)) → keeps_store (for_of l body).
Proof.
  intros Hb. induction l as [|a l IH]; cbn [for_of]; [by intros w|].
  apply keeps_store_bind; [apply Hb|]. by intros _.
Qed.

Lemma keeps_store_getSession (u : N) : keeps_store (getSession u).
Proof.
  intros w Hw.
  destruct (getSession_cases u w) as [[_ ->]|[(s & _ & _ & ->)|(s & _ & _ & ->)]];
    try done.
  by apply store_ok_filter.
Qed.

(** [createSession] makes room before it adds a session to a full store. *)
Lemma store_ok_add (u : N) (s : Session) (l : list (N * Session)) (w : World) :
  NoDup l.*1 → Z.of_nat (length l) < MAX_SESSIONS →
  sessions w = map_set u s l → store_ok w.
Proof.
  intros Hnd Hlen Hw. unfold store_ok. rewrite Hw.
  split; [by apply map_set_NoDup|].
  pose proof (map_set_length u s l). lia.
Qed.

Lemma keeps_store_createSession (u : N) (timeoutMs : Z) :
  keeps_store (createSession u timeoutMs).
Proof.
  intros w [Hnd Hlen].
  unfold createSession, bind, gets, dateNow, gets, randomBytes, modify, ret. cbv beta.
  case_bool_decide as Hfull.
  - cbn [sessions set_sessions]. case_bool_decide as Hfull'.
    + destruct (oldest _) as [e|] eqn:He.
      * cbn [snd]. eapply store_ok_add; [| |reflexivity].
        -- unfold map_delete. by do 2 apply filter_keys_NoDup.
        -- apply oldest_elem_of in He.
           apply Z.lt_le_trans with (Z.of_nat (length (sessions w))); [|done].
           apply Nat2Z.inj_lt.
           apply Nat.lt_le_trans with
             (length (filter (λ e : N * Session, ¬ expiresAt e.2 < clock w) (sessions w)));
             [|apply length_filter].
           unfold map_delete. apply (length_filter_lt _ _ e); [exact He|by intros []].
      * destruct (oldest_is_Some
          (filter (λ e : N * Session, ¬ expiresAt e.2 < clock w) (sessions w)))
          as [e He']; [|cbn [sessions set_sessions] in He; congruence].
        intros Hnil. rewrite Hnil in Hfull'. unfold MAX_SESSIONS in Hfull'.
        cbn in Hfull'. lia.
    + cbn [snd]. eapply store_ok_add; [| |reflexivity].
      * by apply filter_keys_NoDup.
      * cbn [sessions set_sessions set_entropy_pos] in *. lia.
  - cbn [snd]. eapply store_ok_add; [done| |reflexivity].
    cbn [sessions set_sessions set_entropy_pos] in *. lia.
Qed.

Lemma keeps_store_refreshSession (u : N) (timeoutMs : Z) :
  keeps_store (refreshSession u timeoutMs).
Proof.
  intros w Hw. unfold refreshSession, bind.
  destruct (getSession_cases u w) as [[_ ->]|[(s & _ & _ & ->)|(s & Hs & _ & ->)]].
  - done.
  - by apply store_ok_filter.
  - cbn. apply store_ok_set_present; [by rewrite Hs|done].
Qed.

Lemma keeps_store_storeKeyInSession (u : N) (net : Network) (privateKey : string) :
  keeps_store (storeKeyInSession u net privateKey).
Proof.
  intros w Hw. unfold storeKeyInSession, bind.
  destruct (getSession_cases u w) as [[_ ->]|[(s & _ & _ & ->)|(s & Hs & _ & ->)]].
  - done.
  - by apply store_ok_filter.
  - unfold session_encrypt, bind, randomBytes, lift.
    destruct (session_encrypt_with _ _ _) as [e|msg]; [|done].
    cbn. apply (store_ok_set_present u _ (set_entropy_pos _ w)); [|done].
    cbn [sessions set_entropy_pos]. by rewrite Hs.
Qed.

Lemma keeps_store_unlock (u : N) (p : string) : keeps_store (unlock u p).
Proof.
  unfold unlock.
  apply keeps_store_bind.
  { apply keeps_store_frame. intros w. by destruct (isLockedOut_iff u w) as [-> _]. }
  intros lo.
  destruct (locked lo); [by intros w|].
  apply keeps_store_bind; [by apply keeps_store_frame|]. intros [sec|]; [|by intros w].
  apply keeps_store_bind; [by apply keeps_store_frame|]. intros valid.
  destruct valid; cbn [negb].
  - apply keeps_store_bind; [by apply keeps_store_frame|]. intros _.
    apply keeps_store_bind; [apply keeps_store_createSession|]. intros _.
    apply keeps_store_bind; [by apply keeps_store_frame|]. intros userWallets.
    apply keeps_store_bind; [|intros _; apply keeps_store_bind;
                                [by apply keeps_store_frame|by intros _ w]].
    apply keeps_store_for_of. intros wallet.
    apply keeps_store_bind.
    { intros w Hw. pose proof (decryptPrivateKey_returns u wallet.1 p w) as [v Hv].
      by rewrite Hv. }
    intros v. destruct (truthy v); [|by intros w].
    apply keeps_store_bind; [apply keeps_store_storeKeyInSession|by intros _ w].
  - apply keeps_store_bind; [by apply keeps_store_frame|]. intros _.
    apply keeps_store_bind; [by apply keeps_store_frame|]. by intros failedCount w.
Qed.

End Store.

(** X14. The session store stays a map of at most [MAX_SESSIONS] entries,
    with one session for a user: [createSession] on a full store first
    drops the expired sessions and then, if the store is still full, the
    session that was unlocked first, so that adding the new session does
    not take the store past the bound; and [unlock], [refreshSession],
    [storeKeyInSession] and [getSession] add no entry. *)
Theorem session_store_stays_bounded `{NodeCrypto}
    (u : N) (net : Network) (timeoutMs : Z) (text : string) (w : World) :
  store_ok w →
  store_ok (createSession u timeoutMs w).2 ∧
  store_ok (unlock u text w).2 ∧
  store_ok (refreshSession u timeoutMs w).2 ∧
  store_ok (storeKeyInSession u net text w).2 ∧
  store_ok (getSession u w).2.
Proof.
  intros Hw. split; [by apply keeps_store_createSession|].
  split; [by apply keeps_store_unlock|].
  split; [by apply keeps_store_refreshSession|].
  split; [by apply keeps_store_storeKeyInSession|by apply keeps_store_getSession].
Qed.

Lemma store_ok_world0 : store_ok world0.
Proof. split; [apply NoDup_nil_2|]. vm_compute. discriminate. Qed.

Lemma session_store_stays_bounded_witness :
  store_ok (createSession 42 SESSION_TIMEOUT_MS world0).2 ∧
  store_ok (unlock 42 "abcdef" world0).2.
Proof.
  destruct (session_store_stays_bounded 42 solana SESSION_TIMEOUT_MS "abcdef" world0
              store_ok_world0) as (Hcreate & Hunlock & _).
  split; [exact Hcreate|exact Hunlock].
Defined.

(** ** The end of a session *)

(** X15. [lock] ends the session of the user: afterwards, and at any later
    time, [isUnlocked] is false and [getPrivateKey] gives no key for any
    network.  The sessions of the other users are as they were, the
    wallets are untouched, and the event is logged. *)
Theorem lock_ends_session `{NodeCrypto} (u : N) (w : World) :
  ∃ w', lock u w = (Returns tt, w') ∧
        (∀ t net, getPrivateKey u net (set_clock t w') = (Returns None, set_clock t w')) ∧
        (∀ t, isUnlocked u (set_clock t w') = (Returns false, set_clock t w')) ∧
        (∀ other, other ≠ u → map_get other (sessions w') = map_get other (sessions w)) ∧
        wallets w' = wallets w ∧
        security_log w'
        = security_log w ++ [{| log_user := u; log_action := "lock"; log_details := None |}].
Proof.
  eexists. split; [reflexivity|].
  cbn [sessions wallets security_log set_sessions set_security_log].
  assert (Hgone : ∀ t, getSession u (set_clock t (set_security_log
            (λ l, l ++ [{| log_user := u; log_action := "lock"; log_details := None |}])
            (set_sessions (map_delete u) w)))
          = (Returns None, set_clock t (set_security_log
            (λ l, l ++ [{| log_user := u; log_action := "lock"; log_details := None |}])
            (set_sessions (map_delete u) w)))).
  { intros t. unfold getSession, bind, gets.
    cbn [sessions set_clock set_security_log set_sessions].
    by rewrite map_get_delete_eq. }
  split; [|split; [|split; [|done]]].
  - intros t net. unfold getPrivateKey, getKeyFromSession, bind. by rewrite Hgone.
  - intros t. unfold isUnlocked, bind. by rewrite Hgone.
  - intros other Hne. by apply map_get_delete_ne.
Qed.

(** ** The life of a session *)

Section Lifetime.
Context `{NodeCrypto} `{!CryptoCorrect}.

(** [unlock] with the right password, by a user who is not locked out:
    the session it opens, and what the session holds. *)
Lemma unlock_opens_session (u : N) (p : string) (w : World) (sec : UserSecurityRow) :
  sessions_ok w →
  recent_failures u w < 5 →
  user_security w !! u = Some sec →
  verifyPassword p u (password_hash sec) = Returns true →
  ∃ w' s,
    unlock u p w = (Returns succeeded, w') ∧
    sessions_ok w' ∧ clock w' = clock w ∧
    map_get u (sessions w') = Some s ∧
    unlockedAt s = clock w ∧ expiresAt s = clock w + SESSION_TIMEOUT_MS ∧
    ∀ net wl secret,
      wallets w !! (u, net) = Some wl →
      (decryptPrivateKey u net p w).1 = Returns (Some secret) →
      secret ≠ EmptyString →
      ∃ iv e, encryptedKeys s !! net = Some e ∧
              session_encrypt_with (sessionKey s) iv secret = Returns e.
Proof.
  intros Hok Hfew Hsec Hverify.
  destruct (not_locked_out u w Hfew) as (lo & Hlo & Hunlocked).
  unfold unlock. unfold bind at 1. rewrite Hlo, Hunlocked.
  unfold bind at 1. unfold getUserSecurity, gets at 1.
  rewrite Hsec. unfold bind at 1. unfold lift at 1. rewrite Hverify.
  cbn [negb]. unfold bind at 1.
  destruct (recordLoginAttempt_run u true w)
    as (w1 & -> & Hwal1 & Hkey1 & Hclock1 & Hsess1 & Husr1).
  assert (Hok1 : sessions_ok w1) by (intros e; rewrite Hsess1; apply Hok).
  unfold bind at 1.
  destruct (createSession_spec u SESSION_TIMEOUT_MS w1)
    as (key & w2 & Hcreate & Hget2 & Hsame2).
  pose proof (keeps_createSession u SESSION_TIMEOUT_MS w1 Hok1) as Hok2.
  rewrite Hcreate in Hok2 |- *. cbn [snd] in Hok2.
  unfold bind at 1.
  destruct (getAllWallets_run u w2) as (l & -> & Hl).
  unfold bind at 1.
  assert (Hstate2 : loop_state u w2 w2
            {| session_user := u; unlockedAt := clock w1;
               expiresAt := clock w1 + SESSION_TIMEOUT_MS; encryptedKeys := ∅;
               sessionKey := key |}).
  { split; [exact Hok2|]. split; [apply same_tables_refl|]. split; [exact Hget2|].
    cbn. unfold SESSION_TIMEOUT_MS. destruct Hsame2 as (_ & _ & -> & _). lia. }
  destruct (cache_wallets_spec u p w2 l w2 _ Hstate2)
    as (w3 & keys & Hloop & (Hok3 & Hsame3 & Hget3 & Hlive3) & Hcached).
  change (for_of l _ w2) with (for_of l (cache_wallet u p) w2). rewrite Hloop.
  unfold logSecurityEvent, modify, bind, ret.
  eexists _, _. split; [reflexivity|].
  destruct Hsame2 as (Hwal2 & Hkey2 & Hclock2 & _).
  destruct Hsame3 as (Hwal3 & Hkey3 & Hclock3 & _).
  split; [exact Hok3|]. split; [cbn; congruence|].
  split; [exact Hget3|]. cbn [with_keys unlockedAt expiresAt sessionKey encryptedKeys].
  split; [done|]. split; [by rewrite Hclock1|].
  intros net wl secret Hwl Hsecret Hnonempty.
  assert (Hsecret2 : (decryptPrivateKey u net p w2).1 = Returns (Some secret)).
  { rewrite (decryptPrivateKey_frame u net p w w2); [done|congruence..]. }
  assert (Hin : net ∈ l.*1).
  { apply (Hl net wl). rewrite Hwal2, Hwal1. exact Hwl. }
  exact (Hcached net (or_introl Hin) secret Hsecret2 Hnonempty).
Qed.

(** Reading a key at the time [t] from a store that holds a session of
    the user. *)
Lemma getPrivateKey_at (u : N) (net : Network) (t : Z) (w : World) (s : Session)
    (iv : Buffer) (e secret : string) :
  map_get u (sessions w) = Some s →
  encryptedKeys s !! net = Some e →
  session_encrypt_with (sessionKey s) iv secret = Returns e →
  (¬ expiresAt s < t →
   getPrivateKey u net (set_clock t w) = (Returns (Some secret), set_clock t w)) ∧
  (expiresAt s < t → (getPrivateKey u net (set_clock t w)).1 = Returns None).
Proof.
  intros Hs He Henc. unfold getPrivateKey, getKeyFromSession, bind. split.
  - intros Hlive.
    destruct (getSession_cases u (set_clock t w))
      as [[Hn _]|[(s' & Hs' & Hexp & _)|(s' & Hs' & _ & ->)]];
      cbn [sessions set_clock clock] in *; [congruence| |].
    + rewrite Hs in Hs'. injection Hs' as <-. done.
    + rewrite Hs in Hs'. injection Hs' as <-. rewrite He.
      rewrite (session_encrypt_nonempty _ _ _ _ Henc).
      unfold lift. by rewrite (session_decrypt_of_encrypt _ _ _ _ Henc).
  - intros Hexp.
    destruct (getSession_cases u (set_clock t w))
      as [[Hn _]|[(s' & _ & _ & ->)|(s' & Hs' & Hlive & _)]];
      cbn [sessions set_clock clock] in *; [congruence|done|].
    rewrite Hs in Hs'. injection Hs' as <-. done.
Qed.

End Lifetime.

(** X16. A successful [unlock] opens a session of thirty minutes.  For a
    wallet of the user that decrypts under the password to a secret,
    [getPrivateKey] gives the secret at every time up to thirty minutes
    after the clock of the [unlock], that instant included, and gives no
    key at any later time. *)
Theorem unlock_opens_thirty_minutes `{NodeCrypto} `{!CryptoCorrect}
    (u : N) (p : string) (w : World) (sec : UserSecurityRow)
    (net : Network) (wl : WalletRow) (secret : string) :
  sessions_ok w →
  recent_failures u w < 5 →
  user_security w !! u = Some sec →
  verifyPassword p u (password_hash sec) = Returns true →
  wallets w !! (u, net) = Some wl →
  (decryptPrivateKey u net p w).1 = Returns (Some secret) →
  secret ≠ EmptyString →
  ∃ w', unlock u p w = (Returns succeeded, w') ∧
        (∀ t, t ≤ clock w + 30 * 60 * 1000 →
              getPrivateKey u net (set_clock t w')
              = (Returns (Some secret), set_clock t w')) ∧
        (∀ t, clock w + 30 * 60 * 1000 < t →
              (getPrivateKey u net (set_clock t w')).1 = Returns None).
Proof.
  intros Hok Hfew Hsec Hverify Hwl Hsecret Hnonempty.
  destruct (unlock_opens_session u p w sec Hok Hfew Hsec Hverify)
    as (w' & s & Hrun & _ & _ & Hs & _ & Hexp & Hkeys).
  destruct (Hkeys net wl secret Hwl Hsecret Hnonempty) as (iv & e & He & Henc).
  exists w'. split; [exact Hrun|].
  unfold SESSION_TIMEOUT_MS in Hexp.
  split; intros t Ht; destruct (getPrivateKey_at u net t w' s iv e secret Hs He Henc)
    as [Hlive Hdead]; [apply Hlive|apply Hdead]; lia.
Qed.

Lemma world_legacy_decrypts_key :
  (decryptPrivateKey 42 solana "abcdef" world_legacy).1 = Returns (Some legacy_secret).
Proof. vm_compute. reflexivity. Qed.

Lemma unlock_opens_thirty_minutes_witness :
  ∃ w', unlock 42 "abcdef" world_legacy = (Returns succeeded, w') ∧
        getPrivateKey 42 solana (set_clock (clock world_legacy + 30 * 60 * 1000) w')
        = (Returns (Some legacy_secret),
           set_clock (clock world_legacy + 30 * 60 * 1000) w') ∧
        (getPrivateKey 42 solana
           (set_clock (clock world_legacy + 30 * 60 * 1000 + 1) w')).1 = Returns None.
Proof.
  destruct (unlock_opens_thirty_minutes 42 "abcdef" world_legacy user42 solana
              legacy_row legacy_secret
              (sessions_ok_no_session _ world_legacy_no_session)
              world_legacy_few_failures world_legacy_user user42_password
              world_legacy_wallet world_legacy_decrypts_key legacy_secret_nonempty)
    as (w' & Hrun & Hlive & Hdead).
  exists w'. split; [exact Hrun|]. split.
  - apply Hlive. lia.
  - apply Hdead. lia.
Defined.

Section Remaining.
Context `{NodeCrypto}.

Lemma getSessionTimeRemaining_session (u : N) (w : World) (s : Session) :
  map_get u (sessions w) = Some s →
  (getSessionTimeRemaining u w).1
  = Returns (Z.max 0 ((expiresAt s - clock w) / 60000)).
Proof.
  intros Hs. unfold getSessionTimeRemaining, bind.
  destruct (getSession_cases u w)
    as [[Hn _]|[(s' & Hs' & Hexp & ->)|(s' & Hs' & _ & ->)]]; [congruence| |].
  - rewrite Hs in Hs'. injection Hs' as <-. cbn. f_equal.
    assert ((expiresAt s - clock w) / 60000 < 0) by (apply Z.div_lt_upper_bound; lia).
    lia.
  - rewrite Hs in Hs'. injection Hs' as <-. reflexivity.
Qed.

(** What a read of a key gives for a live session. *)
Lemma getKeyFromSession_value (u : N) (net : Network) (w : World) (s : Session) :
  map_get u (sessions w) = Some s → ¬ expiresAt s < clock w →
  (getKeyFromSession u net w).1
  = match encryptedKeys s !! net with
    | Some e => if String.eqb e EmptyString then Returns None
                else session_decrypt (sessionKey s) e
    | None => Returns None
    end.
Proof.
  intros Hs Hlive. unfold getKeyFromSession, bind.
  destruct (getSession_cases u w)
    as [[Hn _]|[(s' & Hs' & Hexp & _)|(s' & Hs' & _ & ->)]]; [congruence| |].
  - rewrite Hs in Hs'. injection Hs' as <-. done.
  - rewrite Hs in Hs'. injection Hs' as <-.
    destruct (encryptedKeys s !! net) as [e|]; [|done].
    by destruct (String.eqb e EmptyString).
Qed.

End Remaining.

(** X17. Right after a successful [unlock], [getSessionTimeRemaining]
    gives 30, the minutes that the handler shows the user; at the time
    [t] it gives the whole minutes that are left of the thirty, and 0 once
    they are over. *)
Theorem getSessionTimeRemaining_after_unlock `{NodeCrypto} `{!CryptoCorrect}
    (u : N) (p : string) (w : World) (sec : UserSecurityRow) :
  sessions_ok w →
  recent_failures u w < 5 →
  user_security w !! u = Some sec →
  verifyPassword p u (password_hash sec) = Returns true →
  ∃ w', unlock u p w = (Returns succeeded, w') ∧
        (getSessionTimeRemaining u w').1 = Returns 30 ∧
        ∀ t, (getSessionTimeRemaining u (set_clock t w')).1
             = Returns (Z.max 0 ((clock w + 30 * 60 * 1000 - t) / 60000)).
Proof.
  intros Hok Hfew Hsec Hverify.
  destruct (unlock_opens_session u p w sec Hok Hfew Hsec Hverify)
    as (w' & s & Hrun & _ & Hclock & Hs & _ & Hexp & _).
  unfold SESSION_TIMEOUT_MS in Hexp.
  exists w'. split; [exact Hrun|]. split.
  - rewrite (getSessionTimeRemaining_session u w' s Hs), Hexp, Hclock. f_equal.
    replace (clock w + 30 * 60 * 1000 - clock w) with (30 * 60000) by lia.
    rewrite Z.div_mul by lia. lia.
  - intros t. rewrite (getSessionTimeRemaining_session u (set_clock t w') s Hs), Hexp.
    reflexivity.
Qed.

Lemma getSessionTimeRemaining_after_unlock_witness :
  ∃ w', unlock 42 "abcdef" world_legacy = (Returns succeeded, w') ∧
        (getSessionTimeRemaining 42 w').1 = Returns 30.
Proof.
  destruct (getSessionTimeRemaining_after_unlock 42 "abcdef" world_legacy user42
              (sessions_ok_no_session _ world_legacy_no_session)
              world_legacy_few_failures world_legacy_user user42_password)
    as (w' & Hrun & Hthirty & _).
  exists w'. split; [exact Hrun|exact Hthirty].
Defined.

(** X18. [refreshSession] gives a live session a new expiry, [timeoutMs]
    after the clock, and leaves its keys: up to the new expiry
    [getPrivateKey] gives what it gave, and after it no key.  It does not
    revive an expired session: on one it returns [false] and removes it. *)
Theorem refreshSession_extends_live_session `{NodeCrypto}
    (u : N) (timeoutMs : Z) (w : World) (s : Session) :
  map_get u (sessions w) = Some s →
  (expiresAt s < clock w →
   refreshSession u timeoutMs w = (Returns false, set_sessions (map_delete u) w) ∧
   map_get u (sessions (refreshSession u timeoutMs w).2) = None) ∧
  (¬ expiresAt s < clock w →
   ∃ w', refreshSession u timeoutMs w = (Returns true, w') ∧
         map_get u (sessions w')
         = Some {| session_user := session_user s; unlockedAt := unlockedAt s;
                   expiresAt := clock w + timeoutMs;
                   encryptedKeys := encryptedKeys s; sessionKey := sessionKey s |} ∧
         (∀ net t, t ≤ clock w + timeoutMs →
            (getPrivateKey u net (set_clock t w')).1 = (getPrivateKey u net w).1) ∧
         (∀ net t, clock w + timeoutMs < t →
            (getPrivateKey u net (set_clock t w')).1 = Returns None) ∧
         wallets w' = wallets w ∧ clock w' = clock w).
Proof.
  intros Hs. unfold refreshSession, bind. split.
  - intros Hexp.
    destruct (getSession_cases u w)
      as [[Hn _]|[(s' & _ & _ & ->)|(s' & Hs' & Hlive & _)]]; [congruence| |].
    + split; [done|]. apply map_get_delete_eq.
    + rewrite Hs in Hs'. injection Hs' as <-. done.
  - intros Hlive.
    destruct (getSession_cases u w)
      as [[Hn _]|[(s' & Hs' & Hexp & _)|(s' & Hs' & _ & ->)]]; [congruence| |].
    { rewrite Hs in Hs'. injection Hs' as <-. done. }
    rewrite Hs in Hs'. injection Hs' as <-.
    eexists. split; [reflexivity|].
    cbn [sessions wallets clock set_sessions]. split; [apply map_get_set_eq|].
    split; [|split; [|done]].
    + intros net t Ht. unfold getPrivateKey.
      rewrite (getKeyFromSession_value u net w s Hs Hlive).
      erewrite getKeyFromSession_value; [|apply map_get_set_eq|cbn; lia]. done.
    + intros net t Ht. unfold getPrivateKey.
      erewrite getKeyFromSession_expired; [done|apply map_get_set_eq|cbn; lia].
Qed.

Lemma refreshSession_extends_live_session_witness :
  ∃ w', refreshSession 42 SESSION_TIMEOUT_MS world_unlocked = (Returns true, w') ∧
        (getPrivateKey 42 solana (set_clock (clock world_unlocked + SESSION_TIMEOUT_MS) w')).1
        = (getPrivateKey 42 solana world_unlocked).1.
Proof.
  destruct world_unlocked_solana_live as (s & Hs & Hlive & _).
  destruct (refreshSession_extends_live_session 42 SESSION_TIMEOUT_MS world_unlocked s Hs)
    as [_ Hextends].
  destruct (Hextends Hlive) as (w' & Hrun & _ & Hkeys & _).
  exists w'. split; [exact Hrun|]. apply Hkeys. lia.
Defined.

(** ** The sweep of the expired sessions *)

Lemma map_get_filter {V} (P : N * V → Prop) `{∀ e, Decision (P e)}
    (k : N) (m : list (N * V)) :
  NoDup m.*1 →
  map_get k (filter P m)
  = match map_get k m with
    | Some v => if decide (P (k, v)) then Some v else None
    | None => None
    end.
Proof.
  induction m as [|[k' v'] m IH]; [done|]. rewrite fmap_cons. cbn [fst].
  intros [Hfresh Hnd]%NoDup_cons. rewrite filter_cons. cbn [map_get].
  destruct (bool_decide (k' = k)) eqn:E.
  - apply bool_decide_eq_true in E. subst k'.
    destruct (decide (P (k, v'))) as [Hp|Hp].
    + cbn [map_get]. by rewrite bool_decide_eq_true_2.
    + destruct (map_get k (filter P m)) as [v|] eqn:Hget; [|done].
      destruct Hfresh. apply map_get_elem_of in Hget.
      apply list_elem_of_filter in Hget as [_ Hin].
      apply list_elem_of_fmap. by exists (k, v).
  - destruct (decide (P (k', v'))); [|by apply IH].
    cbn [map_get]. rewrite E. by apply IH.
Qed.

(** X19. The sweep that runs every minute drops the expired sessions and
    keeps the others, and no read can tell whether it has run: in a store
    with one session for a user, [getPrivateKey] and [isUnlocked] give
    after the sweep what they give without it. *)
Theorem sessionCleanup_is_invisible `{NodeCrypto} (u : N) (net : Network) (w : World) :
  NoDup (sessions w).*1 →
  ∃ w', sessionCleanup w = (Returns tt, w') ∧
        (∀ e, e ∈ sessions w' ↔ e ∈ sessions w ∧ ¬ expiresAt e.2 < clock w) ∧
        (getPrivateKey u net w').1 = (getPrivateKey u net w).1 ∧
        (isUnlocked u w').1 = (isUnlocked u w).1 ∧
        wallets w' = wallets w ∧ clock w' = clock w.
Proof.
  intros Hnd. eexists. split; [reflexivity|].
  cbn [sessions wallets clock set_sessions].
  split; [intros e; rewrite list_elem_of_filter; tauto|].
  set (w' := set_sessions _ w).
  assert (Hget : map_get u (sessions w')
                 = match map_get u (sessions w) with
                   | Some s => if decide (¬ expiresAt s < clock w) then Some s else None
                   | None => None
                   end).
  { unfold w'. cbn [sessions set_sessions]. by rewrite map_get_filter. }
  assert (Hsession : (getSession u w').1 = (getSession u w).1).
  { destruct (getSession_cases u w)
      as [[Hs ->]|[(s & Hs & Hexp & ->)|(s & Hs & Hlive & ->)]];
      rewrite Hs in Hget.
    - destruct (getSession_cases u w')
        as [[_ ->]|[(s' & Hs' & _)|(s' & Hs' & _)]]; [done|congruence..].
    - rewrite decide_False in Hget by tauto.
      destruct (getSession_cases u w')
        as [[_ ->]|[(s' & Hs' & _)|(s' & Hs' & _)]]; [done|congruence..].
    - rewrite decide_True in Hget by done.
      destruct (getSession_cases u w')
        as [[Hn _]|[(s' & Hs' & Hexp & _)|(s' & Hs' & _ & ->)]]; [congruence| |].
      + rewrite Hget in Hs'. injection Hs' as <-. done.
      + rewrite Hget in Hs'. by injection Hs' as <-. }
  split; [|split; [|done]].
  - unfold getPrivateKey, getKeyFromSession, bind.
    destruct (getSession u w') as [r1 w1], (getSession u w) as [r2 w2].
    cbn [fst] in Hsession. subst r2.
    destruct r1 as [[s|]|msg]; [|done..].
    destruct (encryptedKeys s !! net) as [e|]; [|done].
    by destruct (String.eqb e EmptyString).
  - unfold isUnlocked, bind.
    destruct (getSession u w') as [r1 w1], (getSession u w) as [r2 w2].
    cbn [fst] in Hsession. subst r2. by destruct r1.
Qed.

Lemma world_unlocked_one_session : NoDup (sessions world_unlocked).*1.
Proof.
  assert (Hkeys : (sessions world_unlocked).*1 = [42%N]) by (vm_compute; reflexivity).
  rewrite Hkeys. apply NoDup_singleton.
Qed.

Lemma sessionCleanup_is_invisible_witness :
  ∃ w', sessionCleanup world_unlocked = (Returns tt, w') ∧
        (getPrivateKey 42 solana w').1 = (getPrivateKey 42 solana world_unlocked).1.
Proof.
  destruct (sessionCleanup_is_invisible 42 solana world_unlocked world_unlocked_one_session)
    as (w' & Hrun & _ & Hkey & _).
  exists w'. split; [exact Hrun|exact Hkey].
Defined.

(** ** Setting up a password and creating a wallet *)

Section Setup.
Context `{NodeCrypto} `{!CryptoCorrect}.

Lemma isUnlocked_live (u : N) (w : World) (s : Session) :
  map_get u (sessions w) = Some s → ¬ expiresAt s < clock w →
  isUnlocked u w = (Returns true, w).
Proof.
  intros Hs Hlive. unfold isUnlocked, bind.
  destruct (getSession_cases u w)
    as [[Hn _]|[(s' & Hs' & Hexp & _)|(s' & Hs' & _ & ->)]]; [congruence| |].
  - rewrite Hs in Hs'. injection Hs' as <-. done.
  - reflexivity.
Qed.

Lemma setupPassword_run (u : N) (p : string) (w : World) :
  user_security w !! u = None → (6 ≤ js_length p)%nat →
  setupPassword u p w
  = (Returns succeeded,
     set_security_log
       (λ l, l ++ [{| log_user := u; log_action := "password_created";
                      log_details := None |}])
       (set_user_security
          <[u := {| password_hash := hashPassword_with (drawn w SALT_LENGTH) p u;
                    last_password_change := None |}]>
          (set_entropy_pos (λ n, (n + N.to_nat SALT_LENGTH)%nat) w))).
Proof.
  intros Hnone Hlen. unfold setupPassword, bind, hasUserSecurity, gets.
  rewrite Hnone. rewrite bool_decide_eq_false_2 by (by intros [? ?]).
  rewrite bool_decide_eq_false_2 by lia.
  unfold hashPassword, bind, randomBytes, ret, createUserSecurity, bind, gets.
  cbn [user_security set_entropy_pos]. by rewrite Hnone.
Qed.

End Setup.

(** X20. [setupPassword] gives a user a password once: it refuses a user
    who has one, and a password shorter than six characters, and changes
    nothing then.  Otherwise it stores a hash of the password under a
    fresh salt, against which the password verifies, logs the event and
    leaves the wallets, the sessions and the attempts; and the user, if not
    locked out, can [unlock] with the password at once. *)
Theorem setupPassword_sets_password `{NodeCrypto} `{!CryptoCorrect}
    (u : N) (p : string) (w : World) :
  (is_Some (user_security w !! u) →
   setupPassword u p w = (Returns (failed_with "Password already set up"), w)) ∧
  (user_security w !! u = None → (js_length p < 6)%nat →
   setupPassword u p w
   = (Returns (failed_with "Password must be at least 6 characters"), w)) ∧
  (user_security w !! u = None → (6 ≤ js_length p)%nat →
   ∃ w' sec,
     setupPassword u p w = (Returns succeeded, w') ∧
     user_security w' = <[u := sec]> (user_security w) ∧
     password_hash sec = hashPassword_with (drawn w SALT_LENGTH) p u ∧
     verifyPassword p u (password_hash sec) = Returns true ∧
     wallets w' = wallets w ∧ sessions w' = sessions w ∧
     login_attempts w' = login_attempts w ∧
     (sessions_ok w → recent_failures u w < 5 →
      ∃ w'', unlock u p w' = (Returns succeeded, w'') ∧
             isUnlocked u w'' = (Returns true, w''))).
Proof.
  split; [|split].
  - intros Hsome. unfold setupPassword, bind, hasUserSecurity, gets.
    by rewrite bool_decide_eq_true_2.
  - intros Hnone Hshort. unfold setupPassword, bind, hasUserSecurity, gets.
    rewrite Hnone. rewrite bool_decide_eq_false_2 by (by intros [? ?]).
    by rewrite bool_decide_eq_true_2.
  - intros Hnone Hlen. rewrite (setupPassword_run u p w Hnone Hlen).
    set (sec := {| password_hash := hashPassword_with (drawn w SALT_LENGTH) p u;
                   last_password_change := None |}).
    set (w' := set_security_log _ _).
    exists w', sec. split; [reflexivity|].
    assert (Hverify : verifyPassword p u (password_hash sec) = Returns true).
    { cbn [password_hash sec]. rewrite verifyPassword_against_hash.
      by rewrite bool_decide_eq_true_2. }
    do 3 (split; [done|]). do 3 (split; [done|]).
    intros Hok Hfew.
    destruct (unlock_opens_session u p w' sec)
      as (w'' & s & Hrun & _ & Hclock & Hs & _ & Hexp & _);
      [exact Hok|exact Hfew|apply lookup_insert_eq|exact Hverify|].
    exists w''. split; [exact Hrun|].
    apply (isUnlocked_live u w'' s Hs). rewrite Hexp, Hclock.
    unfold SESSION_TIMEOUT_MS. lia.
Qed.

Lemma world0_no_user : user_security world0 !! 42%N = None.
Proof. reflexivity. Qed.

Lemma password_long_enough : (6 ≤ js_length "abcdef")%nat.
Proof. vm_compute. lia. Qed.

Lemma world0_no_session : sessions world0 = [].
Proof. reflexivity. Qed.

Lemma world0_few_failures : recent_failures 42 world0 < 5.
Proof. vm_compute. reflexivity. Qed.

Lemma setupPassword_sets_password_witness :
  ∃ w' w'', setupPassword 42 "abcdef" world0 = (Returns succeeded, w') ∧
            unlock 42 "abcdef" w' = (Returns succeeded, w'').
Proof.
  destruct (setupPassword_sets_password 42 "abcdef" world0) as (_ & _ & Hsetup).
  destruct (Hsetup world0_no_user password_long_enough)
    as (w' & sec & Hrun & _ & _ & _ & _ & _ & _ & Hunlock).
  destruct (Hunlock (sessions_ok_no_session _ world0_no_session) world0_few_failures)
    as (w'' & Hrun' & _).
  exists w', w''. split; [exact Hrun|exact Hrun'].
Defined.

Section CreateWallet.
Context `{NodeCrypto} `{!CryptoCorrect}.

(** The wallet row that [saveWallet] and [setWalletEncryptionVersion]
    leave for a blob at version 2. *)
Lemma save_at_version_2 (u : N) (net : Network) (address blob : string) (w : World) :
  ∃ w', (∀ A (k : M A),
           (saveWallet u net address blob ;; setWalletEncryptionVersion u net 2 ;; k) w
           = k w') ∧
        wallets w' !! (u, net)
        = Some {| wallet_id := match wallets w !! (u, net) with
                               | Some r => wallet_id r
                               | None => next_wallet_id w
                               end;
                  wallet_address := address; encrypted_private_key := blob;
                  encryption_version := 2 |} ∧
        (∀ k, k ≠ (u, net) → wallets w' !! k = wallets w !! k) ∧
        sessions w' = sessions w ∧ clock w' = clock w ∧
        walletEncryptionKey w' = walletEncryptionKey w ∧
        user_security w' = user_security w ∧ login_attempts w' = login_attempts w.
Proof.
  unfold bind, saveWallet, setWalletEncryptionVersion, modify.
  destruct (wallets w !! (u, net)) as [r|] eqn:Hr;
    (eexists; split; [intros A k; reflexivity|]); cbn [wallets set_wallets];
    (split; [by rewrite lookup_alter_eq, lookup_insert_eq|]);
    (split; [intros k Hk; by rewrite lookup_alter_ne, lookup_insert_ne|]);
    by repeat split.
Qed.

(** A blob of the current format at version 2 is decrypted with the
    password. *)
Lemma decryptPrivateKey_version_2 (u : N) (net : Network) (p : string)
    (w : World) (wl : WalletRow) :
  wallets w !! (u, net) = Some wl → encryption_version wl = 2%N →
  (decryptPrivateKey u net p w).1 = decryptWithPassword (encrypted_private_key wl) p u.
Proof.
  intros Hwl Hv. rewrite decryptPrivateKey_run, Hwl. cbn [fst].
  unfold effective_version. rewrite Hv. reflexivity.
Qed.


Lemma isUnlocked_cases (u : N) (w : World) :
  (map_get u (sessions w) = None ∧ isUnlocked u w = (Returns false, w)) ∨
  (∃ s, map_get u (sessions w) = Some s ∧ expiresAt s < clock w ∧
        isUnlocked u w = (Returns false, set_sessions (map_delete u) w)) ∨
  (∃ s, map_get u (sessions w) = Some s ∧ ¬ expiresAt s < clock w ∧
        isUnlocked u w = (Returns true, w)).
Proof.
  unfold isUnlocked, bind.
  destruct (getSession_cases u w)
    as [[Hn ->]|[(s & Hs & Hexp & ->)|(s & Hs & Hlive & ->)]].
  - by left.
  - right. left. by exists s.
  - right. right. by exists s.
Qed.

(** [createEncryptedWallet] with the right password, up to the caching
    of the key in the session. *)
Lemma createEncryptedWallet_saves (u : N) (net : Network)
    (address privateKey password : string) (w : World) (sec : UserSecurityRow) :
  user_security w !! u = Some sec →
  verifyPassword password u (password_hash sec) = Returns true →
  ∃ blob w1,
    createEncryptedWallet u net address privateKey password w
    = (unlocked <- isUnlocked u ;;
       (if unlocked then _ <- storeKeyInSession u net privateKey ;; ret tt else ret tt) ;;
       ret succeeded) w1 ∧
    decryptWithPassword blob password u = Returns (Some privateKey) ∧
    wallets w1 !! (u, net)
    = Some {| wallet_id := match wallets w !! (u, net) with
                           | Some r => wallet_id r
                           | None => next_wallet_id w
                           end;
              wallet_address := address; encrypted_private_key := blob;
              encryption_version := 2 |} ∧
    (∀ k, k ≠ (u, net) → wallets w1 !! k = wallets w !! k) ∧
    sessions w1 = sessions w ∧ clock w1 = clock w ∧
    login_attempts w1 = login_attempts w ∧ user_security w1 = user_security w.
Proof.
  intros Hsec Hverify.
  unfold createEncryptedWallet. unfold bind at 1. unfold getUserSecurity, gets at 1.
  rewrite Hsec. unfold bind at 1. unfold lift at 1. rewrite Hverify. cbn [negb].
  unfold bind at 1. rewrite encryptWithPassword_run.
  destruct (encryptWithPassword_with_returns (drawn w SALT_LENGTH)
    (drawn (set_entropy_pos (λ n, (n + N.to_nat SALT_LENGTH)%nat) w) IV_LENGTH)
    privateKey password u) as (ct & tag & _ & Hblob); [by rewrite drawn_length|].
  rewrite Hblob.
  set (blob := join colon _) in *.
  set (w0 := set_entropy_pos _ (set_entropy_pos _ w)).
  destruct (save_at_version_2 u net address blob w0)
    as (w1 & Hrun & Hrow & Hother & Hsess & Hclock & _ & Husr & Hatt).
  rewrite Hrun. unfold bind at 1. unfold logSecurityEvent at 1, modify at 1.
  eexists blob, _. split; [reflexivity|].
  cbn [wallets sessions clock login_attempts user_security set_security_log].
  split; [eapply decrypt_of_encrypt, Hblob|]. by repeat split.
Qed.

End CreateWallet.

(** X21. [createEncryptedWallet] with the password of the user encrypts
    the key under it and stores the wallet at version 2, in place of any
    wallet the user had on the network: the stored blob decrypts under
    the password to the key, the wallets of the other users and networks
    are untouched, and when the user has a live session the key is
    cached, so that [getPrivateKey] gives it at once.  Without a password
    set up, or with a wrong password, it fails and changes nothing: the
    wrong password is not recorded among the failed attempts. *)
Theorem createEncryptedWallet_stores_key `{NodeCrypto} `{!CryptoCorrect}
    (u : N) (net : Network) (address privateKey password : string) (w : World) :
  sessions_ok w →
  (user_security w !! u = None →
   createEncryptedWallet u net address privateKey password w
   = (Returns (failed_with "Please set up security first with /security"), w)) ∧
  (∀ sec, user_security w !! u = Some sec →
     verifyPassword password u (password_hash sec) = Returns false →
     createEncryptedWallet u net address privateKey password w
     = (Returns (failed_with "Incorrect password"), w)) ∧
  (∀ sec, user_security w !! u = Some sec →
     verifyPassword password u (password_hash sec) = Returns true →
     ∃ w' blob r,
       createEncryptedWallet u net address privateKey password w
       = (Returns succeeded, w') ∧
       wallets w' !! (u, net) = Some r ∧
       wallet_address r = address ∧ encrypted_private_key r = blob ∧
       encryption_version r = 2%N ∧
       decryptWithPassword blob password u = Returns (Some privateKey) ∧
       (decryptPrivateKey u net password w').1 = Returns (Some privateKey) ∧
       (∀ k, k ≠ (u, net) → wallets w' !! k = wallets w !! k) ∧
       login_attempts w' = login_attempts w ∧
       (∀ s, map_get u (sessions w) = Some s → ¬ expiresAt s < clock w →
             getPrivateKey u net w' = (Returns (Some privateKey), w'))).
Proof.
  intros Hok. split; [|split].
  - intros Hnone. unfold createEncryptedWallet, bind, getUserSecurity, gets.
    by rewrite Hnone.
  - intros sec Hsec Hverify. unfold createEncryptedWallet, bind, getUserSecurity, gets.
    rewrite Hsec. unfold lift. by rewrite Hverify.
  - intros sec Hsec Hverify.
    destruct (createEncryptedWallet_saves u net address privateKey password w sec
                Hsec Hverify)
      as (blob & w1 & -> & Hblob & Hrow & Hother & Hsess & Hclock & Hatt & _).
    assert (Hok1 : sessions_ok w1) by (intros e; rewrite Hsess; apply Hok).
    assert (Hkey : ∀ w', wallets w' = wallets w1 →
              (decryptPrivateKey u net password w').1 = Returns (Some privateKey)).
    { intros w' Hw'. rewrite <- Hw' in Hrow.
      by rewrite (decryptPrivateKey_version_2 u net password w' _ Hrow eq_refl). }
    unfold bind at 1.
    destruct (isUnlocked_cases u w1)
      as [[Hn ->]|[(s & Hs & Hexp & ->)|(s & Hs & Hlive & ->)]].
    + eexists w1, blob, _. split; [reflexivity|]. split; [exact Hrow|].
      do 4 (split; [done|]). split; [by apply Hkey|]. do 2 (split; [done|]).
      intros s' Hs'. rewrite Hsess in Hn. congruence.
    + eexists _, blob, _. split; [reflexivity|].
      cbn [wallets login_attempts set_sessions]. split; [exact Hrow|].
      do 4 (split; [done|]). split; [by apply Hkey|]. do 2 (split; [done|]).
      intros s' Hs' Hlive'. rewrite Hsess in Hs. rewrite Hclock in Hexp.
      rewrite Hs in Hs'. injection Hs' as <-. done.
    + destruct (storeKeyInSession_live u net privateKey w1 s Hok1 Hs Hlive)
        as (iv & e & w2 & Henc & Hstore & Hs2 & Hsame).
      unfold bind at 1. unfold bind at 1. rewrite Hstore. cbn [ret].
      destruct Hsame as (Hwal2 & _ & Hclock2 & _ & Hatt2 & _).
      exists w2, blob. eexists. split; [reflexivity|]. rewrite Hwal2.
      split; [exact Hrow|]. do 4 (split; [done|]). split; [by apply Hkey|].
      split; [done|]. split; [congruence|].
      intros _ _ _.
      pose proof (keeps_storeKeyInSession u net privateKey w1 Hok1) as Hok2.
      rewrite Hstore in Hok2. cbn [snd] in Hok2.
      destruct (getKeyFromSession_live u net w2 _ e Hok2 Hs2)
        as (iv' & data & Henc' & Hread).
      { cbn [expiresAt]. by rewrite Hclock2. }
      { cbn [encryptedKeys]. apply lookup_insert_eq. }
      unfold getPrivateKey. rewrite Hread. cbn [sessionKey] in Henc'.
      apply session_decrypt_of_encrypt in Henc, Henc'. congruence.
Qed.

Lemma world_unlocked_user : user_security world_unlocked !! 42%N = Some user42.
Proof. vm_compute. reflexivity. Qed.

Lemma createEncryptedWallet_stores_key_witness :
  ∃ w', createEncryptedWallet 42 base "0x2c7536E3605D9C16a7a3D7b1898e529396a65c23"
          base_secret "abcdef" world_unlocked = (Returns succeeded, w') ∧
        getPrivateKey 42 base w' = (Returns (Some base_secret), w').
Proof.
  destruct world_unlocked_solana_live as (s & Hs & Hlive & _).
  destruct (createEncryptedWallet_stores_key 42 base
              "0x2c7536E3605D9C16a7a3D7b1898e529396a65c23" base_secret "abcdef"
              world_unlocked sessions_ok_world_unlocked) as (_ & _ & Hstores).
  destruct (Hstores user42 world_unlocked_user user42_password)
    as (w' & blob & r & Hrun & _ & _ & _ & _ & _ & _ & _ & _ & Hcached).
  exists w'. split; [exact Hrun|]. exact (Hcached s Hs Hlive).
Defined.

(** ** Migration of all the wallets of a user *)

Section MigrateAll.
Context `{NodeCrypto} `{!CryptoCorrect}.
Variables (u : N) (newPassword : string).

(** [migrateWallet] on a wallet either fails and changes nothing, or
    succeeds and migrates it. *)
Lemma migrateWallet_outcome (net : Network) (w : World) (wl : WalletRow) :
  wallets w !! (u, net) = Some wl →
  (∃ msg, migrateWallet u net newPassword w = (Returns (failed_with msg), w)) ∨
  (∃ w', migrateWallet u net newPassword w = (Returns succeeded, w') ∧
         migrated_row u newPassword w w' net ∧
         (∀ k, k ≠ (u, net) → wallets w' !! k = wallets w !! k) ∧
         walletEncryptionKey w' = walletEncryptionKey w).
Proof.
  intros Hwl.
  destruct (decide (2 ≤ effective_version wl)%N) as [Hv|Hv].
  { left. eexists. by apply (migrateWallet_refuses u net newPassword w wl). }
  destruct (decryptLegacy_fails_closed (encrypted_private_key wl) (walletEncryptionKey w))
    as [[v Hdec] _].
  destruct (truthy v) eqn:Htruthy.
  - destruct v as [secret|]; [|done].
    assert (Hne : secret ≠ EmptyString) by (intros ->; done).
    destruct (migrateWallet_migrates u net newPassword w wl secret Hwl ltac:(lia) Hdec Hne)
      as (blob & w' & Hrun & Hrow & Hfmt & Hblob & Hother & _ & _ & _ & _ & Hkey).
    right. exists w'. split; [exact Hrun|]. split; [|done].
    by exists wl, secret, blob.
  - left. eexists.
    unfold migrateWallet, bind, getWallet, getWalletEncryptionVersion, gets.
    cbv beta. rewrite !Hwl. fold (effective_version wl).
    rewrite bool_decide_eq_false_2 by done.
    unfold lift. rewrite Hdec, Htruthy. reflexivity.
Qed.

Lemma migrate_each (l : list (Network * WalletRow)) :
  NoDup l.*1 →
  ∀ w done failed,
    (∀ net wl, (net, wl) ∈ l → wallets w !! (u, net) = Some wl) →
    ∃ done' failed' w',
      for_of_with l (done, failed) (λ wallet lists,
        result <- migrateWallet u wallet.1 newPassword ;;
        if success result then ret (lists.1 ++ [wallet.1], lists.2)
        else ret (lists.1, lists.2 ++ [wallet.1])) w
      = (Returns (done ++ done', failed ++ failed'), w') ∧
      done' ++ failed' ≡ₚ l.*1 ∧
      walletEncryptionKey w' = walletEncryptionKey w ∧
      (∀ k, (∀ net, net ∈ l.*1 → k ≠ (u, net)) → wallets w' !! k = wallets w !! k) ∧
      (∀ net, net ∈ done' → migrated_row u newPassword w w' net) ∧
      (∀ net, net ∈ failed' → wallets w' !! (u, net) = wallets w !! (u, net)).
Proof.
  induction l as [|[n0 wl0] l IH]; intros Hnd w done failed Hrows.
  - exists [], [], w. rewrite !app_nil_r. split; [done|]. split; [done|].
    split; [done|]. split; [done|]. split; by intros net ?%elem_of_nil.
  - rewrite fmap_cons in Hnd. cbn [fst] in Hnd.
    apply NoDup_cons in Hnd as [Hfresh Hnd].
    assert (Hne : ∀ net, net ∈ l.*1 → (u, net) ≠ (u, n0)).
    { intros net Hin [= ->]. done. }
    cbn [for_of_with]. unfold bind at 1. unfold bind at 1.
    cbn [fst snd].
    destruct (migrateWallet_outcome n0 w wl0) as [[msg Hrun]|(w1 & Hrun & Hmig & Hother & Hkey)];
      [apply Hrows; left| |]; rewrite Hrun; cbn [success failed_with succeeded ret].
    + destruct (IH Hnd w done (failed ++ [n0])) as
        (done' & failed' & w' & -> & Hperm & Hkey' & Hother' & Hdone & Hfailed).
      { intros net wl Hin. apply Hrows. by right. }
      exists done', (n0 :: failed'), w'. rewrite <- app_assoc. split; [done|].
      split; [|split; [done|split; [|split]]].
      * rewrite fmap_cons. cbn [fst]. rewrite <- Hperm.
        by rewrite Permutation_middle.
      * intros k Hk. apply Hother'. intros net Hin. apply Hk.
        rewrite fmap_cons. by right.
      * exact Hdone.
      * intros net [->|Hin]%elem_of_cons; [|by apply Hfailed].
        apply Hother'. intros net Hin Heq. by apply (Hne net Hin).
    + destruct (IH Hnd w1 (done ++ [n0]) failed) as
        (done' & failed' & w' & -> & Hperm & Hkey' & Hother' & Hdone & Hfailed).
      { intros net wl Hin. rewrite Hother.
        - apply Hrows. by right.
        - apply Hne, list_elem_of_fmap. by exists (net, wl). }
      exists (n0 :: done'), failed', w'. rewrite <- app_assoc. split; [done|].
      assert (Hin_l : ∀ net, net ∈ done' ∨ net ∈ failed' → net ∈ l.*1).
      { intros net Hin. rewrite <- Hperm. apply elem_of_app. tauto. }
      split; [|split; [congruence|split; [|split]]].
      * rewrite fmap_cons. cbn [fst]. by rewrite <- Hperm.
      * intros k Hk. rewrite Hother', Hother; [done| |].
        -- apply Hk. rewrite fmap_cons. left.
        -- intros net Hin. apply Hk. rewrite fmap_cons. by right.
      * intros net [->|Hin]%elem_of_cons.
        -- destruct Hmig as (wl & secret & blob & Hwl & Hdec & Hrow & Hfmt & Hblob).
           exists wl, secret, blob. split; [done|]. split; [done|].
           split; [|done]. rewrite Hother'; [done|].
           intros net Hin Heq. by apply (Hne net Hin).
        -- destruct (Hdone net Hin) as (wl & secret & blob & Hwl & Hdec & Hrow & Hrest).
           exists wl, secret, blob. rewrite <- Hother, <- Hkey; [done|].
           apply Hne, Hin_l. by left.
      * intros net Hin. rewrite Hfailed by done. apply Hother.
        apply Hne, Hin_l. by right.
Qed.

End MigrateAll.

(** X22.  [migrateAllWallets] always returns a report, and the report is
    accurate.  Every network on which the user has a wallet is listed once,
    in [migrated] or in [failed], and nothing else is listed; [success] says
    that [failed] is empty.  A wallet listed in [migrated] is afterwards
    stored at version 2, in the current format, and the new password
    decrypts it to the secret the server key gave; a wallet listed in
    [failed] is stored as it was; no row of another user changes. *)
Theorem migrateAllWallets_report_is_accurate `{NodeCrypto} `{!CryptoCorrect}
    (u : N) (newPassword : string) (w : World) :
  ∃ report w',
    migrateAllWallets u newPassword w = (Returns report, w') ∧
    NoDup (migrated report ++ migration_failed report) ∧
    (∀ net, net ∈ migrated report ++ migration_failed report
            ↔ is_Some (wallets w !! (u, net))) ∧
    (migration_success report = true ↔ migration_failed report = []) ∧
    (∀ net, net ∈ migrated report → migrated_row u newPassword w w' net) ∧
    (∀ net, net ∈ migration_failed report →
            wallets w' !! (u, net) = wallets w !! (u, net)) ∧
    (∀ u' net, u' ≠ u → wallets w' !! (u', net) = wallets w !! (u', net)).
Proof.
  destruct (getAllWallets_rows u w) as (l & Hl & Hnd & Hrows).
  destruct (migrate_each u newPassword l Hnd w [] [])
    as (done & failed & w' & Hloop & Hperm & _ & Hother & Hdone & Hfailed).
  { intros net wl. apply Hrows. }
  cbn [app] in Hloop.
  exists {| migration_success := bool_decide (length failed = 0%nat);
            migrated := done; migration_failed := failed |}, w'.
  cbn [migrated migration_failed migration_success].
  split; [|split; [|split; [|split; [|split; [done|split; [done|]]]]]].
  - unfold migrateAllWallets. unfold bind at 1. rewrite Hl.
    unfold bind at 1. by rewrite Hloop.
  - by rewrite Hperm.
  - intros net. rewrite Hperm, list_elem_of_fmap. split.
    + intros [[net' wl] [-> Hin]]. exists wl. by apply Hrows.
    + intros [wl Hwl]. exists (net, wl). split; [done|]. by apply Hrows.
  - rewrite bool_decide_eq_true. split.
    + by intros ?%nil_length_inv.
    + by intros ->.
  - intros u' net Hu. apply Hother. intros net' _ [= Heq _]. done.
Qed.

Lemma world_legacy_migrates_all :
  (migrateAllWallets 42 "abcdef" world_legacy).1
  = Returns {| migration_success := true; migrated := [solana];
               migration_failed := [] |}.
Proof. vm_compute. reflexivity. Qed.

Lemma migrateAllWallets_report_is_accurate_witness :
  ∃ report w',
    migrateAllWallets 42 "abcdef" world_legacy = (Returns report, w') ∧
    migrated report = [solana] ∧ migration_failed report = [] ∧
    migration_success report = true ∧
    migrated_row 42 "abcdef" world_legacy w' solana.
Proof.
  destruct (migrateAllWallets_report_is_accurate 42 "abcdef" world_legacy)
    as (report & w' & Hrun & _ & _ & _ & Hmigrated & _).
  exists report, w'. split; [exact Hrun|].
  pose proof world_legacy_migrates_all as Hreport. rewrite Hrun in Hreport.
  injection Hreport as ->. cbn [migrated migration_failed migration_success] in *.
  split; [done|]. split; [done|]. split; [done|]. apply Hmigrated. left.
Defined.

(** ** The server-key module *)

Lemma encrypt_run `{NodeCrypto} (text : string) (w : World) :
  encrypt text w
  = (encrypt_with (drawn w IV_LENGTH) (walletEncryptionKey w) text,
     set_entropy_pos (λ n, (n + N.to_nat IV_LENGTH)%nat) w).
Proof. reflexivity. Qed.

Lemma decrypt_encrypt_with `{NodeCrypto} `{!CryptoCorrect}
    (iv : Buffer) (serverKey text blob : string) :
  encrypt_with iv serverKey text = Returns blob →
  decrypt serverKey blob = Returns text ∧ isLegacyFormat blob = true.
Proof.
  unfold encrypt_with.
  destruct (cbc_encrypt _ _ _) as [ct|] eqn:Hct; [|done].
  intros [= <-]. unfold decrypt, isLegacyFormat.
  rewrite split_hex2, !from_hex_to_hex, (cbc_decrypt_encrypt _ _ _ _ Hct).
  by rewrite string_of_list_byte_of_string.
Qed.

(** X23.  What the server-key [encrypt] returns, the server-key [decrypt]
    turns back into the text.  The blob has the two fields of the legacy
    format, so that [decryptLegacy] under the same key reads it too, and a
    wallet saved by the earlier revision can be migrated.  [encrypt] changes
    nothing but the position on the random tape. *)
Theorem decrypt_encrypt_server_key `{NodeCrypto} `{!CryptoCorrect}
    (text blob : string) (w w' : World) :
  encrypt text w = (Returns blob, w') →
  decrypt (walletEncryptionKey w') blob = Returns text ∧
  isLegacyFormat blob = true ∧
  decryptLegacy blob (walletEncryptionKey w') = Returns (Some text) ∧
  w' = set_entropy_pos (λ n, (n + 16)%nat) w.
Proof.
  rewrite encrypt_run. intros [= Henc <-].
  assert (Hkey : walletEncryptionKey (set_entropy_pos (λ n, (n + N.to_nat IV_LENGTH)%nat) w)
                 = walletEncryptionKey w) by by destruct w.
  rewrite Hkey.
  destruct (decrypt_encrypt_with _ _ _ _ Henc) as [Hdec Hfmt].
  split; [done|]. split; [done|]. split; [|done].
  by apply (decryptLegacy_encrypt (drawn w IV_LENGTH)).
Qed.

Lemma world0_encrypts :
  (encrypt legacy_secret world0).1 = Returns legacy_blob.
Proof. vm_compute. reflexivity. Qed.

Lemma decrypt_encrypt_server_key_witness :
  ∃ w', encrypt legacy_secret world0 = (Returns legacy_blob, w') ∧
        decrypt (walletEncryptionKey w') legacy_blob = Returns legacy_secret.
Proof.
  exists (encrypt legacy_secret world0).2.
  assert (Hrun : encrypt legacy_secret world0
                 = (Returns legacy_blob, (encrypt legacy_secret world0).2)).
  { rewrite <- world0_encrypts. by destruct (encrypt legacy_secret world0). }
  split; [exact Hrun|].
  exact (proj1 (decrypt_encrypt_server_key _ _ _ _ Hrun)).
Defined.

(** ** [escapeMarkdown] *)

Lemma escapeMarkdown_head (text : string) (c : ascii) (r : string) :
  escapeMarkdown text = String c r → has_char c markdown_special = false.
Proof.
  destruct text as [|d t]; [done|]. cbn [escapeMarkdown].
  destruct (has_char d markdown_special) eqn:Hd; intros [= <- _]; [done|exact Hd].
Qed.

(** X24.  In the text that [escapeMarkdown] returns, every character of the
    class of the pattern comes directly after a backslash, and the text is
    longer than the argument by the number of such characters in it; a text
    with none of them is returned as it is. *)
Theorem escapeMarkdown_escapes_every_special (text : string) :
  (∀ k c, String.get k (escapeMarkdown text) = Some c →
          has_char c markdown_special = true →
          ∃ j, k = S j ∧ String.get j (escapeMarkdown text) = Some backslash) ∧
  String.length (escapeMarkdown text)
  = (String.length text
     + length (filter (λ c, has_char c markdown_special = true)
                 (list_ascii_of_string text)))%nat ∧
  ((∀ c, has_char c text = true → has_char c markdown_special = false) →
   escapeMarkdown text = text).
Proof.
  induction text as [|d t (IHget & IHlen & IHsame)].
  { split; [by intros [] c|]. by split. }
  cbn [escapeMarkdown list_ascii_of_string String.length].
  rewrite filter_cons.
  destruct (has_char d markdown_special) eqn:Hd.
  - rewrite decide_True by done. split; [|split].
    + intros [|[|k]] c; cbn [String.get].
      * intros [= <-]. done.
      * intros _ _. by exists 0%nat.
      * intros Hk Hc. destruct (IHget k c Hk Hc) as (j & -> & Hj).
        exists (S (S j)). by split.
    + cbn [String.length length]. lia.
    + intros Hall. specialize (Hall d). cbn [has_char] in Hall.
      rewrite Ascii.eqb_refl in Hall. specialize (Hall eq_refl). congruence.
  - rewrite decide_False by done. split; [|split].
    + intros [|k] c; cbn [String.get].
      * intros [= <-]. congruence.
      * intros Hk Hc. destruct (IHget k c Hk Hc) as (j & -> & Hj).
        exists (S j). by split.
    + cbn [String.length]. lia.
    + intros Hall. f_equal. apply IHsame. intros c Hc. apply Hall.
      cbn [has_char]. rewrite Hc. by rewrite orb_true_r.
Qed.

(** X25.  [escapeMarkdown] loses nothing: two different texts have
    different escaped texts. *)
Theorem escapeMarkdown_injective (a b : string) :
  a ≠ b → escapeMarkdown a ≠ escapeMarkdown b.
Proof.
  intros Hne Heq. apply Hne. clear Hne. revert b Heq.
  induction a as [|c a IH]; intros [|d b]; cbn [escapeMarkdown].
  - done.
  - by destruct (has_char d markdown_special).
  - by destruct (has_char c markdown_special).
  - destruct (has_char c markdown_special) eqn:Hc,
             (has_char d markdown_special) eqn:Hd.
    + intros [= -> Heq]. f_equal. by apply IH.
    + intros [= <- Heq]. symmetry in Heq.
      apply escapeMarkdown_head in Heq. congruence.
    + intros [= -> Heq].
      apply escapeMarkdown_head in Heq. congruence.
    + intros [= -> Heq]. f_equal. by apply IH.
Qed.

Lemma escapeMarkdown_injective_witness :
  escapeMarkdown "1.5 SOL" ≠ escapeMarkdown "1-5 SOL" ∧
  escapeMarkdown "1.5 SOL" = String "1" (String backslash ".5 SOL").
Proof.
  split; [|reflexivity].
  apply (escapeMarkdown_injective "1.5 SOL" "1-5 SOL"). discriminate.
Defined.

(** ** [generateSecurePassword] *)

Lemma get_lookup (s : string) (k : nat) :
  String.get k s = list_ascii_of_string s !! k.
Proof.
  revert k. induction s as [|c s IH]; intros [|k]; cbn; done.
Qed.

Lemma chars_NoDup : NoDup (list_ascii_of_string chars).
Proof. apply (bool_decide_unpack _). vm_compute. reflexivity. Qed.

Lemma chars_get (n : nat) :
  (n < 31)%nat → ∃ c, String.get n chars = Some c ∧ c ≠ "-"%char.
Proof.
  intros Hn. rewrite get_lookup.
  destruct (lookup_lt_is_Some_2 (list_ascii_of_string chars) n) as [c Hc]; [exact Hn|].
  exists c. split; [done|]. intros ->.
  apply list_elem_of_lookup_2 in Hc. revert Hc. apply (bool_decide_unpack _).
  vm_compute. reflexivity.
Qed.

Lemma chars_get_inj (m n : nat) (c : ascii) :
  String.get m chars = Some c → String.get n chars = Some c → m = n.
Proof. rewrite !get_lookup. apply NoDup_lookup, chars_NoDup. Qed.

Lemma password_spelled (r : nat → nat) (c : nat → ascii) :
  (∀ k, (k < 16)%nat → String.get (r k) chars = Some (c k)) →
  generateSecurePassword_with r
  = string_of_list_ascii
      [c 0; c 1; c 2; c 3; "-"; c 4; c 5; c 6; c 7; "-";
       c 8; c 9; c 10; c 11; "-"; c 12; c 13; c 14; c 15]%nat%char.
Proof.
  intros Hc. unfold generateSecurePassword_with, password_word, char_at.
  cbn [fold_left seq Nat.mul Nat.add].
  rewrite !Hc by lia. reflexivity.
Qed.

(** X26.  When each of the sixteen calls of [crypto.randomInt] gives an
    index of the alphabet, [generateSecurePassword] returns nineteen
    characters: hyphens at the positions 4, 9 and 14, and at the position
    [k + k / 4] the character of the alphabet that the draw [k] selects,
    which is not a hyphen.  Two runs that return the same password made the
    same sixteen draws. *)
Theorem generateSecurePassword_spells_draws (randomInt : nat → nat) :
  (∀ k, (k < 16)%nat → (randomInt k < String.length chars)%nat) →
  String.length (generateSecurePassword_with randomInt) = 19%nat ∧
  (∀ k, k ∈ [4; 9; 14]%nat →
        String.get k (generateSecurePassword_with randomInt) = Some "-"%char) ∧
  (∀ k, (k < 16)%nat →
        ∃ c, String.get (k + k / 4) (generateSecurePassword_with randomInt) = Some c ∧
             String.get (randomInt k) chars = Some c ∧ c ≠ "-"%char) ∧
  (∀ randomInt',
     (∀ k, (k < 16)%nat → (randomInt' k < String.length chars)%nat) →
     generateSecurePassword_with randomInt' = generateSecurePassword_with randomInt →
     ∀ k, (k < 16)%nat → randomInt' k = randomInt k).
Proof.
  intros Hr.
  assert (Hspell : ∀ r, (∀ k, (k < 16)%nat → (r k < String.length chars)%nat) →
            ∃ c : nat → ascii,
              ∀ k, (k < 16)%nat → String.get (r k) chars = Some (c k) ∧ c k ≠ "-"%char).
  { intros r Hrange. exists (λ k, default "-"%char (String.get (r k) chars)).
    intros k Hk. by destruct (chars_get (r k) (Hrange k Hk)) as (c & -> & Hne). }
  destruct (Hspell randomInt Hr) as [c Hc].
  rewrite (password_spelled randomInt c (λ k Hk, proj1 (Hc k Hk))).
  split; [reflexivity|]. split; [|split].
  - intros k Hk. repeat (apply elem_of_cons in Hk as [->|Hk]; [reflexivity|]).
    by apply elem_of_nil in Hk.
  - intros k Hk. exists (c k). split; [|by apply Hc].
    do 16 (destruct k as [|k]; [reflexivity|]). lia.
  - intros r' Hr'. destruct (Hspell r' Hr') as [c' Hc'].
    rewrite (password_spelled r' c' (λ k Hk, proj1 (Hc' k Hk))).
    intros Heq k Hk. injection Heq as H0 H1 H2 H3 H4 H5 H6 H7 H8 H9 H10 H11 H12 H13 H14 H15.
    assert (Hsame : c' k = c k).
    { do 16 (destruct k as [|k]; [done|]). lia. }
    apply (chars_get_inj _ _ (c k)); [|by apply Hc].
    rewrite <- Hsame. by apply Hc'.
Qed.

Lemma generateSecurePassword_spells_draws_witness :
  String.length (generateSecurePassword_with (λ k, (2 * k)%nat)) = 19%nat ∧
  String.get 0 (generateSecurePassword_with (λ k, (2 * k)%nat)) = String.get 0 chars ∧
  generateSecurePassword_with (λ k, (2 * k)%nat) = "aceg-jmpr-tvxz-3579".
Proof.
  assert (Hrange : ∀ k, (k < 16)%nat → (2 * k < String.length chars)%nat).
  { intros k Hk. change (String.length chars) with 31%nat. lia. }
  destruct (generateSecurePassword_spells_draws (λ k, (2 * k)%nat) Hrange)
    as (Hlen & _ & Hdraw & _).
  split; [exact Hlen|]. split; [|reflexivity].
  destruct (Hdraw 0%nat ltac:(lia)) as (c & Hp & Hc & _).
  exact (eq_trans Hp (eq_sym Hc)).
Defined.

(** ** A change of password, then an unlock *)

Section Rekey.
Context `{NodeCrypto} `{!CryptoCorrect}.

(** A change of password that succeeds leaves the clock and the login
    attempts as they were. *)
Lemma changePassword_frame (w : World) (u : N) (cur new : string)
    (sec : UserSecurityRow) :
  user_security w !! u = Some sec →
  verifyPassword cur u (password_hash sec) = Returns true →
  (6 ≤ js_length new)%nat →
  ∃ w', changePassword u cur new w = (Returns succeeded, w') ∧
        login_attempts w' = login_attempts w ∧ clock w' = clock w.
Proof.
  intros Hsec Hverify Hlen.
  unfold changePassword. unfold bind at 1. unfold getUserSecurity, gets at 1.
  rewrite Hsec. unfold bind at 1. unfold lift at 1. rewrite Hverify. cbn [negb].
  rewrite bool_decide_eq_false_2 by lia.
  unfold bind at 1.
  destruct (getAllWallets_rows u w) as (l & -> & Hnodup & Hl).
  destruct (rekey_wallets_spec u cur new l Hnodup w) as
    (w1 & Hloop & Hsame & _).
  { intros net wl. apply Hl. }
  unfold bind at 1.
  change (for_of l _ w) with (for_of l (rekey_wallet u cur new) w). rewrite Hloop.
  destruct Hsame as (_ & Hclock & _ & _ & Hatt & _).
  eexists. split; [reflexivity|]. cbn. by split.
Qed.

End Rekey.

(** X27.  After [changePassword] has succeeded, [unlock] with the new
    password succeeds for a user who is not locked out, and [getPrivateKey]
    then gives the secret of every wallet that the old password decrypted
    to a secret. *)
Theorem changePassword_then_unlock `{NodeCrypto} `{!CryptoCorrect}
    (w : World) (u : N) (cur new : string) (sec : UserSecurityRow) :
  sessions_ok w →
  recent_failures u w < 5 →
  user_security w !! u = Some sec →
  verifyPassword cur u (password_hash sec) = Returns true →
  (6 ≤ js_length new)%nat →
  ∃ w1 w2,
    changePassword u cur new w = (Returns succeeded, w1) ∧
    (∀ net, getPrivateKey u net w1 = (Returns None, w1)) ∧
    unlock u new w1 = (Returns succeeded, w2) ∧
    ∀ net wl secret,
      wallets w !! (u, net) = Some wl →
      (decryptPrivateKey u net cur w).1 = Returns (Some secret) →
      secret ≠ EmptyString →
      getPrivateKey u net w2 = (Returns (Some secret), w2).
Proof.
  intros Hok Hfew Hsec Hverify Hlen.
  destruct (changePassword_spec w u cur new sec Hsec Hverify Hlen)
    as (w1 & salt & Hrun & Hhash & Hnone & Hrekeyed & _).
  destruct (changePassword_frame w u cur new sec Hsec Hverify Hlen)
    as (w1' & Hrun' & Hatt & Hclock).
  rewrite Hrun in Hrun'. injection Hrun' as <-.
  pose proof (keeps_changePassword u cur new w Hok) as Hok1.
  rewrite Hrun in Hok1. cbn [snd] in Hok1.
  destruct (user_security w1 !! u) as [sec1|] eqn:Hsec1; [|done].
  injection Hhash as Hhash.
  assert (Hverify1 : verifyPassword new u (password_hash sec1) = Returns true).
  { rewrite Hhash, verifyPassword_against_hash. by rewrite bool_decide_eq_true_2. }
  destruct (unlock_caches_secrets u new w1 sec1 Hok1) as (w2 & Hunlock & _ & _ & _ & Hkeys);
    [|done|done|].
  { unfold recent_failures in Hfew. by rewrite Hatt, Hclock. }
  exists w1, w2. split; [done|].
  split.
  { intros net. unfold getPrivateKey, getKeyFromSession, bind.
    destruct (getSession_cases u w1)
      as [[_ ->]|[(s & Hs & _)|(s & Hs & _)]]; [done|congruence..]. }
  split; [done|].
  intros net wl secret Hwl Hdec Hne.
  destruct (Hrekeyed net wl Hwl) as [_ Hnew].
  destruct (Hnew secret Hdec Hne) as (blob & Hrow & Hblob).
  apply (Hkeys net _ secret Hrow); [|done].
  by rewrite (decryptPrivateKey_version_2 u net new w1 _ Hrow eq_refl).
Qed.

Lemma world_two_wallets_no_session : sessions world_two_wallets = [].
Proof. reflexivity. Qed.

Lemma world_two_wallets_few_failures : recent_failures 42 world_two_wallets < 5.
Proof. vm_compute. reflexivity. Qed.

Lemma changePassword_then_unlock_witness :
  ∃ w1 w2,
    changePassword 42 "abcdef" "correct horse" world_two_wallets
    = (Returns succeeded, w1) ∧
    unlock 42 "correct horse" w1 = (Returns succeeded, w2) ∧
    getPrivateKey 42 solana w2 = (Returns (Some legacy_secret), w2).
Proof.
  destruct (changePassword_then_unlock world_two_wallets 42 "abcdef" "correct horse"
              user42 (sessions_ok_no_session _ world_two_wallets_no_session)
              world_two_wallets_few_failures world_two_wallets_user
              user42_password new_password_length)
    as (w1 & w2 & Hchange & _ & Hunlock & Hkeys).
  exists w1, w2. split; [exact Hchange|]. split; [exact Hunlock|].
  exact (Hkeys solana solana_row legacy_secret world_two_wallets_solana
           world_two_wallets_solana_decrypts legacy_secret_nonempty).
Defined.
